(** * Double-pendulum numerical analysis: the notebook's core, embedded in Rocq

    The development follows [Double_Pendulum_Numerical_Analysis.ipynb]:
    the two right-hand sides [dp_rhs] and [sa_dp_rhs], the crossing locator
    [find_vertical] and the sweep drivers [p_w_plot], [length_plot] and
    [mass_plot], with the composites [plot_all_length], [plot_all_mass] and
    [plot_all_p_w] that call them.

    Modelling conventions.
    - Python floats are read as real numbers ([R]); rounding, overflow and
      NaN are outside the model.
    - A Python exception is a value [Raise e] of [outcome]; [None] is the
      [None] of [option].
    - The right-hand sides are modelled as called on Python numbers (lists
      of floats): [/] between two Python floats raises [ZeroDivisionError]
      on a zero divisor, while a division whose dividend comes from numpy's
      [sin] or [cos] raises nothing.
    - An array indexed by [None] is the array seen as the one row of a
      two-dimensional array ([None] is [numpy.newaxis]); the truth value of
      an array is that of its entry when it has exactly one, and a
      [ValueError] otherwise (for an empty array: numpy from version 2.2).
    - Python lists that are shared and mutated (the parameter vector [p] and
      its copies) live in a store of list objects addressed by references.
    - [scipy.integrate.odeint] is an arbitrary function of its arguments; the
      drivers are stated for every such function.
    - Figures, axes, labels and legends are not modelled: a driver returns
      the lists it hands to the plotting calls. *)

From Stdlib Require Import Reals Lra Lia.
From stdpp Require Import base option list gmap.

Local Open Scope R_scope.

(** ** Python outcomes *)

Inductive exn : Set :=
| IndexError          (* sequence index out of range *)
| ValueError          (* unpacking a sequence of the wrong length;
                         [list.index] miss; truth value of an array that
                         has not exactly one entry *)
| NameError           (* a module-level name bound to no object *)
| ZeroDivisionError.  (* [/] of Python floats with a zero divisor *)

Inductive outcome (A : Type) : Type :=
| Ok (a : A)
| Raise (e : exn).
Arguments Ok {A} a.
Arguments Raise {A} e.

Global Instance outcome_ret : MRet outcome := λ A a, Ok a.
Global Instance outcome_bind : MBind outcome := λ A B f m,
  match m with
  | Ok a => f a
  | Raise e => Raise e
  end.
Global Instance outcome_fmap : FMap outcome := λ A B f m,
  match m with
  | Ok a => Ok (f a)
  | Raise e => Raise e
  end.

(** ** The store of list objects *)

(** A reference to a list object, and the store mapping references to the
    objects' current contents. *)
Abbreviation ref := nat (only parsing).
Abbreviation store := (gmap nat (list R)) (only parsing).

(** A Python computation: it reads and updates the store and ends in a value
    or in an exception; the store survives an exception. *)
Definition py (A : Type) : Type := store → outcome A * store.

Global Instance py_ret : MRet py := λ A a σ, (Ok a, σ).
Global Instance py_bind : MBind py := λ A B f m σ,
  match m σ with
  | (Ok a, σ') => f a σ'
  | (Raise e, σ') => (Raise e, σ')
  end.

(** A computation that does not touch the store. *)
Definition lift {A : Type} (o : outcome A) : py A := λ σ, (o, σ).

(** Reading the object behind a name, e.g. to pass it as an argument. *)
Definition list_read (r : ref) : py (list R) := λ σ,
  match σ !! r with
  | Some v => (Ok v, σ)
  | None => (Raise NameError, σ)
  end.

(** [r.copy()]: a new object with the same contents. *)
Definition list_copy (r : ref) : py ref := λ σ,
  match σ !! r with
  | Some v => let r' := fresh (dom σ) in (Ok r', <[r' := v]> σ)
  | None => (Raise NameError, σ)
  end.

(** [r[i] = x]: in place; Python raises when [i] is out of range. *)
Definition list_setitem (r : ref) (i : nat) (x : R) : py () := λ σ,
  match σ !! r with
  | Some v =>
      if decide (i < length v)%nat then (Ok (), <[r := <[i := x]> v]> σ)
      else (Raise IndexError, σ)
  | None => (Raise NameError, σ)
  end.

(** [for x in xs: body], the loop's locals threaded as [s]. *)
Fixpoint for_loop {M : Type → Type} `{!MBind M, !MRet M} {X S : Type}
    (xs : list X) (body : X → S → M S) (s : S) : M S :=
  match xs with
  | [] => mret s
  | x :: xs' => s' ← body x s; for_loop xs' body s'
  end.

(** [a[i]] on a list or a one-dimensional array, [i] a non-negative int. *)
Definition getitem (a : list R) (i : nat) : outcome R :=
  match a !! i with
  | Some x => Ok x
  | None => Raise IndexError
  end.

(** What indexing a one-dimensional array gives: a number, or for the
    index [None] the array itself, seen as the one row of a two-dimensional
    array. *)
Inductive value : Type :=
| Scalar (x : R)
| View (row : list R).

(** [a[i]] on a one-dimensional array, where [i] may be [None]. *)
Definition getitem_opt (a : list R) (i : option nat) : outcome value :=
  match i with
  | Some k => Scalar <$> getitem a k
  | None => Ok (View a)
  end.

(** Unary minus: on an array it acts on every entry. *)
Definition neg (v : value) : value :=
  match v with
  | Scalar x => Scalar (- x)
  | View row => View (Ropp <$> row)
  end.

(** A value used where a number is tested ([if v > m:], [if v < m:]).  An
    array of one entry is tested, and then compared, subtracted and looked
    up, as the number it holds; the truth value of any other array is a
    [ValueError]. *)
Definition as_number (v : value) : outcome R :=
  match v with
  | Scalar x => Ok x
  | View [x] => Ok x
  | View _ => Raise ValueError
  end.

(** [x / y] on Python floats. *)
Definition truediv (x y : R) : outcome R :=
  if Req_dec_T y 0 then Raise ZeroDivisionError else Ok (x / y).

(** [a.index(x)]: the first position holding [x]. *)
Fixpoint list_index (x : R) (a : list R) : outcome nat :=
  match a with
  | [] => Raise ValueError
  | y :: a' => if Req_dec_T y x then Ok 0%nat else S <$> list_index x a'
  end.

(** ** numpy *)

(** [linspace(start, stop, num)]: [num] evenly spaced samples, both ends
    included. *)
Definition linspace (start stop : R) (num : nat) : list R :=
  (λ i : nat, start + INR i * ((stop - start) / INR (num - 1))) <$> seq 0 num.

(** [m[:,k]] on a two-dimensional array kept as its list of rows. *)
Fixpoint column (k : nat) (m : list (list R)) : outcome (list R) :=
  match m with
  | [] => Ok []
  | row :: m' => x ← getitem row k; xs ← column k m'; Ok (x :: xs)
  end.

(** ** Right-hand sides *)

(** The type of a right-hand side [rhs(v, t, p)]. *)
Definition rhs_fun : Type := list R → R → list R → outcome (list R).

Definition dp_rhs : rhs_fun := λ v t p,
  match v, p with
  | [p1; w1; p2; w2], [m1; m2; l1; l2; g] =>
      let w1_dot :=
        (-(m1+m2)*g*sin(p1) - m2*l2*w2*w2*sin(p1-p2)
         - m2*cos(p1-p2)*l1*w1*w1*sin(p1-p2) + m2*g*cos(p1-p2)*sin(p2))
        / ((m1+m2)*l1 - m2*l1*(cos(p1-p2)*cos(p1-p2))) in
      let w2_dot :=
        (l1*w1*w1*2*sin(p1-p2) - g*sin(p2) - l1*w1_dot*cos(p1-p2)) / l2 in
      Ok [w1; w1_dot; w2; w2_dot]
  | _, _ => Raise ValueError
  end.

Definition sa_dp_rhs : rhs_fun := λ v t p,
  match v, p with
  | [p1; w1; p2; w2], [m1; m2; l1; l2; g] =>
      w1_dot ← truediv ((g*l1)*(m2*p2-(m1+m2)*p1)) (m1*l1*l1);
      w2_dot ← truediv (-(g*p2+l1*w1_dot)) l2;
      Ok [w1; w1_dot; w2; w2_dot]
  | _, _ => Raise ValueError
  end.

(** ** The crossing locator *)

Definition find_vertical (l1 l2 : R) (p1 p2 : list R) : outcome (option nat) :=
  '(closest, closest_index) ←
    for_loop (M := outcome) (seq 0 (length p1))
      (λ i '(closest, closest_index),
         a ← getitem p1 i;
         b ← getitem p2 i;
         let x := Rabs (l1 * sin a + l2 * sin b) in
         if Rlt_dec x closest then Ok (x, Some i)
         else Ok (closest, closest_index))
      (999, None);
  Ok closest_index.

(** ** Module-level names read by the drivers *)

Module Nb.
Record t : Type := {
  p : ref;                (* p = [m1, m2, l1, l2, g], a shared list *)
  IC : list R;            (* IC = [p1, 0, p2, 0] *)
  t_interval : list R;    (* t_interval = linspace(0, t_end, N) *)
  abserr : R;
  relerr : R;
  l1 : R;
  l2 : R;
  w1 : R;
  w2 : R
}.
End Nb.

(** ** The sweep drivers *)

(** The lists [p_w_plot] builds and hands to the plotting calls. *)
Record pw_lists : Type := {
  p1_err_list : list R;
  p2_err_list : list R;
  w2_err_list : list R;
  p1_list : list R;
  p2_list : list R;
  w2_list : list R;
  max_p2_list : list R;
  max_w2_list : list R;
  min_p2_list : list R;
  min_w2_list : list R
}.

Definition pw_empty : pw_lists :=
  {| p1_err_list := []; p2_err_list := []; w2_err_list := [];
     p1_list := []; p2_list := []; w2_list := [];
     max_p2_list := []; max_w2_list := [];
     min_p2_list := []; min_w2_list := [] |}.

(** The appends of one pass through the inner loop's body. *)
Definition pw_append_point (level : bool) (p1 p2 w : R) (L : pw_lists)
    : pw_lists :=
  {| p1_err_list := if level then p1_err_list L ++ [p1] else p1_err_list L;
     p2_err_list := if level then p2_err_list L ++ [p2] else p2_err_list L;
     w2_err_list := if level then w2_err_list L ++ [w] else w2_err_list L;
     p1_list := p1_list L ++ [p1];
     p2_list := p2_list L ++ [p2];
     w2_list := w2_list L ++ [w];
     max_p2_list := max_p2_list L; max_w2_list := max_w2_list L;
     min_p2_list := min_p2_list L; min_w2_list := min_w2_list L |}.

(** The four appends that close a row. *)
Definition pw_append_row (max_p2 max_w2 min_p2 min_w2 : R) (L : pw_lists)
    : pw_lists :=
  {| p1_err_list := p1_err_list L; p2_err_list := p2_err_list L;
     w2_err_list := w2_err_list L;
     p1_list := p1_list L; p2_list := p2_list L; w2_list := w2_list L;
     max_p2_list := max_p2_list L ++ [max_p2];
     max_w2_list := max_w2_list L ++ [max_w2];
     min_p2_list := min_p2_list L ++ [min_p2];
     min_w2_list := min_w2_list L ++ [min_w2] |}.

Section Drivers.

(** [odeint(rhs, y0, t, args=(p,), atol=..., rtol=...)]. *)
Variable odeint :
  rhs_fun → list R → list R → list R → R → R → outcome (list (list R)).

(** In [p_w_plot] the value [w2_at_vertical = -w2_arr[t_index]] is tested
    ([if w2_at_vertical > max_w2_for_current_p1:]) before anything is
    appended; [as_number] is that first test. *)
Definition p_w_plot (rhs : rhs_fun) (w_val : R) (show_level_curve : bool)
    (iter_n : nat) (w_err angle_start angle_end : R) (G : Nb.t)
    : py pw_lists :=
  let iter_p1 := linspace angle_start angle_end iter_n in
  let iter_p2 := linspace angle_start angle_end iter_n in
  for_loop (M := py) iter_p1
    (λ p1 L,
       '(L, max_w2_for_current_p1, min_w2_for_current_p1) ←
         for_loop (M := py) iter_p2
           (λ p2 '(L, max_w2_for_current_p1, min_w2_for_current_p1),
              let ic := [p1; Nb.w1 G; p2; Nb.w2 G] in
              args ← list_read (Nb.p G);
              v_sol ← lift (odeint rhs ic (Nb.t_interval G) args
                              (Nb.abserr G) (Nb.relerr G));
              p1_arr ← lift (column 0 v_sol);
              p2_arr ← lift (column 2 v_sol);
              w2_arr ← lift (column 3 v_sol);
              t_index ← lift (find_vertical (Nb.l1 G) (Nb.l2 G) p1_arr p2_arr);
              x ← lift (getitem_opt w2_arr t_index);
              w2_at_vertical ← lift (as_number (neg x));
              let max_w2_for_current_p1 :=
                if Rgt_dec w2_at_vertical max_w2_for_current_p1
                then w2_at_vertical else max_w2_for_current_p1 in
              let min_w2_for_current_p1 :=
                if Rlt_dec w2_at_vertical min_w2_for_current_p1
                then w2_at_vertical else min_w2_for_current_p1 in
              let level :=
                if show_level_curve
                then (if Rlt_dec (Rabs (w_val - w2_at_vertical)) w_err
                      then true else false)
                else false in
              mret (pw_append_point level p1 p2 w2_at_vertical L,
                    max_w2_for_current_p1, min_w2_for_current_p1))
           (L, 0, 9999);
       i_max ← lift (list_index max_w2_for_current_p1 (w2_list L));
       max_p2 ← lift (getitem (p2_list L) i_max);
       i_min ← lift (list_index min_w2_for_current_p1 (w2_list L));
       min_p2 ← lift (getitem (p2_list L) i_min);
       mret (pw_append_row max_p2 max_w2_for_current_p1
               min_p2 min_w2_for_current_p1 L))
    pw_empty.

Definition length_plot (rhs : rhs_fun) (plot_l1 : bool) (n : nat)
    (l_max : R) (G : Nb.t) : py (list R * list value) :=
  let l_arr := linspace (1/4) l_max n in
  p_l ← list_copy (Nb.p G);
  w2_list ←
    for_loop (M := py) l_arr
      (λ l w2_list,
         (if plot_l1 then list_setitem p_l 2 l else list_setitem p_l 3 l);;
         args ← list_read p_l;
         v_sol ← lift (odeint rhs (Nb.IC G) (Nb.t_interval G) args
                         (Nb.abserr G) (Nb.relerr G));
         p1_arr ← lift (column 0 v_sol);
         p2_arr ← lift (column 2 v_sol);
         w2_arr ← lift (column 3 v_sol);
         t_index ← lift (if plot_l1
                         then find_vertical l (Nb.l2 G) p1_arr p2_arr
                         else find_vertical (Nb.l1 G) l p1_arr p2_arr);
         x ← lift (getitem_opt w2_arr t_index);
         mret (w2_list ++ [neg x]))
      [];
  mret (l_arr, w2_list).

Definition mass_plot (rhs : rhs_fun) (plot_m1 : bool) (n : nat)
    (m_max : R) (G : Nb.t) : py (list R * list value) :=
  let m_arr := linspace (1/4) m_max n in
  p_m ← list_copy (Nb.p G);
  w2_list ←
    for_loop (M := py) m_arr
      (λ m w2_list,
         (if plot_m1 then list_setitem p_m 0 m else list_setitem p_m 1 m);;
         args ← list_read p_m;
         v_sol ← lift (odeint rhs (Nb.IC G) (Nb.t_interval G) args
                         (Nb.abserr G) (Nb.relerr G));
         p1_arr ← lift (column 0 v_sol);
         p2_arr ← lift (column 2 v_sol);
         w2_arr ← lift (column 3 v_sol);
         t_index ← lift (find_vertical (Nb.l1 G) (Nb.l2 G) p1_arr p2_arr);
         x ← lift (getitem_opt w2_arr t_index);
         mret (w2_list ++ [neg x]))
      [];
  mret (m_arr, w2_list).

End Drivers.

(** ** Specification-side notions *)

(** The deviation of the second mass from the vertical through the pivot. *)
Definition deviation (l1 l2 a b : R) : R := Rabs (l1 * sin a + l2 * sin b).

(** The deviation at sample [i] of two angle series. *)
Definition dev_at (l1 l2 : R) (p1 p2 : list R) (i : nat) : R :=
  deviation l1 l2 (nth i p1 0) (nth i p2 0).

(** What the scan of [find_vertical] knows after the first [k] samples. *)
Definition scan_inv (l1 l2 : R) (p1 p2 : list R) (k : nat)
    (st : R * option nat) : Prop :=
  match st.2 with
  | None => st.1 = 999 ∧ ∀ i, (i < k)%nat → 999 <= dev_at l1 l2 p1 p2 i
  | Some j =>
      (j < k)%nat ∧ st.1 = dev_at l1 l2 p1 p2 j ∧ st.1 < 999 ∧
      (∀ i, (i < k)%nat → st.1 <= dev_at l1 l2 p1 p2 i) ∧
      (∀ i, (i < j)%nat → st.1 < dev_at l1 l2 p1 p2 i)
  end.

(** The derivatives of the standard double-pendulum equations, as the
    specification writes them. *)
Definition dp_rhs_standard : rhs_fun := λ v t p,
  match v, p with
  | [phi1; omega1; phi2; omega2], [m1; m2; l1; l2; g] =>
      let omega1_dot :=
        (-(m1+m2)*g*sin phi1 - m2*l2*omega2^2*sin (phi1-phi2)
         - m2*cos (phi1-phi2)*l1*omega1^2*sin (phi1-phi2)
         + m2*g*cos (phi1-phi2)*sin phi2)
        / ((m1+m2)*l1 - m2*l1*(cos (phi1-phi2))^2) in
      let omega2_dot :=
        (l1*omega1^2*sin (phi1-phi2) - g*sin phi2
         - l1*omega1_dot*cos (phi1-phi2)) / l2 in
      Ok [omega1; omega1_dot; omega2; omega2_dot]
  | _, _ => Raise ValueError
  end.

(** [xs] mapped through [f] from left to right, ending at the first
    exception. *)
Fixpoint traverse {A B : Type} (f : A → outcome B) (xs : list A)
    : outcome (list B) :=
  match xs with
  | [] => Ok []
  | x :: xs' => y ← f x; ys ← traverse f xs'; Ok (y :: ys)
  end.

(** The value bound to a name, if any. *)
Definition read_value (o : option (list R)) : outcome (list R) :=
  match o with
  | Some v => Ok v
  | None => Raise NameError
  end.

(** [a[i] = x] on the contents of a list. *)
Definition setitem_value (a : list R) (i : nat) (x : R) : outcome (list R) :=
  if decide (i < length a)%nat then Ok (<[i := x]> a) else Raise IndexError.

(** What a one-dimensional sweep appends for one trajectory:
    [-w2_arr[t_index]], with [t_index] the answer of [find_vertical] for
    rods [la], [lb]. *)
Definition crossing_value (la lb : R) (v_sol : list (list R))
    : outcome value :=
  p1_arr ← column 0 v_sol;
  p2_arr ← column 2 v_sol;
  w2_arr ← column 3 v_sol;
  t_index ← find_vertical la lb p1_arr p2_arr;
  x ← getitem_opt w2_arr t_index;
  Ok (neg x).

(** The observable of one trajectory in [p_w_plot]: the same value, as the
    number the tests that follow see. *)
Definition crossing_observable (la lb : R) (v_sol : list (list R))
    : outcome R :=
  crossing_value la lb v_sol ≫= as_number.

(** [v] is what [-w2_arr[t_index]] gives on the trajectory [v_sol]: the
    sign-negated [omega2] component at the crossing index when
    [find_vertical] returns one, and the sign-negated [omega2] series as a
    one-row array when it returns [None]. *)
Definition swing_back (la lb : R) (v_sol : list (list R)) (v : value)
    : Prop :=
  ∃ (p1_arr p2_arr w2_arr : list R) (t_index : option nat),
    column 0 v_sol = Ok p1_arr ∧ column 2 v_sol = Ok p2_arr ∧
    column 3 v_sol = Ok w2_arr ∧
    find_vertical la lb p1_arr p2_arr = Ok t_index ∧
    match t_index with
    | Some i => ∃ x, w2_arr !! i = Some x ∧ v = Scalar (- x)
    | None => v = View (Ropp <$> w2_arr)
    end.

Section GridPoints.

Variable odeint :
  rhs_fun → list R → list R → list R → R → R → outcome (list (list R)).
Variables (rhs : rhs_fun) (G : Nb.t).

(** One grid point of [length_plot], on the contents [base] of [p]. *)
Definition length_point (plot_l1 : bool) (base : list R) (l : R)
    : outcome value :=
  args ← setitem_value base (if plot_l1 then 2 else 3)%nat l;
  v_sol ← odeint rhs (Nb.IC G) (Nb.t_interval G) args
            (Nb.abserr G) (Nb.relerr G);
  if plot_l1 then crossing_value l (Nb.l2 G) v_sol
  else crossing_value (Nb.l1 G) l v_sol.

(** One grid point of [mass_plot]. *)
Definition mass_point (plot_m1 : bool) (base : list R) (m : R)
    : outcome value :=
  args ← setitem_value base (if plot_m1 then 0 else 1)%nat m;
  v_sol ← odeint rhs (Nb.IC G) (Nb.t_interval G) args
            (Nb.abserr G) (Nb.relerr G);
  crossing_value (Nb.l1 G) (Nb.l2 G) v_sol.

(** One grid point of [p_w_plot]; [ob] is what the name [p] is bound to. *)
Definition angle_point (ob : option (list R)) (p1 p2 : R) : outcome R :=
  args ← read_value ob;
  v_sol ← odeint rhs [p1; Nb.w1 G; p2; Nb.w2 G] (Nb.t_interval G) args
            (Nb.abserr G) (Nb.relerr G);
  crossing_observable (Nb.l1 G) (Nb.l2 G) v_sol.

(** The value [w] was obtained at the length [l]. *)
Definition length_observed (plot_l1 : bool) (base : list R) (l : R)
    (w : value) : Prop :=
  ∃ args v_sol,
    setitem_value base (if plot_l1 then 2 else 3)%nat l = Ok args ∧
    odeint rhs (Nb.IC G) (Nb.t_interval G) args (Nb.abserr G) (Nb.relerr G)
      = Ok v_sol ∧
    swing_back (if plot_l1 then l else Nb.l1 G)
               (if plot_l1 then Nb.l2 G else l) v_sol w.

(** The value [w] was obtained at the mass [m]. *)
Definition mass_observed (plot_m1 : bool) (base : list R) (m : R)
    (w : value) : Prop :=
  ∃ args v_sol,
    setitem_value base (if plot_m1 then 0 else 1)%nat m = Ok args ∧
    odeint rhs (Nb.IC G) (Nb.t_interval G) args (Nb.abserr G) (Nb.relerr G)
      = Ok v_sol ∧
    swing_back (Nb.l1 G) (Nb.l2 G) v_sol w.

(** The observable [w] was obtained at the angles [p1], [p2]. *)
Definition angle_observed (base : list R) (p1 p2 w : R) : Prop :=
  ∃ v_sol v,
    odeint rhs [p1; Nb.w1 G; p2; Nb.w2 G] (Nb.t_interval G) base
      (Nb.abserr G) (Nb.relerr G) = Ok v_sol ∧
    swing_back (Nb.l1 G) (Nb.l2 G) v_sol v ∧ as_number v = Ok w.

End GridPoints.

(** The loops of [p_w_plot] over an observable [obs p1 p2] that does not
    touch the store. *)
Definition pw_inner (obs : R → R → outcome R) (w_val : R)
    (show_level_curve : bool) (w_err : R) (p1 : R)
    : R → pw_lists * R * R → outcome (pw_lists * R * R) :=
  λ p2 '(L, max_w2_for_current_p1, min_w2_for_current_p1),
    w2_at_vertical ← obs p1 p2;
    Ok (pw_append_point
          (if show_level_curve
           then (if Rlt_dec (Rabs (w_val - w2_at_vertical)) w_err
                 then true else false)
           else false) p1 p2 w2_at_vertical L,
        if Rgt_dec w2_at_vertical max_w2_for_current_p1
        then w2_at_vertical else max_w2_for_current_p1,
        if Rlt_dec w2_at_vertical min_w2_for_current_p1
        then w2_at_vertical else min_w2_for_current_p1).

Definition pw_outer (obs : R → R → outcome R) (w_val : R)
    (show_level_curve : bool) (w_err : R) (iter_p2 : list R)
    : R → pw_lists → outcome pw_lists :=
  λ p1 L,
    '(L, max_w2_for_current_p1, min_w2_for_current_p1) ←
      for_loop iter_p2 (pw_inner obs w_val show_level_curve w_err p1)
        (L, 0, 9999);
    i_max ← list_index max_w2_for_current_p1 (w2_list L);
    max_p2 ← getitem (p2_list L) i_max;
    i_min ← list_index min_w2_for_current_p1 (w2_list L);
    min_p2 ← getitem (p2_list L) i_min;
    Ok (pw_append_row max_p2 max_w2_for_current_p1
          min_p2 min_w2_for_current_p1 L).

Definition p_w_sweep (obs : R → R → outcome R) (w_val : R)
    (show_level_curve : bool) (w_err : R) (iter_p1 iter_p2 : list R)
    : outcome pw_lists :=
  for_loop iter_p1 (pw_outer obs w_val show_level_curve w_err iter_p2)
    pw_empty.

(** The running maximum and minimum kept by the inner loop of [p_w_plot],
    started at [m]. *)
Definition running_max (m : R) (ws : list R) : R :=
  fold_left (λ m w, if Rgt_dec w m then w else m) ws m.

Definition running_min (m : R) (ws : list R) : R :=
  fold_left (λ m w, if Rlt_dec w m then w else m) ws m.

(** The level-curve test of [p_w_plot]. *)
Definition level_of (w_val : R) (show_level_curve : bool) (w_err : R)
    (w : R) : bool :=
  if show_level_curve
  then (if Rlt_dec (Rabs (w_val - w)) w_err then true else false)
  else false.

(** The appends of one row: the points [(p1, p2)] for [p2] in [ps], with
    their observables [ws]. *)
Fixpoint pw_append_points (level : R → bool) (p1 : R) (ps ws : list R)
    (L : pw_lists) : pw_lists :=
  match ps, ws with
  | p2 :: ps', w :: ws' =>
      pw_append_points level p1 ps' ws' (pw_append_point (level w) p1 p2 w L)
  | _, _ => L
  end.

(** The grid of a two-dimensional sweep in the order it is visited. *)
Definition grid_rows (iter_p1 iter_p2 : list R) : list (R * R) :=
  flat_map (λ p1, (λ p2, (p1, p2)) <$> iter_p2) iter_p1.

(** [odeint] on a time grid of one sample: the trajectory is the row [y0]
    (scipy: the result has one row per time point, "with the initial value
    y0 in the first row"). *)
Definition returns_initial_row
    (odeint : rhs_fun → list R → list R → list R → R → R
              → outcome (list (list R))) : Prop :=
  ∀ rhs y0 t0 p atol rtol, odeint rhs y0 [t0] p atol rtol = Ok [y0].

(** An integrator that holds the initial value at every sample time; it
    instantiates the statements that are made for every [odeint]. *)
Definition odeint_hold
    : rhs_fun → list R → list R → list R → R → R → outcome (list (list R)) :=
  λ rhs y0 t p atol rtol, Ok ((λ _, y0) <$> t).

(** An integrator that rejects parameter vectors whose first mass or first
    length is 5 or more, and holds the initial state otherwise. *)
Definition odeint_below_5
    : rhs_fun → list R → list R → list R → R → R → outcome (list (list R)) :=
  λ rhs y0 t p atol rtol,
    match p with
    | [m1; m2; l1; l2; g] =>
        if Rlt_dec m1 5
        then (if Rlt_dec l1 5 then Ok ((λ _, y0) <$> t)
              else Raise ValueError)
        else Raise ValueError
    | _ => Raise ValueError
    end.

(** The module-level values the notebook sets, [p] being the object 0 of
    [notebook_store]. *)
Definition notebook_env : Nb.t :=
  {| Nb.p := 0%nat;
     Nb.IC := [PI/4; 0; PI/4; 0];
     Nb.t_interval := linspace 0 (PI/2) 100;
     Nb.abserr := 1 / 10^8;
     Nb.relerr := 1 / 10^6;
     Nb.l1 := 1; Nb.l2 := 1;
     Nb.w1 := 0; Nb.w2 := 0 |}.

Definition notebook_store : store := {[ 0%nat := [1; 1; 1; 1; 98/10] ]}.

(** The notebook's values with a time grid of the single sample 0 ([N = 1])
    and the initial velocity [w2] of the second mass set to [w]. *)
Definition single_sample_env (w : R) : Nb.t :=
  {| Nb.p := 0%nat;
     Nb.IC := [PI/4; 0; PI/4; w];
     Nb.t_interval := [0];
     Nb.abserr := 1 / 10^8;
     Nb.relerr := 1 / 10^6;
     Nb.l1 := 1; Nb.l2 := 1;
     Nb.w1 := 0; Nb.w2 := w |}.

(** ** The small-angle substitution, on the text of [dp_rhs] *)

Module Sym.

(** The names the two acceleration formulas of [dp_rhs] mention; [W1dot] is
    the local [w1_dot] as [w2_dot] uses it. *)
Inductive var : Set :=
| P1 | W1 | P2 | W2 | M1 | M2 | L1 | L2 | Gr | W1dot.

(** Arithmetic expressions over these names. *)
Inductive term : Set :=
| Var (x : var)
| Num (z : Z)
| Neg (a : term)
| Add (a b : term)
| Sub (a b : term)
| Mul (a b : term)
| Div (a b : term)
| Sin (a : term)
| Cos (a : term).

Declare Scope term_scope.
Delimit Scope term_scope with term.
Bind Scope term_scope with term.
Notation "- a" := (Neg a) : term_scope.
Infix "+" := Add : term_scope.
Infix "-" := Sub : term_scope.
Infix "*" := Mul : term_scope.
Infix "/" := Div : term_scope.

(** The right-hand sides of [w1_dot = ...] and [w2_dot = ...] in [dp_rhs],
    symbol by symbol. *)
Definition w1_dot_term : term :=
  let p1 := Var P1 in let w1 := Var W1 in
  let p2 := Var P2 in let w2 := Var W2 in
  let m1 := Var M1 in let m2 := Var M2 in
  let l1 := Var L1 in let l2 := Var L2 in let g := Var Gr in
  ((-(m1+m2)*g*Sin(p1) - m2*l2*w2*w2*Sin(p1-p2)
    - m2*Cos(p1-p2)*l1*w1*w1*Sin(p1-p2) + m2*g*Cos(p1-p2)*Sin(p2))
   / ((m1+m2)*l1 - m2*l1*(Cos(p1-p2)*Cos(p1-p2))))%term.

Definition w2_dot_term : term :=
  let p1 := Var P1 in let w1 := Var W1 in
  let p2 := Var P2 in
  let l1 := Var L1 in let l2 := Var L2 in let g := Var Gr in
  let w1_dot := Var W1dot in
  ((l1*w1*w1*Num 2*Sin(p1-p2) - g*Sin(p2) - l1*w1_dot*Cos(p1-p2)) / l2)%term.

(** The value of an expression. *)
Fixpoint denote (env : var → R) (a : term) : R :=
  match a with
  | Var x => env x
  | Num z => IZR z
  | Neg a => - denote env a
  | Add a b => denote env a + denote env b
  | Sub a b => denote env a - denote env b
  | Mul a b => denote env a * denote env b
  | Div a b => denote env a / denote env b
  | Sin a => sin (denote env a)
  | Cos a => cos (denote env a)
  end.

(** [sin(x)] replaced by [x] and [cos(x)] by 1. *)
Fixpoint small_angle (a : term) : term :=
  match a with
  | Var x => Var x
  | Num z => Num z
  | Neg a => Neg (small_angle a)
  | Add a b => Add (small_angle a) (small_angle b)
  | Sub a b => Sub (small_angle a) (small_angle b)
  | Mul a b => Mul (small_angle a) (small_angle b)
  | Div a b => Div (small_angle a) (small_angle b)
  | Sin a => small_angle a
  | Cos a => Num 1
  end.

(** The degree of an expression in the velocities [w1], [w2]. *)
Fixpoint velocity_degree (a : term) : nat :=
  match a with
  | Var W1 | Var W2 => 1
  | Var _ | Num _ => 0
  | Neg a | Sin a | Cos a => velocity_degree a
  | Add a b | Sub a b => Nat.max (velocity_degree a) (velocity_degree b)
  | Mul a b | Div a b => velocity_degree a + velocity_degree b
  end.

(** The terms of a sum that are quadratic (or of higher degree) in the
    velocities dropped. *)
Fixpoint drop_quadratic (a : term) : term :=
  match a with
  | Neg a => Neg (drop_quadratic a)
  | Add a b => Add (drop_quadratic a) (drop_quadratic b)
  | Sub a b => Sub (drop_quadratic a) (drop_quadratic b)
  | Div a b => Div (drop_quadratic a) b
  | _ => if decide (2 <= velocity_degree a)%nat then Num 0 else a
  end.

Definition linearize (a : term) : term := drop_quadratic (small_angle a).

(** The values of the names at a state and a parameter vector. *)
Definition env_of (p1 w1 p2 w2 m1 m2 l1 l2 g w1_dot : R) (x : var) : R :=
  match x with
  | P1 => p1 | W1 => w1 | P2 => p2 | W2 => w2
  | M1 => m1 | M2 => m2 | L1 => l1 | L2 => l2 | Gr => g
  | W1dot => w1_dot
  end.

End Sym.

(** [dp_rhs] with [sin(x)] replaced by [x], [cos(x)] by 1, and the terms
    quadratic in the velocities dropped, as the specification derives the
    small-angle equations. *)
Definition dp_rhs_small_angle : rhs_fun := λ v t p,
  match v, p with
  | [p1; w1; p2; w2], [m1; m2; l1; l2; g] =>
      let w1_dot :=
        Sym.denote (Sym.env_of p1 w1 p2 w2 m1 m2 l1 l2 g 0)
          (Sym.linearize Sym.w1_dot_term) in
      let w2_dot :=
        Sym.denote (Sym.env_of p1 w1 p2 w2 m1 m2 l1 l2 g w1_dot)
          (Sym.linearize Sym.w2_dot_term) in
      Ok [w1; w1_dot; w2; w2_dot]
  | _, _ => Raise ValueError
  end.

(** Component [i] of a returned derivative vector. *)
Definition component (i : nat) (o : outcome (list R)) : R :=
  match o with
  | Ok v => nth i v 0
  | Raise _ => 0
  end.

(** The state [v] scaled by [s]. *)
Definition scale (s : R) (v : list R) : list R := Rmult s <$> v.

(** An observable given by a table on the grid {0, 1} x {0, 1}: 5 on the
    diagonal, 1 above it and 2 below it. *)
Definition table_obs : R → R → outcome R := λ p1 p2,
  Ok (if Req_dec_T p1 p2 then 5 else if Rlt_dec p1 p2 then 1 else 2).

(** ** The composite drivers *)

Section Composites.

Variable odeint :
  rhs_fun → list R → list R → list R → R → R → outcome (list (list R)).

(** [plot_all_length]: the sweep over [l2], then the sweep over [l1], both
    drawn into the current figure; it returns the two results in the order
    they are computed. *)
Definition plot_all_length (rhs : rhs_fun) (n : nat) (l_max : R) (G : Nb.t)
    : py ((list R * list value) * (list R * list value)) :=
  over_l2 ← length_plot odeint rhs false n l_max G;
  over_l1 ← length_plot odeint rhs true n l_max G;
  mret (over_l2, over_l1).

(** [plot_all_mass]: the sweep over [m2], then the sweep over [m1]. *)
Definition plot_all_mass (rhs : rhs_fun) (n : nat) (m_max : R) (G : Nb.t)
    : py ((list R * list value) * (list R * list value)) :=
  over_m2 ← mass_plot odeint rhs false n m_max G;
  over_m1 ← mass_plot odeint rhs true n m_max G;
  mret (over_m2, over_m1).

(** [plot_all_p_w]: the surface plot, then the level-curve plot, each with
    the default [w_err = 0.05] of [p_w_plot]. *)
Definition plot_all_p_w (rhs : rhs_fun) (w_val : R) (iter_n : nat)
    (angle_start angle_end : R) (G : Nb.t) : py (pw_lists * pw_lists) :=
  surface ← p_w_plot odeint rhs w_val false iter_n (5/100)
              angle_start angle_end G;
  level ← p_w_plot odeint rhs w_val true iter_n (5/100)
            angle_start angle_end G;
  mret (surface, level).

End Composites.

(** ** Notions for the further properties *)

(** [p2s[ws.index(x)]], the look-up that closes a row of [p_w_plot]. *)
Definition lookup_by_value (p2s ws : list R) (x : R) : outcome R :=
  i ← list_index x ws; getitem p2s i.

(** The seven lists of [p_w_plot] that the level-curve options do not
    enter. *)
Definition same_surface (L L' : pw_lists) : Prop :=
  p1_list L = p1_list L' ∧ p2_list L = p2_list L' ∧
  w2_list L = w2_list L' ∧
  max_p2_list L = max_p2_list L' ∧ max_w2_list L = max_w2_list L' ∧
  min_p2_list L = min_p2_list L' ∧ min_w2_list L = min_w2_list L'.

(** The energy of the small-angle system: the quadratic part, at the rest
    position, of the double pendulum's kinetic plus potential energy. *)
Definition sa_energy (m1 m2 l1 l2 g p1 w1 p2 w2 : R) : R :=
  (m1 + m2) * l1 * l1 * (w1 * w1) / 2 + m2 * l2 * l2 * (w2 * w2) / 2
  + m2 * l1 * l2 * (w1 * w2)
  + (m1 + m2) * g * l1 * (p1 * p1) / 2 + m2 * g * l2 * (p2 * p2) / 2.

(** The level-curve lists hold, in order, the points of the three flat
    lists whose observable passes the test [lv]. *)
Definition level_selected (lv : R → bool) (L : pw_lists) : Prop :=
  length (p1_list L) = length (w2_list L) ∧
  length (p2_list L) = length (w2_list L) ∧
  w2_err_list L = List.filter lv (w2_list L) ∧
  p1_err_list L
    = (fst <$> List.filter (λ pw, lv pw.2) (zip (p1_list L) (w2_list L))) ∧
  p2_err_list L
    = (fst <$> List.filter (λ pw, lv pw.2) (zip (p2_list L) (w2_list L))).

(** The energy of the double pendulum: kinetic plus potential. *)
Definition dp_energy (m1 m2 l1 l2 g p1 w1 p2 w2 : R) : R :=
  (m1 + m2) * l1 * l1 * (w1 * w1) / 2 + m2 * l2 * l2 * (w2 * w2) / 2
  + m2 * l1 * l2 * (w1 * w2) * cos (p1 - p2)
  - (m1 + m2) * g * l1 * cos p1 - m2 * g * l2 * cos p2.

(** The two-dimensional sweep over the single angle [pi/15], with
    [w2 = -1]: one point, whose observable 1 is the row's maximum and
    minimum. *)
Definition single_point_lists : pw_lists :=
  {| p1_err_list := []; p2_err_list := []; w2_err_list := [];
     p1_list := [PI/15]; p2_list := [PI/15]; w2_list := [- - 1];
     max_p2_list := [PI/15]; max_w2_list := [- - 1];
     min_p2_list := [PI/15]; min_w2_list := [- - 1] |}.

(** * Facts *)

(** ** Loops and outcomes *)

Lemma for_loop_app_outcome {X S : Type} (xs ys : list X)
    (body : X → S → outcome S) (s : S) :
  for_loop (xs ++ ys) body s = s' ← for_loop xs body s; for_loop ys body s'.
Proof.
  revert s. induction xs as [|x xs IH]; intros s; simpl; [done|].
  destruct (body x s) as [s'|e]; simpl; [apply IH|done].
Qed.

Lemma getitem_nth (a : list R) (i : nat) :
  (i < length a)%nat → getitem a i = Ok (nth i a 0).
Proof.
  intros Hi. unfold getitem.
  destruct (lookup_lt_is_Some_2 a i Hi) as [x Hx].
  rewrite Hx. f_equal. symmetry. by apply nth_lookup_Some.
Qed.

Lemma getitem_ge (a : list R) (i : nat) :
  (length a <= i)%nat → getitem a i = Raise IndexError.
Proof. intros Hi. unfold getitem. by rewrite lookup_ge_None_2. Qed.

Lemma getitem_take (a : list R) (n i : nat) :
  (i < n)%nat → getitem (take n a) i = getitem a i.
Proof. intros Hi. unfold getitem. by rewrite lookup_take_lt. Qed.

(** ** The crossing locator *)

Section FindVertical.
Variables (l1 l2 : R) (p1 p2 : list R).

(** The body of the scan, as [find_vertical] runs it. *)
Let body : nat → R * option nat → outcome (R * option nat) :=
  λ i '(closest, closest_index),
    a ← getitem p1 i;
    b ← getitem p2 i;
    let x := Rabs (l1 * sin a + l2 * sin b) in
    if Rlt_dec x closest then Ok (x, Some i)
    else Ok (closest, closest_index).

Lemma scan_step (k : nat) (st : R * option nat) :
  (k < length p1)%nat → (k < length p2)%nat →
  scan_inv l1 l2 p1 p2 k st →
  ∃ st', body k st = Ok st' ∧ scan_inv l1 l2 p1 p2 (S k) st'.
Proof.
  intros H1 H2 Hinv. destruct st as [c idx]. unfold body.
  rewrite (getitem_nth p1 k H1), (getitem_nth p2 k H2). simpl.
  fold (deviation l1 l2 (nth k p1 0) (nth k p2 0)).
  fold (dev_at l1 l2 p1 p2 k).
  destruct (Rlt_dec (dev_at l1 l2 p1 p2 k) c) as [Hlt|Hge].
  - eexists; split; [done|]. unfold scan_inv in *; simpl in *.
    split; [lia|]. split; [done|].
    destruct idx as [j|].
    + destruct Hinv as (Hj & Hc & Hc9 & Hall & Hbefore).
      split; [lra|]. split.
      * intros i Hi. destruct (decide (i = k)) as [->|Hne]; [lra|].
        specialize (Hall i ltac:(lia)). lra.
      * intros i Hi. specialize (Hall i Hi). lra.
    + destruct Hinv as (-> & Hall).
      split; [lra|]. split.
      * intros i Hi. destruct (decide (i = k)) as [->|Hne]; [lra|].
        specialize (Hall i ltac:(lia)). lra.
      * intros i Hi. specialize (Hall i Hi). lra.
  - eexists; split; [done|]. unfold scan_inv in *; simpl in *.
    destruct idx as [j|].
    + destruct Hinv as (Hj & Hc & Hc9 & Hall & Hbefore).
      split; [lia|]. split; [done|]. split; [done|]. split; [|done].
      intros i Hi. destruct (decide (i = k)) as [->|Hne]; [lra|].
      apply Hall. lia.
    + destruct Hinv as (-> & Hall). split; [done|].
      intros i Hi. destruct (decide (i = k)) as [->|Hne]; [lra|].
      apply Hall. lia.
Qed.

Lemma scan_prefix (k : nat) :
  (k <= length p1)%nat → (length p1 <= length p2)%nat →
  ∃ st, for_loop (seq 0 k) body (999, None) = Ok st
        ∧ scan_inv l1 l2 p1 p2 k st.
Proof.
  intros Hk Hlen. induction k as [|k IH].
  - exists (999, None). split; [done|]. split; [done|]. intros i Hi. lia.
  - destruct IH as (st & Hrun & Hinv); [lia|].
    destruct (scan_step k st) as (st' & Hstep & Hinv'); [lia|lia|done|].
    exists st'. split; [|done].
    rewrite seq_S, for_loop_app_outcome, Hrun. simpl. by rewrite Hstep.
Qed.

Lemma find_vertical_scan :
  (length p1 <= length p2)%nat →
  ∃ st, find_vertical l1 l2 p1 p2 = Ok st.2
        ∧ scan_inv l1 l2 p1 p2 (length p1) st.
Proof.
  intros Hlen. destruct (scan_prefix (length p1)) as (st & Hrun & Hinv);
    [lia|done|].
  exists st. split; [|done]. unfold find_vertical.
  change (for_loop (seq 0 (length p1)) _ (999, None))
    with (for_loop (seq 0 (length p1)) body (999, None)).
  rewrite Hrun. by destruct st.
Qed.

End FindVertical.

Lemma deviation_bound (l1 l2 a b : R) :
  deviation l1 l2 a b <= Rabs l1 + Rabs l2.
Proof.
  unfold deviation.
  eapply Rle_trans; [apply Rabs_triang|].
  rewrite !Rabs_mult.
  pose proof (Rabs_pos l1). pose proof (Rabs_pos l2).
  assert (Rabs (sin a) <= 1) by (apply Rabs_le; pose proof (SIN_bound a); lra).
  assert (Rabs (sin b) <= 1) by (apply Rabs_le; pose proof (SIN_bound b); lra).
  nra.
Qed.

(** With at least as many [p2] samples as [p1] samples the scan ends
    normally, and its answer is decided by the deviations alone: [None] when
    no sample is closer than 999, otherwise the first sample of least
    deviation. *)
Lemma find_vertical_spec (l1 l2 : R) (p1 p2 : list R) :
  (length p1 <= length p2)%nat →
  ∃ r, find_vertical l1 l2 p1 p2 = Ok r ∧
    match r with
    | None => ∀ i, (i < length p1)%nat → 999 <= dev_at l1 l2 p1 p2 i
    | Some j =>
        (j < length p1)%nat ∧ dev_at l1 l2 p1 p2 j < 999 ∧
        (∀ i, (i < length p1)%nat →
              dev_at l1 l2 p1 p2 j <= dev_at l1 l2 p1 p2 i) ∧
        (∀ i, (i < j)%nat → dev_at l1 l2 p1 p2 j < dev_at l1 l2 p1 p2 i)
    end.
Proof.
  intros Hlen.
  destruct (find_vertical_scan l1 l2 p1 p2 Hlen) as ([c idx] & Hrun & Hinv).
  exists idx. split; [done|]. unfold scan_inv in Hinv; simpl in Hinv.
  destruct idx as [j|].
  - destruct Hinv as (Hj & -> & Hc9 & Hall & Hbefore). done.
  - by destruct Hinv as (_ & Hall).
Qed.

(** A sample closer than 999 makes the scan answer with an index. *)
Lemma find_vertical_some (l1 l2 : R) (p1 p2 : list R) (i : nat) :
  (length p1 <= length p2)%nat → (i < length p1)%nat →
  dev_at l1 l2 p1 p2 i < 999 →
  ∃ j, find_vertical l1 l2 p1 p2 = Ok (Some j) ∧ (j < length p1)%nat.
Proof.
  intros Hlen Hi Hdev.
  destruct (find_vertical_spec l1 l2 p1 p2 Hlen) as ([j|] & Hrun & Hspec).
  - exists j. by destruct Hspec as (Hj & _).
  - specialize (Hspec i Hi). lra.
Qed.

(** Rods shorter than 999 in total: every non-empty series has a crossing
    index. *)
Lemma find_vertical_short_rods (l1 l2 : R) (p1 p2 : list R) :
  (length p1 <= length p2)%nat → (0 < length p1)%nat →
  Rabs l1 + Rabs l2 < 999 →
  ∃ j, find_vertical l1 l2 p1 p2 = Ok (Some j) ∧ (j < length p1)%nat.
Proof.
  intros Hlen Hne Hrods. apply (find_vertical_some l1 l2 p1 p2 0%nat); [done..|].
  unfold dev_at. pose proof (deviation_bound l1 l2 (nth 0 p1 0) (nth 0 p2 0)). lra.
Qed.

Lemma find_vertical_empty (l1 l2 : R) (p2 : list R) :
  find_vertical l1 l2 [] p2 = Ok None.
Proof. reflexivity. Qed.

(** A second series shorter than the first: the scan reaches an index that
    [p2] does not have. *)
Lemma find_vertical_short_p2 (l1 l2 : R) (p1 p2 : list R) :
  (length p2 < length p1)%nat →
  find_vertical l1 l2 p1 p2 = Raise IndexError.
Proof.
  intros Hlen. unfold find_vertical.
  replace (length p1) with (length p2 + (length p1 - length p2))%nat by lia.
  rewrite seq_app, for_loop_app_outcome.
  destruct (scan_prefix l1 l2 (take (length p2) p1) p2 (length p2))
    as (st & Hrun & _); [rewrite length_take; lia..|].
  assert (Hsame : ∀ k st0, (k <= length p2)%nat →
    for_loop (seq 0 k)
      (λ i '(closest, closest_index),
         a ← getitem p1 i; b ← getitem p2 i;
         let x := Rabs (l1 * sin a + l2 * sin b) in
         if Rlt_dec x closest then Ok (x, Some i)
         else Ok (closest, closest_index)) st0 =
    for_loop (seq 0 k)
      (λ i '(closest, closest_index),
         a ← getitem (take (length p2) p1) i; b ← getitem p2 i;
         let x := Rabs (l1 * sin a + l2 * sin b) in
         if Rlt_dec x closest then Ok (x, Some i)
         else Ok (closest, closest_index)) st0).
  { induction k as [|k IH]; intros st0 Hk; [done|].
    rewrite seq_S, !for_loop_app_outcome, IH by lia.
    destruct (for_loop (seq 0 k) _ st0) as [[c idx]|e]; [|done].
    simpl. by rewrite getitem_take by lia. }
  rewrite Hsame, Hrun by lia. simpl.
  destruct (length p1 - length p2)%nat as [|d] eqn:Hd; [lia|].
  simpl. destruct st as [c idx].
  rewrite (getitem_nth p1 (length p2)) by lia. simpl.
  by rewrite getitem_ge.
Qed.

(** ** Right-hand sides *)

(** [dp_rhs] against the standard equations on every well-formed input: the
    same angular acceleration of the first arm, and an angular acceleration
    of the second arm that carries the term [l1*w1^2*sin(p1-p2)/l2] twice. *)
Lemma dp_rhs_vs_standard (p1 w1 p2 w2 m1 m2 l1 l2 g t : R) :
  ∃ a1 a2,
    dp_rhs_standard [p1; w1; p2; w2] t [m1; m2; l1; l2; g]
      = Ok [w1; a1; w2; a2] ∧
    dp_rhs [p1; w1; p2; w2] t [m1; m2; l1; l2; g]
      = Ok [w1; a1; w2; a2 + l1 * w1^2 * sin (p1 - p2) / l2].
Proof.
  eexists _, _. split; [reflexivity|].
  unfold dp_rhs.
  replace (cos (p1 - p2) ^ 2) with (cos (p1 - p2) * cos (p1 - p2)) by ring.
  do 2 f_equal.
  f_equal; [unfold Rdiv; ring|].
  do 2 f_equal. unfold Rdiv. ring.
Qed.

(** The standard derivatives solve both Lagrange equations of the double
    pendulum. *)
Lemma standard_solves_lagrange (p1 w1 p2 w2 m1 m2 l1 l2 g t a1 a2 : R) :
  (m1+m2)*l1 - m2*l1*(cos (p1-p2))^2 ≠ 0 → l2 ≠ 0 →
  dp_rhs_standard [p1; w1; p2; w2] t [m1; m2; l1; l2; g]
    = Ok [w1; a1; w2; a2] →
  (m1+m2)*l1*a1 + m2*l2*a2*cos (p1-p2) + m2*l2*w2^2*sin (p1-p2)
    + (m1+m2)*g*sin p1 = 0 ∧
  l2*a2 + l1*a1*cos (p1-p2) - l1*w1^2*sin (p1-p2) + g*sin p2 = 0.
Proof.
  intros HD Hl2 Heq. unfold dp_rhs_standard in Heq.
  injection Heq as Ha1 Ha2.
  assert (E2 : l2*a2 + l1*a1*cos (p1-p2) - l1*w1^2*sin (p1-p2) + g*sin p2 = 0).
  { rewrite <- Ha2, Ha1. field; exact Hl2. }
  split; [|done].
  assert (E1 : ((m1+m2)*l1 - m2*l1*(cos (p1-p2))^2) * a1 =
    -(m1+m2)*g*sin p1 - m2*l2*w2^2*sin (p1-p2)
    - m2*cos (p1-p2)*l1*w1^2*sin (p1-p2) + m2*g*cos (p1-p2)*sin p2).
  { rewrite <- Ha1. field. contradict HD. rewrite <- HD. ring. }
  pose proof (f_equal (Rmult (m2 * cos (p1 - p2))) E2) as E3.
  lra.
Qed.

(** With the derivatives [dp_rhs] returns, the second Lagrange equation is
    off by [l1*w1^2*sin(p1-p2)]. *)
Lemma dp_rhs_lagrange_residual (p1 w1 p2 w2 m1 m2 l1 l2 g t a1 a2 : R) :
  l2 ≠ 0 →
  dp_rhs [p1; w1; p2; w2] t [m1; m2; l1; l2; g] = Ok [w1; a1; w2; a2] →
  l2*a2 + l1*a1*cos (p1-p2) - l1*w1^2*sin (p1-p2) + g*sin p2
    = l1 * w1^2 * sin (p1 - p2).
Proof.
  intros Hl2 Heq. unfold dp_rhs in Heq. injection Heq as Ha1 Ha2.
  rewrite <- Ha2, Ha1. field; exact Hl2.
Qed.

(** C1. The claim: [dp_rhs] returns the standard closed-form derivatives,
    with no extra factor on the [omega1^2] term of [omega2_dot].  At the
    state (pi/2, 1, 0, 0) with unit masses and lengths and g = 9.8 the
    standard equations give [omega2_dot = 1]; [dp_rhs] returns 2. *)
Theorem dp_rhs_doubles_omega1_squared_term :
  dp_rhs_standard [PI/2; 1; 0; 0] 0 [1; 1; 1; 1; 98/10]
    = Ok [1; -(98/10); 0; 1] ∧
  dp_rhs [PI/2; 1; 0; 0] 0 [1; 1; 1; 1; 98/10]
    = Ok [1; -(98/10); 0; 2].
Proof.
  unfold dp_rhs_standard, dp_rhs.
  rewrite !Rminus_0_r, sin_PI2, cos_PI2, sin_0.
  split; do 2 f_equal; (f_equal; [field|]); do 2 f_equal; field.
Qed.

(** Division of Python floats: by a non-zero number, and by zero. *)
Lemma truediv_Ok (x y : R) : y ≠ 0 → truediv x y = Ok (x / y).
Proof. intros Hy. unfold truediv. by destruct (Req_dec_T y 0). Qed.

Lemma truediv_zero (x y : R) : y = 0 → truediv x y = Raise ZeroDivisionError.
Proof. intros Hy. unfold truediv. by destruct (Req_dec_T y 0). Qed.

(** With non-zero [m1], [l1], [l2] both divisions of [sa_dp_rhs] go
    through. *)
Lemma sa_dp_rhs_nonzero (p1 w1 p2 w2 m1 m2 l1 l2 g t : R) :
  m1 ≠ 0 → l1 ≠ 0 → l2 ≠ 0 →
  sa_dp_rhs [p1; w1; p2; w2] t [m1; m2; l1; l2; g] =
  let w1_dot := (g*l1)*(m2*p2-(m1+m2)*p1)/(m1*l1*l1) in
  let w2_dot := -(g*p2+l1*w1_dot)/l2 in
  Ok [w1; w1_dot; w2; w2_dot].
Proof.
  intros Hm1 Hl1 Hl2. unfold sa_dp_rhs.
  rewrite truediv_Ok by (repeat apply Rmult_integral_contrapositive_currified;
                         done).
  simpl. by rewrite truediv_Ok.
Qed.

(** C8. The small-angle right-hand side vanishes at the zero state, for all
    positive parameters: the origin is a fixed point of the linearized
    dynamics. *)
Theorem sa_dp_rhs_origin_fixed (m1 m2 l1 l2 g t : R) :
  0 < m1 → 0 < m2 → 0 < l1 → 0 < l2 → 0 < g →
  sa_dp_rhs [0; 0; 0; 0] t [m1; m2; l1; l2; g] = Ok [0; 0; 0; 0].
Proof.
  intros Hm1 Hm2 Hl1 Hl2 Hg. rewrite sa_dp_rhs_nonzero by lra. cbv zeta.
  do 2 f_equal. f_equal; [field; lra|].
  do 2 f_equal. field. lra.
Qed.

Lemma sa_dp_rhs_origin_fixed_witness :
  sa_dp_rhs [0; 0; 0; 0] 0 [1; 1; 1; 1; 98/10] = Ok [0; 0; 0; 0].
Proof. apply sa_dp_rhs_origin_fixed; lra. Defined.

(** ** The crossing locator on concrete series *)

(** C2. The claim: on equal-length non-empty series [find_vertical] returns
    the first index of least deviation.  With rods of length 1000 each and
    both angles going from pi/2 to pi/6 the deviations are 2000 and 1000,
    so the least deviation is at index 1; no deviation is below the initial
    [closest = 999], and the scan returns [None]. *)
Theorem find_vertical_misses_far_minimum :
  dev_at 1000 1000 [PI/2; PI/6] [PI/2; PI/6] 0 = 2000 ∧
  dev_at 1000 1000 [PI/2; PI/6] [PI/2; PI/6] 1 = 1000 ∧
  find_vertical 1000 1000 [PI/2; PI/6] [PI/2; PI/6] = Ok None.
Proof.
  assert (H0 : Rabs (1000 * sin (PI/2) + 1000 * sin (PI/2)) = 2000).
  { rewrite sin_PI2. rewrite Rabs_pos_eq; lra. }
  assert (H1 : Rabs (1000 * sin (PI/6) + 1000 * sin (PI/6)) = 1000).
  { rewrite sin_PI6. rewrite Rabs_pos_eq; lra. }
  split; [exact H0|]. split; [exact H1|].
  unfold find_vertical. simpl. rewrite H0.
  destruct (Rlt_dec 2000 999) as [?|_]; [lra|]. simpl. rewrite H1.
  destruct (Rlt_dec 1000 999) as [?|_]; [lra|]. done.
Qed.

(** C4. The claim: [find_vertical] returns [None] if and only if the series
    is empty.  The series of the single angle pi/2, with rods of length 500
    each, is not empty; its only deviation is 1000, and the scan returns
    [None] as it does for the empty series. *)
Theorem find_vertical_none_on_nonempty :
  find_vertical 500 500 [] [] = Ok None ∧
  find_vertical 500 500 [PI/2] [PI/2] = Ok None.
Proof.
  split; [reflexivity|].
  unfold find_vertical. simpl. rewrite sin_PI2.
  destruct (Rlt_dec _ 999) as [Hlt|_]; [|done].
  rewrite Rabs_pos_eq in Hlt; lra.
Qed.

(** C9. With at least as many [p2] samples as [p1] samples every index
    access of [find_vertical] is in bounds (no [IndexError]: the scan ends
    with a result), and an index it returns is smaller than [len(p1)]: a
    valid position in both series and in every column of that length. *)
Theorem find_vertical_index_in_bounds (l1 l2 : R) (p1 p2 : list R) :
  (length p1 <= length p2)%nat →
  ∃ r, find_vertical l1 l2 p1 p2 = Ok r ∧
    ∀ i, r = Some i →
      (0 <= i < length p1)%nat ∧ is_Some (p1 !! i) ∧ is_Some (p2 !! i) ∧
      ∀ col : list R, length col = length p1 → is_Some (col !! i).
Proof.
  intros Hlen.
  destruct (find_vertical_spec l1 l2 p1 p2 Hlen) as (r & Hrun & Hspec).
  exists r. split; [done|]. intros i ->. destruct Hspec as (Hi & _).
  split; [lia|]. split; [apply lookup_lt_is_Some_2; lia|].
  split; [apply lookup_lt_is_Some_2; lia|].
  intros col Hcol. apply lookup_lt_is_Some_2. lia.
Qed.

Lemma find_vertical_index_in_bounds_witness :
  ∃ r, find_vertical 1 1 [0; 0] [0; 0; 0] = Ok r ∧
    ∀ i, r = Some i →
      (0 <= i < length [0; 0])%nat ∧ is_Some ([0; 0] !! i) ∧
      is_Some ([0; 0; 0] !! i) ∧
      ∀ col : list R, length col = length [0; 0] → is_Some (col !! i).
Proof. apply find_vertical_index_in_bounds. simpl. lia. Defined.

(** ** Running the drivers *)

Lemma lift_bind_run {A B : Type} (o : outcome A) (f : A → py B)
    (g : A → outcome B) (σ σ' : store) :
  (∀ a, f a σ = (g a, σ')) → (∀ e, o = Raise e → σ = σ') →
  (lift o ≫= f) σ = (o ≫= g, σ').
Proof.
  intros Hf He. unfold mbind, py_bind, lift. destruct o as [a|e]; simpl.
  - apply Hf.
  - by rewrite (He e eq_refl).
Qed.

Lemma py_bind_run {A B : Type} (m : py A) (f : A → py B) (σ : store) :
  (m ≫= f) σ =
  match m σ with
  | (Ok a, σ') => f a σ'
  | (Raise e, σ') => (Raise e, σ')
  end.
Proof. reflexivity. Qed.

(** A loop whose body acts on the store only within an invariant [I] and
    computes what a store-free body computes. *)
Lemma for_loop_py_pure {X S : Type} (I : store → Prop)
    (body : X → S → py S) (pbody : X → S → outcome S) :
  (∀ x s σ, I σ → ∃ σ', body x s σ = (pbody x s, σ') ∧ I σ') →
  ∀ xs s σ, I σ →
    ∃ σ', for_loop xs body s σ = (for_loop xs pbody s, σ') ∧ I σ'.
Proof.
  intros Hbody xs. induction xs as [|x xs IH]; intros s σ HI; simpl.
  - by exists σ.
  - destruct (Hbody x s σ HI) as (σ1 & Hrun & HI1).
    unfold mbind at 1, py_bind. rewrite Hrun.
    destruct (pbody x s) as [s'|e]; simpl.
    + by apply IH.
    + by exists σ1.
Qed.

Lemma for_loop_traverse {X B : Type} (f : X → outcome B) (xs : list X)
    (ws : list B) :
  for_loop xs (λ x ws, w ← f x; Ok (ws ++ [w])) ws
  = (ws ++.) <$> traverse f xs.
Proof.
  revert ws. induction xs as [|x xs IH]; intros ws; simpl.
  - by rewrite app_nil_r.
  - destruct (f x) as [w|e]; simpl; [|done].
    rewrite IH. destruct (traverse f xs) as [ys|e]; simpl; [|done].
    by rewrite <- app_assoc.
Qed.

Lemma traverse_Ok {A B : Type} (f : A → outcome B) (xs : list A)
    (ys : list B) :
  traverse f xs = Ok ys ↔ Forall2 (λ x y, f x = Ok y) xs ys.
Proof.
  revert ys. induction xs as [|x xs IH]; intros ys; simpl.
  - split; [intros [= <-]; constructor|by inversion 1].
  - destruct (f x) as [y|e] eqn:Hfx; simpl.
    + destruct (traverse f xs) as [ys'|e] eqn:Hxs; simpl.
      * split.
        -- intros [= <-]. constructor; [done|]. by apply IH.
        -- inversion 1 as [|? y' ? ys'' Hy Hys]; subst.
           apply IH in Hys. congruence.
      * split; [done|]. inversion 1 as [|? y' ? ys'' Hy Hys]; subst.
        apply IH in Hys. done.
    + split; [done|]. inversion 1; subst. congruence.
Qed.

Lemma crossing_value_Ok (la lb : R) (v_sol : list (list R)) (v : value) :
  crossing_value la lb v_sol = Ok v ↔ swing_back la lb v_sol v.
Proof.
  unfold crossing_value, swing_back. split.
  - destruct (column 0 v_sol) as [p1_arr|] eqn:H0; simpl; [|done].
    destruct (column 2 v_sol) as [p2_arr|] eqn:H2; simpl; [|done].
    destruct (column 3 v_sol) as [w2_arr|] eqn:H3; simpl; [|done].
    destruct (find_vertical la lb p1_arr p2_arr) as [[i|]|] eqn:Hf;
      simpl; [| |done].
    + unfold getitem. destruct (w2_arr !! i) as [x|] eqn:Hx; simpl; [|done].
      intros [= <-]. exists p1_arr, p2_arr, w2_arr, (Some i).
      repeat split; try done. by exists x.
    + intros [= <-]. by exists p1_arr, p2_arr, w2_arr, None.
  - intros (p1_arr & p2_arr & w2_arr & [i|] & -> & -> & -> & Hf & Hv).
    + destruct Hv as (x & Hx & ->). simpl. rewrite Hf. simpl.
      unfold getitem. by rewrite Hx.
    + subst v. simpl. by rewrite Hf.
Qed.

Lemma crossing_observable_Ok (la lb : R) (v_sol : list (list R)) (w : R) :
  crossing_observable la lb v_sol = Ok w ↔
  ∃ v, swing_back la lb v_sol v ∧ as_number v = Ok w.
Proof.
  unfold crossing_observable. split.
  - destruct (crossing_value la lb v_sol) as [v|e] eqn:Hv; simpl; [|done].
    intros Hw. exists v. split; [|done]. by apply crossing_value_Ok.
  - intros (v & Hv%crossing_value_Ok & Hw). by rewrite Hv.
Qed.

Section DriverRuns.

Variable odeint :
  rhs_fun → list R → list R → list R → R → R → outcome (list (list R)).
Variables (rhs : rhs_fun) (G : Nb.t).

(** The state of the store while a one-dimensional sweep runs on the store
    [σ]: one new object [r], the copy, which differs from [base] at most in
    slot [i]. *)
Let sweep_inv (σ : store) (r : ref) (i : nat) (base : list R)
    (σ1 : store) : Prop :=
  ∃ cur, σ1 = <[r := cur]> σ ∧ length cur = length base ∧
         ∀ x, <[i := x]> cur = <[i := x]> base.

Lemma setitem_then_read (σ0 : store) (r : ref) (i : nat) (base : list R)
    (x : R) {B : Type} (f : list R → py B) (g : list R → outcome B)
    (σ : store) :
  sweep_inv σ0 r i base σ →
  (∀ args σ', sweep_inv σ0 r i base σ' → f args σ' = (g args, σ')) →
  ∃ σ', (list_setitem r i x ;; args ← list_read r; f args) σ
        = (args ← setitem_value base i x; g args, σ')
        ∧ sweep_inv σ0 r i base σ'.
Proof.
  intros (cur & -> & Hlen & Hins) Hf.
  unfold mbind at 1, py_bind, list_setitem, setitem_value.
  rewrite lookup_insert_eq, Hlen.
  destruct (decide (i < length base)%nat) as [Hi|Hi]; simpl.
  - assert (Hinv' : sweep_inv σ0 r i base (<[r := <[i := x]> base]> σ0)).
    { exists (<[i := x]> base). rewrite length_insert.
      split; [done|]. split; [done|]. intros y.
      by rewrite list_insert_insert_eq. }
    exists (<[r := <[i := x]> base]> σ0). split; [|exact Hinv'].
    rewrite insert_insert_eq, (Hins x).
    unfold mbind, py_bind, list_read. rewrite lookup_insert_eq.
    by apply Hf.
  - exists (<[r := cur]> σ0). split; [done|]. by exists cur.
Qed.

Lemma length_plot_run (plot_l1 : bool) (n : nat) (l_max : R) (σ : store) :
  ∃ σ', length_plot odeint rhs plot_l1 n l_max G σ =
    (match σ !! Nb.p G with
     | Some base =>
         pair (linspace (1/4) l_max n) <$>
           traverse (length_point odeint rhs G plot_l1 base)
             (linspace (1/4) l_max n)
     | None => Raise NameError
     end, σ') ∧
    (σ' = σ ∨ is_Some (σ !! Nb.p G) ∧ ∃ cur, σ' = <[fresh (dom σ) := cur]> σ).
Proof.
  unfold length_plot. rewrite py_bind_run. unfold list_copy.
  destruct (σ !! Nb.p G) as [base|] eqn:Hp; [|exists σ; by split; [|left]].
  set (r := fresh (dom σ)). set (σ0 := <[r := base]> σ).
  set (i := (if plot_l1 then 2 else 3)%nat).
  assert (Hinv0 : sweep_inv σ r i base σ0) by by exists base.
  rewrite py_bind_run.
  match goal with |- context [for_loop _ ?body _ σ0] =>
    destruct (for_loop_py_pure (sweep_inv σ r i base) body
      (λ l ws, w ← length_point odeint rhs G plot_l1 base l; Ok (ws ++ [w])))
      with (xs := linspace (1/4) l_max n) (s := @nil value) (σ := σ0)
      as (σ' & Hrun & Hinv'); [|done|]
  end.
  { intros l ws σ1 Hinv1.
    replace (if plot_l1 then list_setitem r 2 l else list_setitem r 3 l)
      with (list_setitem r i l) by (unfold i; by destruct plot_l1).
    destruct (setitem_then_read σ r i base l
      (λ args,
         v_sol ← lift (odeint rhs (Nb.IC G) (Nb.t_interval G) args
                         (Nb.abserr G) (Nb.relerr G));
         p1_arr ← lift (column 0 v_sol);
         p2_arr ← lift (column 2 v_sol);
         w2_arr ← lift (column 3 v_sol);
         t_index ← lift (if plot_l1
                         then find_vertical l (Nb.l2 G) p1_arr p2_arr
                         else find_vertical (Nb.l1 G) l p1_arr p2_arr);
         x ← lift (getitem_opt w2_arr t_index);
         mret (ws ++ [neg x]))
      (λ args,
         v_sol ← odeint rhs (Nb.IC G) (Nb.t_interval G) args
                   (Nb.abserr G) (Nb.relerr G);
         w ← (if plot_l1 then crossing_value l (Nb.l2 G) v_sol
              else crossing_value (Nb.l1 G) l v_sol);
         Ok (ws ++ [w])) σ1 Hinv1) as (σ2 & Hrun2 & Hinv2).
    { intros args σ2 _. unfold crossing_value.
      repeat (apply lift_bind_run; [intros ?|done]).
      unfold mbind, py_bind, lift, outcome_bind.
      destruct plot_l1; repeat case_match; simplify_eq; done. }
    exists σ2. split; [|done]. rewrite Hrun2. f_equal.
    unfold length_point. fold i.
    destruct (setitem_value base i l); simpl; [|done].
    by destruct (odeint _ _ _ _ _ _). }
  exists σ'. split; [|right; split; [done|];
                      destruct Hinv' as (cur & -> & _); by exists cur].
  rewrite Hrun, for_loop_traverse.
  by destruct (traverse _ _).
Qed.

Lemma mass_plot_run (plot_m1 : bool) (n : nat) (m_max : R) (σ : store) :
  ∃ σ', mass_plot odeint rhs plot_m1 n m_max G σ =
    (match σ !! Nb.p G with
     | Some base =>
         pair (linspace (1/4) m_max n) <$>
           traverse (mass_point odeint rhs G plot_m1 base)
             (linspace (1/4) m_max n)
     | None => Raise NameError
     end, σ') ∧
    (σ' = σ ∨ is_Some (σ !! Nb.p G) ∧ ∃ cur, σ' = <[fresh (dom σ) := cur]> σ).
Proof.
  unfold mass_plot. rewrite py_bind_run. unfold list_copy.
  destruct (σ !! Nb.p G) as [base|] eqn:Hp; [|exists σ; by split; [|left]].
  set (r := fresh (dom σ)). set (σ0 := <[r := base]> σ).
  set (i := (if plot_m1 then 0 else 1)%nat).
  assert (Hinv0 : sweep_inv σ r i base σ0) by by exists base.
  rewrite py_bind_run.
  match goal with |- context [for_loop _ ?body _ σ0] =>
    destruct (for_loop_py_pure (sweep_inv σ r i base) body
      (λ m ws, w ← mass_point odeint rhs G plot_m1 base m; Ok (ws ++ [w])))
      with (xs := linspace (1/4) m_max n) (s := @nil value) (σ := σ0)
      as (σ' & Hrun & Hinv'); [|done|]
  end.
  { intros m ws σ1 Hinv1.
    replace (if plot_m1 then list_setitem r 0 m else list_setitem r 1 m)
      with (list_setitem r i m) by (unfold i; by destruct plot_m1).
    destruct (setitem_then_read σ r i base m
      (λ args,
         v_sol ← lift (odeint rhs (Nb.IC G) (Nb.t_interval G) args
                         (Nb.abserr G) (Nb.relerr G));
         p1_arr ← lift (column 0 v_sol);
         p2_arr ← lift (column 2 v_sol);
         w2_arr ← lift (column 3 v_sol);
         t_index ← lift (find_vertical (Nb.l1 G) (Nb.l2 G) p1_arr p2_arr);
         x ← lift (getitem_opt w2_arr t_index);
         mret (ws ++ [neg x]))
      (λ args,
         v_sol ← odeint rhs (Nb.IC G) (Nb.t_interval G) args
                   (Nb.abserr G) (Nb.relerr G);
         w ← crossing_value (Nb.l1 G) (Nb.l2 G) v_sol;
         Ok (ws ++ [w])) σ1 Hinv1) as (σ2 & Hrun2 & Hinv2).
    { intros args σ2 _. unfold crossing_value.
      repeat (apply lift_bind_run; [intros ?|done]).
      unfold mbind, py_bind, lift, outcome_bind.
      repeat case_match; simplify_eq; done. }
    exists σ2. split; [|done]. rewrite Hrun2. f_equal.
    unfold mass_point. fold i.
    destruct (setitem_value base i m); simpl; [|done].
    by destruct (odeint _ _ _ _ _ _). }
  exists σ'. split; [|right; split; [done|];
                      destruct Hinv' as (cur & -> & _); by exists cur].
  rewrite Hrun, for_loop_traverse.
  by destruct (traverse _ _).
Qed.

Lemma list_read_run (r : ref) (σ : store) :
  list_read r σ = lift (read_value (σ !! r)) σ.
Proof. unfold list_read, lift. by destruct (σ !! r). Qed.

(** [p_w_plot] writes nothing to the store and computes the store-free
    sweep over the observable of its grid points. *)
Lemma p_w_plot_run (w_val : R) (show_level_curve : bool) (iter_n : nat)
    (w_err angle_start angle_end : R) (σ : store) :
  p_w_plot odeint rhs w_val show_level_curve iter_n w_err
    angle_start angle_end G σ =
  (p_w_sweep (angle_point odeint rhs G (σ !! Nb.p G))
     w_val show_level_curve w_err
     (linspace angle_start angle_end iter_n)
     (linspace angle_start angle_end iter_n), σ).
Proof.
  unfold p_w_plot, p_w_sweep.
  set (grid := linspace angle_start angle_end iter_n).
  match goal with |- for_loop _ ?body _ _ = _ =>
    destruct (for_loop_py_pure (λ σ1, σ1 = σ) body
      (pw_outer (angle_point odeint rhs G (σ !! Nb.p G))
         w_val show_level_curve w_err grid))
      with (xs := grid) (s := pw_empty) (σ := σ)
      as (σ' & Hrun & ->); [|done|done]
  end.
  intros p1 L σ1 ->. exists σ. split; [|done].
  unfold pw_outer. rewrite py_bind_run.
  match goal with |- context [for_loop _ ?body _ σ] =>
    destruct (for_loop_py_pure (λ σ1, σ1 = σ) body
      (pw_inner (angle_point odeint rhs G (σ !! Nb.p G))
         w_val show_level_curve w_err p1))
      with (xs := grid) (s := (L, 0, 9999)) (σ := σ)
      as (σ' & Hrun & ->); [|done|]
  end.
  - intros p2 [[L1 mx] mn] σ1 ->. exists σ. split; [|done].
    unfold pw_inner, angle_point, crossing_observable, crossing_value.
    rewrite py_bind_run, list_read_run. unfold lift at 1.
    destruct (read_value (σ !! Nb.p G)) as [args|e]; simpl; [|done].
    repeat (apply lift_bind_run; [intros ?|done]).
    unfold mbind, py_bind, lift, outcome_bind.
    repeat case_match; simplify_eq; done.
  - rewrite Hrun.
    destruct (for_loop (M := outcome) grid _ (L, 0, 9999)) as [ [ [L1 mx] mn] | e]; simpl;
      [|done].
    repeat (apply lift_bind_run; [intros ?|done]). done.
Qed.

End DriverRuns.

(** ** [list.index], running extrema *)

Lemma list_index_Ok (x : R) (a : list R) (k : nat) :
  list_index x a = Ok k →
  a !! k = Some x ∧ ∀ j, (j < k)%nat → a !! j ≠ Some x.
Proof.
  revert k. induction a as [|y a IH]; intros k; simpl; [done|].
  destruct (Req_dec_T y x) as [->|Hne].
  - intros [= <-]. split; [done|]. intros j Hj. lia.
  - destruct (list_index x a) as [k'|e] eqn:Hk; simpl; [|done].
    intros [= <-]. destruct (IH k' eq_refl) as (Hk' & Hbefore).
    split; [done|]. intros [|j] Hj; simpl; [congruence|].
    apply Hbefore. lia.
Qed.

Lemma list_index_elem (x : R) (a : list R) :
  x ∈ a → ∃ k, list_index x a = Ok k.
Proof.
  induction a as [|y a IH]; simpl; [by intros ?%elem_of_nil|].
  intros Hin. destruct (Req_dec_T y x) as [->|Hne]; [by exists 0%nat|].
  apply elem_of_cons in Hin as [->|Hin]; [done|].
  destruct (IH Hin) as (k & ->). by exists (S k).
Qed.

Lemma list_index_not_elem (x : R) (a : list R) :
  x ∉ a → list_index x a = Raise ValueError.
Proof.
  induction a as [|y a IH]; simpl; [done|].
  intros Hnin. apply not_elem_of_cons in Hnin as (Hne & Hnin).
  destruct (Req_dec_T y x) as [->|_]; [done|]. by rewrite IH.
Qed.

Lemma running_max_ge (m : R) (ws : list R) : m <= running_max m ws.
Proof.
  unfold running_max. revert m.
  induction ws as [|w ws IH]; intros m; simpl; [lra|].
  destruct (Rgt_dec w m) as [Hgt|Hle];
    [specialize (IH w)|specialize (IH m)]; lra.
Qed.

Lemma running_max_upper (m : R) (ws : list R) (w : R) :
  w ∈ ws → w <= running_max m ws.
Proof.
  revert m. induction ws as [|w' ws IH]; intros m; [by intros ?%elem_of_nil|].
  intros [Heq|Hin]%elem_of_cons.
  - subst w'. unfold running_max. simpl. destruct (Rgt_dec w m) as [Hgt|Hle].
    + apply (running_max_ge w ws).
    + pose proof (running_max_ge m ws) as Hge. unfold running_max in Hge. lra.
  - unfold running_max. simpl. by apply IH.
Qed.

Lemma running_max_cases (m : R) (ws : list R) :
  running_max m ws = m ∨ running_max m ws ∈ ws.
Proof.
  unfold running_max. revert m.
  induction ws as [|w ws IH]; intros m; simpl; [by left|].
  destruct (Rgt_dec w m) as [Hgt|Hle].
  - right. destruct (IH w) as [Heq|Hin].
    + rewrite Heq. by left.
    + by right.
  - destruct (IH m) as [Heq|Hin]; [by left|right; by right].
Qed.

Lemma running_min_le (m : R) (ws : list R) : running_min m ws <= m.
Proof.
  unfold running_min. revert m.
  induction ws as [|w ws IH]; intros m; simpl; [lra|].
  destruct (Rlt_dec w m) as [Hlt|Hge];
    [specialize (IH w)|specialize (IH m)]; lra.
Qed.

Lemma running_min_lower (m : R) (ws : list R) (w : R) :
  w ∈ ws → running_min m ws <= w.
Proof.
  revert m. induction ws as [|w' ws IH]; intros m; [by intros ?%elem_of_nil|].
  intros [Heq|Hin]%elem_of_cons.
  - subst w'. unfold running_min. simpl. destruct (Rlt_dec w m) as [Hlt|Hge].
    + apply (running_min_le w ws).
    + pose proof (running_min_le m ws) as Hle. unfold running_min in Hle. lra.
  - unfold running_min. simpl. by apply IH.
Qed.

Lemma running_min_cases (m : R) (ws : list R) :
  running_min m ws = m ∨ running_min m ws ∈ ws.
Proof.
  unfold running_min. revert m.
  induction ws as [|w ws IH]; intros m; simpl; [by left|].
  destruct (Rlt_dec w m) as [Hlt|Hge].
  - right. destruct (IH w) as [Heq|Hin].
    + rewrite Heq. by left.
    + by right.
  - destruct (IH m) as [Heq|Hin]; [by left|right; by right].
Qed.

(** ** The two-dimensional sweep without the store *)

Section Sweep2D.

Variable obs : R → R → outcome R.
Variables (w_val : R) (show_level_curve : bool) (w_err : R).

Lemma pw_inner_loop (p1 : R) (ps : list R) (L : pw_lists) (mx mn : R) :
  for_loop ps (pw_inner obs w_val show_level_curve w_err p1) (L, mx, mn) =
  ws ← traverse (obs p1) ps;
  Ok (pw_append_points (level_of w_val show_level_curve w_err) p1 ps ws L,
      running_max mx ws, running_min mn ws).
Proof.
  revert L mx mn. induction ps as [|p2 ps IH]; intros L mx mn; simpl; [done|].
  destruct (obs p1 p2) as [w|e]; simpl; [|done].
  rewrite IH. by destruct (traverse (obs p1) ps).
Qed.

Lemma pw_append_points_lists (level : R → bool) (p1 : R) (ps ws : list R)
    (L : pw_lists) :
  length ps = length ws →
  let L' := pw_append_points level p1 ps ws L in
  p1_list L' = p1_list L ++ ((λ _, p1) <$> ps) ∧
  p2_list L' = p2_list L ++ ps ∧
  w2_list L' = w2_list L ++ ws ∧
  max_p2_list L' = max_p2_list L ∧ max_w2_list L' = max_w2_list L ∧
  min_p2_list L' = min_p2_list L ∧ min_w2_list L' = min_w2_list L.
Proof.
  revert ws L. induction ps as [|p2 ps IH]; intros [|w ws] L Hlen; simpl in *;
    try lia.
  - by rewrite !app_nil_r.
  - destruct (IH ws (pw_append_point (level w) p1 p2 w L) ltac:(lia))
      as (-> & -> & -> & -> & -> & -> & ->).
    simpl. by rewrite <- !app_assoc.
Qed.

(** One row: the observables of the row, then the two look-ups through the
    flat lists. *)
Lemma pw_outer_Ok (iter_p2 : list R) (p1 : R) (L L' : pw_lists) :
  pw_outer obs w_val show_level_curve w_err iter_p2 p1 L = Ok L' ↔
  ∃ ws i_max max_p2 i_min min_p2,
    Forall2 (λ p2 w, obs p1 p2 = Ok w) iter_p2 ws ∧
    list_index (running_max 0 ws) (w2_list L ++ ws) = Ok i_max ∧
    (p2_list L ++ iter_p2) !! i_max = Some max_p2 ∧
    list_index (running_min 9999 ws) (w2_list L ++ ws) = Ok i_min ∧
    (p2_list L ++ iter_p2) !! i_min = Some min_p2 ∧
    L' = pw_append_row max_p2 (running_max 0 ws) min_p2 (running_min 9999 ws)
           (pw_append_points (level_of w_val show_level_curve w_err)
              p1 iter_p2 ws L).
Proof.
  unfold pw_outer. rewrite pw_inner_loop.
  destruct (traverse (obs p1) iter_p2) as [ws|e] eqn:Hws; simpl.
  - pose proof Hws as Hws0. apply traverse_Ok in Hws.
    destruct (pw_append_points_lists (level_of w_val show_level_curve w_err)
      p1 iter_p2 ws L (Forall2_length _ _ _ Hws))
      as (_ & Hp2 & Hw2 & _).
    rewrite Hp2, Hw2. unfold getitem. split.
    + destruct (list_index (running_max 0 ws) _) as [i_max|] eqn:Himax;
        simpl; [|done].
      destruct (_ !! i_max) as [max_p2|] eqn:Hmaxp2; simpl; [|done].
      destruct (list_index (running_min 9999 ws) _) as [i_min|] eqn:Himin;
        simpl; [|done].
      destruct (_ !! i_min) as [min_p2|] eqn:Hminp2; simpl; [|done].
      intros [= <-]. by exists ws, i_max, max_p2, i_min, min_p2.
    + intros (ws' & i_max & max_p2 & i_min & min_p2 & Hws' & Himax & Hmaxp2
              & Himin & Hminp2 & ->).
      apply traverse_Ok in Hws'. rewrite Hws0 in Hws'.
      injection Hws' as <-.
      rewrite Himax. simpl. rewrite Hmaxp2. simpl.
      rewrite Himin. simpl. by rewrite Hminp2.
  - split; [done|].
    intros (ws' & ? & ? & ? & ? & Hws' & _). apply traverse_Ok in Hws'.
    congruence.
Qed.

(** What a completed sweep has in its flat lists: the grid in the order of
    the visit, and the observable of each of its points. *)
Lemma p_w_sweep_lists (iter_p1 iter_p2 : list R) (L0 L : pw_lists) :
  for_loop iter_p1 (pw_outer obs w_val show_level_curve w_err iter_p2) L0
    = Ok L →
  ∃ ws,
    Forall2 (λ pt w, obs pt.1 pt.2 = Ok w) (grid_rows iter_p1 iter_p2) ws ∧
    p1_list L = p1_list L0 ++ (fst <$> grid_rows iter_p1 iter_p2) ∧
    p2_list L = p2_list L0 ++ (snd <$> grid_rows iter_p1 iter_p2) ∧
    w2_list L = w2_list L0 ++ ws.
Proof.
  revert L0. induction iter_p1 as [|p1 iter_p1 IH]; intros L0; simpl.
  - intros [= <-]. exists []. rewrite !app_nil_r. by repeat split.
  - destruct (pw_outer _ _ _ _ _ p1 L0) as [L1|e] eqn:Hrow; simpl; [|done].
    intros Hrest. apply pw_outer_Ok in Hrow
      as (ws1 & ? & ? & ? & ? & Hws1 & _ & _ & _ & _ & ->).
    destruct (IH _ Hrest) as (ws2 & Hws2 & Hp1 & Hp2 & Hw2).
    destruct (pw_append_points_lists (level_of w_val show_level_curve w_err)
      p1 iter_p2 ws1 L0 (Forall2_length _ _ _ Hws1))
      as (Hq1 & Hq2 & Hq3 & _).
    simpl in Hp1, Hp2, Hw2. rewrite Hq1 in Hp1. rewrite Hq2 in Hp2.
    rewrite Hq3 in Hw2.
    exists (ws1 ++ ws2). unfold grid_rows in *. simpl.
    rewrite !fmap_app, <- !list_fmap_compose.
    split; [|split; [|split]].
    + apply Forall2_app; [|done]. by apply Forall2_fmap_l.
    + rewrite Hp1, <- app_assoc. done.
    + rewrite Hp2, <- app_assoc. simpl. by rewrite list_fmap_id.
    + by rewrite Hw2, <- app_assoc.
Qed.

(** Observables strictly between the two initial extrema, 0 and 9999: the
    sweep completes. *)
Lemma p_w_sweep_completes (iter_p1 iter_p2 : list R) (L0 : pw_lists) :
  length (p2_list L0) = length (w2_list L0) →
  (iter_p1 = [] ∨ iter_p2 ≠ []) →
  (∀ p1 p2, p1 ∈ iter_p1 → p2 ∈ iter_p2 →
            ∃ w, obs p1 p2 = Ok w ∧ 0 < w < 9999) →
  ∃ L, for_loop iter_p1 (pw_outer obs w_val show_level_curve w_err iter_p2) L0
       = Ok L.
Proof.
  revert L0. induction iter_p1 as [|p1 iter_p1 IH]; intros L0 Hlen Hne Hobs.
  - by exists L0.
  - destruct Hne as [?|Hne]; [done|].
    assert (Hrow : ∃ ws, Forall2 (λ p2 w, obs p1 p2 = Ok w) iter_p2 ws ∧
                         Forall (λ w, 0 < w < 9999) ws).
    { assert (Hall : ∀ p2, p2 ∈ iter_p2 → ∃ w, obs p1 p2 = Ok w ∧ 0 < w < 9999)
        by (intros p2 Hp2; apply Hobs; [by left|done]).
      clear -Hall. induction iter_p2 as [|p2 ps IHps].
      - exists []. by split.
      - destruct (Hall p2) as (w & Hw & Hrange); [by left|].
        destruct IHps as (ws & Hws & Hranges);
          [intros ? ?; apply Hall; by right|].
        exists (w :: ws). split; by constructor. }
    destruct Hrow as (ws & Hws & Hrange).
    assert (Hlenws : length iter_p2 = length ws) by by eapply Forall2_length.
    destruct ws as [|w0 ws0] eqn:Ews;
      [destruct iter_p2; simpl in Hlenws; [done|lia]|].
    rewrite <- Ews in *.
    assert (Hw0 : w0 ∈ ws) by (rewrite Ews; by left).
    assert (Hw0r : 0 < w0 < 9999)
      by (rewrite Forall_forall in Hrange; by apply Hrange).
    assert (Hmax : running_max 0 ws ∈ w2_list L0 ++ ws).
    { apply elem_of_app. right.
      destruct (running_max_cases 0 ws) as [Heq|Hin]; [|done].
      pose proof (running_max_upper 0 ws w0 Hw0). lra. }
    assert (Hmin : running_min 9999 ws ∈ w2_list L0 ++ ws).
    { apply elem_of_app. right.
      destruct (running_min_cases 9999 ws) as [Heq|Hin]; [|done].
      pose proof (running_min_lower 9999 ws w0 Hw0). lra. }
    destruct (list_index_elem _ _ Hmax) as (i_max & Himax).
    destruct (list_index_elem _ _ Hmin) as (i_min & Himin).
    assert (Hlen2 : length (p2_list L0 ++ iter_p2)
                    = length (w2_list L0 ++ ws))
      by (rewrite !length_app; lia).
    destruct (lookup_lt_is_Some_2 (p2_list L0 ++ iter_p2) i_max)
      as (max_p2 & Hmaxp2).
    { rewrite Hlen2. apply list_index_Ok in Himax as (Hk & _).
      by apply lookup_lt_Some in Hk. }
    destruct (lookup_lt_is_Some_2 (p2_list L0 ++ iter_p2) i_min)
      as (min_p2 & Hminp2).
    { rewrite Hlen2. apply list_index_Ok in Himin as (Hk & _).
      by apply lookup_lt_Some in Hk. }
    simpl.
    set (L1 := pw_append_row max_p2 (running_max 0 ws) min_p2
                 (running_min 9999 ws)
                 (pw_append_points (level_of w_val show_level_curve w_err)
                    p1 iter_p2 ws L0)).
    assert (Hrun : pw_outer obs w_val show_level_curve w_err iter_p2 p1 L0
                   = Ok L1).
    { apply pw_outer_Ok. by exists ws, i_max, max_p2, i_min, min_p2. }
    rewrite Hrun. simpl. apply IH.
    + unfold L1. simpl.
      destruct (pw_append_points_lists (level_of w_val show_level_curve w_err)
        p1 iter_p2 ws L0 Hlenws) as (_ & -> & -> & _).
      done.
    + by right.
    + intros p1' p2 Hp1' Hp2. apply Hobs; [by right|done].
Qed.

End Sweep2D.

(** ** What a row records when the initial extrema fit *)

Lemma list_index_app_r (x : R) (a b : list R) :
  x ∉ a → list_index x (a ++ b) = (λ k, length a + k)%nat <$> list_index x b.
Proof.
  induction a as [|y a IH]; simpl.
  - intros _. by destruct (list_index x b).
  - intros Hnin. apply not_elem_of_cons in Hnin as (Hne & Hnin).
    destruct (Req_dec_T y x) as [->|_]; [done|].
    rewrite IH by done. by destruct (list_index x b).
Qed.

Section RowRecord.

Variable obs : R → R → outcome R.
Variables (w_val : R) (show_level_curve : bool) (w_err : R).

(** A completed row appends the running extrema of its observables [ws],
    started at 0 and 9999.  With a positive observable in the row the
    recorded maximum is the row's maximum, and with an observable below
    9999 the recorded minimum is the row's minimum.  When the recorded
    value occurs in no earlier row, the angle recorded with it is the
    [phi2] of the row at which the value first occurred. *)
Lemma pw_outer_row_record (iter_p2 : list R) (p1 : R) (L L' : pw_lists) :
  length (p2_list L) = length (w2_list L) →
  pw_outer obs w_val show_level_curve w_err iter_p2 p1 L = Ok L' →
  ∃ ws max_p2 min_p2,
    Forall2 (λ p2 w, obs p1 p2 = Ok w) iter_p2 ws ∧
    max_w2_list L' = max_w2_list L ++ [running_max 0 ws] ∧
    max_p2_list L' = max_p2_list L ++ [max_p2] ∧
    min_w2_list L' = min_w2_list L ++ [running_min 9999 ws] ∧
    min_p2_list L' = min_p2_list L ++ [min_p2] ∧
    ((∃ w, w ∈ ws ∧ 0 < w) →
       running_max 0 ws ∈ ws ∧ ∀ w, w ∈ ws → w <= running_max 0 ws) ∧
    ((∃ w, w ∈ ws ∧ w < 9999) →
       running_min 9999 ws ∈ ws ∧ ∀ w, w ∈ ws → running_min 9999 ws <= w) ∧
    (running_max 0 ws ∉ w2_list L →
       ∃ k, ws !! k = Some (running_max 0 ws) ∧
            (∀ j, (j < k)%nat → ws !! j ≠ Some (running_max 0 ws)) ∧
            iter_p2 !! k = Some max_p2) ∧
    (running_min 9999 ws ∉ w2_list L →
       ∃ k, ws !! k = Some (running_min 9999 ws) ∧
            (∀ j, (j < k)%nat → ws !! j ≠ Some (running_min 9999 ws)) ∧
            iter_p2 !! k = Some min_p2).
Proof.
  intros Hlen Hrun.
  apply pw_outer_Ok in Hrun
    as (ws & i_max & max_p2 & i_min & min_p2 & Hws & Himax & Hmaxp2
        & Himin & Hminp2 & ->).
  destruct (pw_append_points_lists (level_of w_val show_level_curve w_err)
    p1 iter_p2 ws L (Forall2_length _ _ _ Hws))
    as (_ & _ & _ & Hq4 & Hq5 & Hq6 & Hq7).
  exists ws, max_p2, min_p2. simpl. rewrite Hq4, Hq5, Hq6, Hq7.
  do 5 (split; [done|]).
  assert (Hcompanion : ∀ x i q,
    list_index x (w2_list L ++ ws) = Ok i →
    (p2_list L ++ iter_p2) !! i = Some q →
    x ∉ w2_list L →
    ∃ k, ws !! k = Some x ∧ (∀ j, (j < k)%nat → ws !! j ≠ Some x) ∧
         iter_p2 !! k = Some q).
  { intros x i q Hi Hq Hnin. rewrite list_index_app_r in Hi by done.
    destruct (list_index x ws) as [k|] eqn:Hk; simpl in Hi; [|done].
    injection Hi as <-. apply list_index_Ok in Hk as (Hk & Hfirst).
    exists k. split; [done|]. split; [done|].
    rewrite <- Hlen, lookup_app_r in Hq by lia.
    by replace (length (p2_list L) + k - length (p2_list L))%nat
      with k in Hq by lia. }
  split; [|split; [|split]].
  - intros (w & Hw & Hpos). split; [|by apply running_max_upper].
    destruct (running_max_cases 0 ws) as [Heq|Hin]; [|done].
    pose proof (running_max_upper 0 ws w Hw). lra.
  - intros (w & Hw & Hbelow). split; [|by apply running_min_lower].
    destruct (running_min_cases 9999 ws) as [Heq|Hin]; [|done].
    pose proof (running_min_lower 9999 ws w Hw). lra.
  - exact (Hcompanion _ _ _ Himax Hmaxp2).
  - exact (Hcompanion _ _ _ Himin Hminp2).
Qed.

End RowRecord.

(** ** The observable of a grid point *)

Section PointFacts.

Variable odeint :
  rhs_fun → list R → list R → list R → R → R → outcome (list (list R)).
Variables (rhs : rhs_fun) (G : Nb.t).

Lemma length_point_Ok (plot_l1 : bool) (base : list R) (l : R)
    (w : value) :
  length_point odeint rhs G plot_l1 base l = Ok w ↔
  length_observed odeint rhs G plot_l1 base l w.
Proof.
  unfold length_point, length_observed. split.
  - destruct (setitem_value base _ l) as [args|] eqn:Ha; simpl; [|done].
    destruct (odeint rhs _ _ args _ _) as [v_sol|] eqn:Hv; simpl; [|done].
    intros Hw. exists args, v_sol. split; [done|]. split; [done|].
    destruct plot_l1; by apply crossing_value_Ok.
  - intros (args & v_sol & -> & Hv & Hw). simpl. rewrite Hv. simpl.
    destruct plot_l1; by apply crossing_value_Ok.
Qed.

Lemma mass_point_Ok (plot_m1 : bool) (base : list R) (m : R)
    (w : value) :
  mass_point odeint rhs G plot_m1 base m = Ok w ↔
  mass_observed odeint rhs G plot_m1 base m w.
Proof.
  unfold mass_point, mass_observed. split.
  - destruct (setitem_value base _ m) as [args|] eqn:Ha; simpl; [|done].
    destruct (odeint rhs _ _ args _ _) as [v_sol|] eqn:Hv; simpl; [|done].
    intros Hw. exists args, v_sol. split; [done|]. split; [done|].
    by apply crossing_value_Ok.
  - intros (args & v_sol & -> & Hv & Hw). simpl. rewrite Hv. simpl.
    by apply crossing_value_Ok.
Qed.

Lemma angle_point_Ok (ob : option (list R)) (p1 p2 w : R) :
  angle_point odeint rhs G ob p1 p2 = Ok w ↔
  ∃ base, ob = Some base ∧ angle_observed odeint rhs G base p1 p2 w.
Proof.
  unfold angle_point, angle_observed. split.
  - destruct ob as [base|]; simpl; [|done].
    destruct (odeint rhs _ _ base _ _) as [v_sol|] eqn:Hv; simpl; [|done].
    intros (v & Hv' & Hw)%crossing_observable_Ok. exists base.
    split; [done|]. by exists v_sol, v.
  - intros (base & -> & v_sol & v & Hv & Hv' & Hw). simpl. rewrite Hv. simpl.
    apply crossing_observable_Ok. by exists v.
Qed.

End PointFacts.

(** On a trajectory of one row, with rods shorter than 999 in total, the
    crossing index is 0 and the observable is minus the row's [omega2]. *)
Lemma crossing_value_single_row (la lb a b c d : R) :
  Rabs la + Rabs lb < 999 →
  crossing_value la lb [[a; b; c; d]] = Ok (Scalar (- d)).
Proof.
  intros Hrods. unfold crossing_value. simpl.
  destruct (find_vertical_short_rods la lb [a] [c]) as (j & -> & Hj);
    [simpl; lia..|done|].
  simpl in *. by replace j with 0%nat by lia.
Qed.

Lemma crossing_observable_single_row (la lb a b c d : R) :
  Rabs la + Rabs lb < 999 →
  crossing_observable la lb [[a; b; c; d]] = Ok (- d).
Proof.
  intros Hrods. unfold crossing_observable.
  by rewrite crossing_value_single_row.
Qed.

(** ** What the sweeps record *)

(** X25. What the sweeps record.  A one-dimensional sweep returns a result
    exactly when, at every point of its grid, the item assignment, [odeint],
    the column slices and [find_vertical] go through, and the result lists
    in grid order what [-w2_arr[t_index]] gives there: the sign-negated
    [omega2] component at the index [find_vertical] returns, or, where it
    returns [None], the sign-negated series as a one-row array.  The lists of
    a completed two-dimensional sweep hold the grid in the order of the
    visit and these values, each a number (a component, or the entry of a
    one-entry array); and the two-dimensional sweep completes when these
    numbers are positive and below 9999. *)
Theorem sweeps_record_negated_omega2
    (odeint : rhs_fun → list R → list R → list R → R → R
              → outcome (list (list R)))
    (rhs : rhs_fun) (G : Nb.t) (σ : store) :
  (∀ plot_l1 n l_max grid ws,
     (length_plot odeint rhs plot_l1 n l_max G σ).1 = Ok (grid, ws) ↔
     grid = linspace (1/4) l_max n ∧
     ∃ base, σ !! Nb.p G = Some base ∧
             Forall2 (length_observed odeint rhs G plot_l1 base) grid ws) ∧
  (∀ plot_m1 n m_max grid ws,
     (mass_plot odeint rhs plot_m1 n m_max G σ).1 = Ok (grid, ws) ↔
     grid = linspace (1/4) m_max n ∧
     ∃ base, σ !! Nb.p G = Some base ∧
             Forall2 (mass_observed odeint rhs G plot_m1 base) grid ws) ∧
  (∀ w_val show_level_curve iter_n w_err angle_start angle_end L,
     (p_w_plot odeint rhs w_val show_level_curve iter_n w_err
        angle_start angle_end G σ).1 = Ok L →
     let iter := linspace angle_start angle_end iter_n in
     p1_list L = fst <$> grid_rows iter iter ∧
     p2_list L = snd <$> grid_rows iter iter ∧
     Forall2 (λ pt w, ∃ base, σ !! Nb.p G = Some base ∧
                       angle_observed odeint rhs G base pt.1 pt.2 w)
       (grid_rows iter iter) (w2_list L)) ∧
  (∀ w_val show_level_curve iter_n w_err angle_start angle_end base,
     σ !! Nb.p G = Some base →
     let iter := linspace angle_start angle_end iter_n in
     (∀ p1 p2, p1 ∈ iter → p2 ∈ iter →
        ∃ w, angle_observed odeint rhs G base p1 p2 w ∧ 0 < w < 9999) →
     ∃ L, (p_w_plot odeint rhs w_val show_level_curve iter_n w_err
             angle_start angle_end G σ).1 = Ok L).
Proof.
  split; [|split; [|split]].
  - intros plot_l1 n l_max grid ws.
    destruct (length_plot_run odeint rhs G plot_l1 n l_max σ)
      as (σ' & -> & _). simpl.
    destruct (σ !! Nb.p G) as [base|]; simpl.
    + destruct (traverse _ _) as [ws'|e] eqn:Hws; simpl.
      * split.
        -- intros [= <- <-]. split; [done|]. exists base. split; [done|].
           apply traverse_Ok in Hws.
           eapply Forall2_impl; [exact Hws|]. intros l w.
           apply length_point_Ok.
        -- intros (-> & base' & [= <-] & Hobs). f_equal. f_equal.
           assert (Hws' : traverse (length_point odeint rhs G plot_l1 base)
                            (linspace (1/4) l_max n) = Ok ws).
           { apply traverse_Ok. eapply Forall2_impl; [exact Hobs|].
             intros l w. apply length_point_Ok. }
           congruence.
      * split; [done|]. intros (-> & base' & [= <-] & Hobs).
        assert (Hws' : traverse (length_point odeint rhs G plot_l1 base)
                         (linspace (1/4) l_max n) = Ok ws).
        { apply traverse_Ok. eapply Forall2_impl; [exact Hobs|].
          intros l w. apply length_point_Ok. }
        congruence.
    + split; [done|]. by intros (_ & base & ? & _).
  - intros plot_m1 n m_max grid ws.
    destruct (mass_plot_run odeint rhs G plot_m1 n m_max σ)
      as (σ' & -> & _). simpl.
    destruct (σ !! Nb.p G) as [base|]; simpl.
    + destruct (traverse _ _) as [ws'|e] eqn:Hws; simpl.
      * split.
        -- intros [= <- <-]. split; [done|]. exists base. split; [done|].
           apply traverse_Ok in Hws.
           eapply Forall2_impl; [exact Hws|]. intros m w.
           apply mass_point_Ok.
        -- intros (-> & base' & [= <-] & Hobs). f_equal. f_equal.
           assert (Hws' : traverse (mass_point odeint rhs G plot_m1 base)
                            (linspace (1/4) m_max n) = Ok ws).
           { apply traverse_Ok. eapply Forall2_impl; [exact Hobs|].
             intros m w. apply mass_point_Ok. }
           congruence.
      * split; [done|]. intros (-> & base' & [= <-] & Hobs).
        assert (Hws' : traverse (mass_point odeint rhs G plot_m1 base)
                         (linspace (1/4) m_max n) = Ok ws).
        { apply traverse_Ok. eapply Forall2_impl; [exact Hobs|].
          intros m w. apply mass_point_Ok. }
        congruence.
    + split; [done|]. by intros (_ & base & ? & _).
  - intros w_val show_level_curve iter_n w_err angle_start angle_end L.
    rewrite p_w_plot_run. simpl. unfold p_w_sweep. intros Hrun.
    apply p_w_sweep_lists in Hrun as (ws & Hws & Hp1 & Hp2 & Hw2).
    simpl in Hp1, Hp2, Hw2. subst ws. split; [done|]. split; [done|].
    eapply Forall2_impl; [exact Hws|]. intros [p1 p2] w. simpl.
    apply angle_point_Ok.
  - intros w_val show_level_curve iter_n w_err angle_start angle_end base
      Hbase iter Hobs.
    rewrite p_w_plot_run. simpl. unfold p_w_sweep. fold iter.
    apply p_w_sweep_completes; [done| |].
    + destruct iter; [by left|by right].
    + intros p1 p2 Hp1 Hp2. destruct (Hobs p1 p2 Hp1 Hp2) as (w & Hw & Hr).
      exists w. split; [|done]. apply angle_point_Ok. by exists base.
Qed.

(** C10. Neither [length_plot] nor [mass_plot] changes the object bound to
    [p]: whatever the sweep does and however it ends, the contents of the
    base parameter vector (all its entries) are afterwards what they were
    before, and so is every other object that existed before the sweep; the
    substitutions go to the copy, a new object. *)
Theorem sweeps_leave_base_parameters
    (odeint : rhs_fun → list R → list R → list R → R → R
              → outcome (list (list R)))
    (rhs : rhs_fun) (G : Nb.t) (flag : bool) (n : nat) (x_max : R)
    (σ : store) :
  let after_length := (length_plot odeint rhs flag n x_max G σ).2 in
  let after_mass := (mass_plot odeint rhs flag n x_max G σ).2 in
  after_length !! Nb.p G = σ !! Nb.p G ∧
  after_mass !! Nb.p G = σ !! Nb.p G ∧
  ∀ r, is_Some (σ !! r) →
       after_length !! r = σ !! r ∧ after_mass !! r = σ !! r.
Proof.
  assert (Hframe : ∀ σ' : store,
    (σ' = σ ∨ is_Some (σ !! Nb.p G) ∧ ∃ cur, σ' = <[fresh (dom σ) := cur]> σ) →
    σ' !! Nb.p G = σ !! Nb.p G ∧ ∀ r, is_Some (σ !! r) → σ' !! r = σ !! r).
  { intros σ' [->|(Hp & cur & ->)]; [done|].
    assert (Hfresh : ∀ r, is_Some (σ !! r) → fresh (dom σ) ≠ r).
    { intros r Hr Heq. apply (is_fresh (dom σ)). rewrite Heq.
      by apply elem_of_dom. }
    split; [|intros r Hr]; rewrite lookup_insert_ne; auto. }
  destruct (length_plot_run odeint rhs G flag n x_max σ) as (σ1 & -> & H1).
  destruct (mass_plot_run odeint rhs G flag n x_max σ) as (σ2 & -> & H2).
  simpl. destruct (Hframe σ1 H1) as (Hp1 & Hr1).
  destruct (Hframe σ2 H2) as (Hp2 & Hr2).
  split; [done|]. split; [done|]. intros r Hr. split; auto.
Qed.

(** ** Sweeps on a time grid of one sample *)

Lemma linspace_one (start stop : R) : linspace start stop 1 = [start].
Proof. unfold linspace. simpl. f_equal. ring. Qed.

Lemma odeint_hold_initial_row : returns_initial_row odeint_hold.
Proof. by intros rhs y0 t0 p atol rtol. Qed.

Lemma traverse_exists {A B : Type} (f : A → outcome B) (P : B → Prop)
    (xs : list A) :
  (∀ x, x ∈ xs → ∃ y, f x = Ok y ∧ P y) →
  ∃ ys, traverse f xs = Ok ys ∧ Forall P ys ∧ length ys = length xs.
Proof.
  induction xs as [|x xs IH]; intros Hall.
  - by exists [].
  - destruct (Hall x) as (y & Hy & HP); [by left|].
    destruct IH as (ys & Hys & HPs & Hlen); [intros ? ?; apply Hall; by right|].
    exists (y :: ys). simpl. rewrite Hy, Hys. simpl.
    split; [done|]. split; [by constructor|by rewrite Hlen].
Qed.

Lemma notebook_store_p : notebook_store !! 0%nat = Some [1; 1; 1; 1; 98/10].
Proof. apply lookup_singleton_eq. Qed.

Section SingleSample.

Variable odeint :
  rhs_fun → list R → list R → list R → R → R → outcome (list (list R)).
Hypothesis odeint_row : returns_initial_row odeint.
Variables (rhs : rhs_fun) (w : R).

(** With one sample the observable is minus the initial [omega2], whatever
    the right-hand side and the angles. *)
Lemma angle_point_single_sample (p1 p2 : R) :
  angle_point odeint rhs (single_sample_env w)
    (notebook_store !! Nb.p (single_sample_env w)) p1 p2 = Ok (- w).
Proof.
  unfold angle_point. change (Nb.p (single_sample_env w)) with 0%nat.
  rewrite notebook_store_p. simpl.
  rewrite odeint_row. simpl.
  apply crossing_observable_single_row. rewrite Rabs_R1. lra.
Qed.

Lemma length_point_single_sample (l : R) :
  Rabs l < 998 →
  length_point odeint rhs (single_sample_env w) true [1; 1; 1; 1; 98/10] l
    = Ok (Scalar (- w)).
Proof.
  intros Hl. unfold length_point, setitem_value. simpl.
  rewrite odeint_row. simpl.
  apply crossing_value_single_row. rewrite Rabs_R1. lra.
Qed.

Lemma length_plot_single_sample :
  (length_plot odeint rhs true 1 10 (single_sample_env w) notebook_store).1
  = Ok ([1/4], [Scalar (- w)]).
Proof.
  destruct (length_plot_run odeint rhs (single_sample_env w) true 1 10
              notebook_store) as (σ' & -> & _).
  change (Nb.p (single_sample_env w)) with 0%nat.
  rewrite notebook_store_p, linspace_one. simpl.
  rewrite length_point_single_sample; [done|].
  rewrite Rabs_pos_eq; lra.
Qed.

End SingleSample.

(** The theorem on what the sweeps record, at the notebook's parameters
    with one time sample and [w2 = -1]: every observable is 1, and the
    two-dimensional sweep completes with these values. *)
Lemma sweeps_record_negated_omega2_witness :
  ∃ L, (p_w_plot odeint_hold dp_rhs 3 false 2 (5/100) (PI/15) (PI/2)
          (single_sample_env (-1)) notebook_store).1 = Ok L ∧
       Forall2 (λ pt w, ∃ base,
                  notebook_store !! Nb.p (single_sample_env (-1)) = Some base ∧
                  angle_observed odeint_hold dp_rhs (single_sample_env (-1))
                    base pt.1 pt.2 w)
         (grid_rows (linspace (PI/15) (PI/2) 2) (linspace (PI/15) (PI/2) 2))
         (w2_list L).
Proof.
  destruct (sweeps_record_negated_omega2 odeint_hold dp_rhs
              (single_sample_env (-1)) notebook_store)
    as (_ & _ & Hlists & Hcompletes).
  destruct (Hcompletes 3 false 2%nat (5/100) (PI/15) (PI/2)
              [1; 1; 1; 1; 98/10] notebook_store_p) as (L & HL).
  - intros p1 p2 _ _. exists (- - 1). split; [|lra].
    pose proof (angle_point_single_sample odeint_hold odeint_hold_initial_row
                  dp_rhs (-1) p1 p2) as Hpt.
    apply angle_point_Ok in Hpt as (base & Hbase & Hobs).
    change (Nb.p (single_sample_env (-1))) with 0%nat in Hbase.
    rewrite notebook_store_p in Hbase. by injection Hbase as <-.
  - exists L. split; [done|].
    exact (proj2 (proj2 (Hlists _ _ _ _ _ _ L HL))).
Defined.

(** ** A grid point without a crossing index *)

Lemma column_length (k : nat) (m : list (list R)) (xs : list R) :
  column k m = Ok xs → length xs = length m.
Proof.
  revert xs. induction m as [|row m IH]; intros xs; simpl.
  - by intros [= <-].
  - destruct (getitem row k) as [x|]; simpl; [|done].
    destruct (column k m) as [xs'|]; simpl; [|done].
    intros [= <-]. simpl. by rewrite (IH xs').
Qed.

(** The columns of a trajectory that holds the state [y0]. *)
Lemma column_hold {X : Type} (k : nat) (y0 : list R) (x : R) (t : list X) :
  y0 !! k = Some x → column k ((λ _, y0) <$> t) = Ok ((λ _, x) <$> t).
Proof.
  intros Hk. induction t as [|t0 t IH]; [done|].
  rewrite !fmap_cons. cbn [column]. rewrite IH.
  unfold getitem. by rewrite Hk.
Qed.

Lemma dev_at_hold {X : Type} (la lb a c : R) (t : list X) (i : nat) :
  (i < length t)%nat →
  dev_at la lb ((λ _, a) <$> t) ((λ _, c) <$> t) i = deviation la lb a c.
Proof.
  intros Hi. unfold dev_at.
  destruct (lookup_lt_is_Some_2 t i Hi) as (t0 & Ht0).
  rewrite (nth_lookup_Some ((λ _, a) <$> t) i 0 a)
    by by rewrite list_lookup_fmap, Ht0.
  by rewrite (nth_lookup_Some ((λ _, c) <$> t) i 0 c)
    by by rewrite list_lookup_fmap, Ht0.
Qed.

Lemma crossing_value_on_columns (la lb : R) (v_sol : list (list R))
    (p1_arr p2_arr w2_arr : list R) :
  column 0 v_sol = Ok p1_arr → column 2 v_sol = Ok p2_arr →
  column 3 v_sol = Ok w2_arr →
  crossing_value la lb v_sol =
  t_index ← find_vertical la lb p1_arr p2_arr;
  x ← getitem_opt w2_arr t_index;
  Ok (neg x).
Proof. intros H0 H2 H3. unfold crossing_value. by rewrite H0, H2, H3. Qed.

(** Where every sample is 999 or more off the vertical, [find_vertical]
    returns [None] and [-w2_arr[None]] is the sign-negated series as a
    one-row array. *)
Lemma crossing_value_none (la lb : R) (v_sol : list (list R))
    (p1_arr p2_arr w2_arr : list R) :
  column 0 v_sol = Ok p1_arr → column 2 v_sol = Ok p2_arr →
  column 3 v_sol = Ok w2_arr →
  (∀ i, (i < length p1_arr)%nat → 999 <= dev_at la lb p1_arr p2_arr i) →
  crossing_value la lb v_sol = Ok (View (Ropp <$> w2_arr)).
Proof.
  intros H0 H2 H3 Hfar. rewrite (crossing_value_on_columns _ _ _ _ _ _ H0 H2 H3).
  destruct (find_vertical_spec la lb p1_arr p2_arr) as (r & -> & Hspec).
  { apply column_length in H0, H2. lia. }
  destruct r as [j|]; [|done].
  destruct Hspec as (Hj & Hnear & _). specialize (Hfar j Hj). lra.
Qed.

(** On a trajectory that holds its state: the first sample when the
    deviation is below 999, no index otherwise. *)
Lemma crossing_value_hold (la lb a b c d : R) (t : list R) :
  crossing_value la lb ((λ _, [a; b; c; d]) <$> t) =
  if Rlt_dec (deviation la lb a c) 999
  then match t with
       | [] => Ok (View [])
       | _ => Ok (Scalar (- d))
       end
  else Ok (View ((λ _, - d) <$> t)).
Proof.
  pose proof (column_hold 0 [a; b; c; d] a t eq_refl) as H0.
  pose proof (column_hold 2 [a; b; c; d] c t eq_refl) as H2.
  pose proof (column_hold 3 [a; b; c; d] d t eq_refl) as H3.
  destruct (Rlt_dec (deviation la lb a c) 999) as [Hnear|Hfar].
  - destruct t as [|t0 t]; [done|].
    rewrite (crossing_value_on_columns la lb _ _ _ _ H0 H2 H3).
    destruct (find_vertical_spec la lb ((λ _, a) <$> t0 :: t)
                ((λ _, c) <$> t0 :: t)) as (r & Hr & Hspec);
      [by rewrite !length_fmap|].
    rewrite length_fmap in Hspec.
    assert (r = Some 0%nat) as ->.
    { destruct r as [j|].
      - destruct Hspec as (Hj & _ & _ & Hfirst). f_equal.
        destruct j as [|j]; [done|]. specialize (Hfirst 0%nat ltac:(lia)).
        rewrite !dev_at_hold in Hfirst by (simpl in *; lia). lra.
      - specialize (Hspec 0%nat ltac:(simpl; lia)).
        rewrite dev_at_hold in Hspec by (simpl; lia). lra. }
    by rewrite Hr.
  - rewrite (crossing_value_none la lb _ _ _ _ H0 H2 H3).
    + by rewrite <- list_fmap_compose.
    + intros i Hi. rewrite length_fmap in Hi.
      rewrite dev_at_hold by done. lra.
Qed.

Lemma sin_PI4_bounds : 1/2 <= sin (PI/4) <= 1.
Proof.
  pose proof (sin2_cos2 (PI/4)) as Hsq. rewrite <- sin_cos_PI4 in Hsq.
  unfold Rsqr in Hsq.
  assert (0 < sin (PI/4)) by (apply sin_gt_0; pose proof PI_RGT_0; lra).
  split; nra.
Qed.

Lemma linspace_two (start stop : R) : linspace start stop 2 = [start; stop].
Proof. unfold linspace. simpl. f_equal; [ring|]. f_equal. field. Qed.

(** C7. The claim: at every grid point of every sweep the value appended is
    the sign-negated [omega2] component at the crossing index.  At a grid
    point of [length_plot] where every sample is 999 or more off the
    vertical there is no crossing index: [find_vertical] returns [None] and
    the value appended is the whole sign-negated [omega2] series as a
    one-row array; at such a point [p_w_plot] raises [ValueError] when the
    series has two samples or more.  With the notebook's values, an
    integrator that holds the initial state and lengths swept up to 4000,
    the sweep returns a number for [l = 0.25] and an array of 100 entries
    for [l = 4000]. *)
Theorem sweep_appends_series_where_no_index :
  (∀ (odeint : rhs_fun → list R → list R → list R → R → R
                → outcome (list (list R)))
      (rhs : rhs_fun) (G : Nb.t) (plot_l1 : bool) (base : list R) (l : R)
      args v_sol p1_arr p2_arr w2_arr,
     setitem_value base (if plot_l1 then 2 else 3)%nat l = Ok args →
     odeint rhs (Nb.IC G) (Nb.t_interval G) args (Nb.abserr G) (Nb.relerr G)
       = Ok v_sol →
     column 0 v_sol = Ok p1_arr → column 2 v_sol = Ok p2_arr →
     column 3 v_sol = Ok w2_arr →
     (∀ i, (i < length p1_arr)%nat →
           999 <= dev_at (if plot_l1 then l else Nb.l1 G)
                         (if plot_l1 then Nb.l2 G else l) p1_arr p2_arr i) →
     length_point odeint rhs G plot_l1 base l
       = Ok (View (Ropp <$> w2_arr))) ∧
  (∀ (odeint : rhs_fun → list R → list R → list R → R → R
                → outcome (list (list R)))
      (rhs : rhs_fun) (G : Nb.t) (base : list R) (p1 p2 : R)
      v_sol p1_arr p2_arr w2_arr,
     odeint rhs [p1; Nb.w1 G; p2; Nb.w2 G] (Nb.t_interval G) base
       (Nb.abserr G) (Nb.relerr G) = Ok v_sol →
     column 0 v_sol = Ok p1_arr → column 2 v_sol = Ok p2_arr →
     column 3 v_sol = Ok w2_arr →
     (∀ i, (i < length p1_arr)%nat →
           999 <= dev_at (Nb.l1 G) (Nb.l2 G) p1_arr p2_arr i) →
     (2 <= length w2_arr)%nat →
     angle_point odeint rhs G (Some base) p1 p2 = Raise ValueError) ∧
  (length_plot odeint_hold dp_rhs true 2 4000 notebook_env notebook_store).1
  = Ok ([1/4; 4000], [Scalar (- 0); View (replicate 100 (- 0))]).
Proof.
  split; [|split].
  - intros odeint rhs G plot_l1 base l args v_sol p1_arr p2_arr w2_arr
      Hargs Hsol H0 H2 H3 Hfar.
    unfold length_point. rewrite Hargs. simpl. rewrite Hsol. simpl.
    destruct plot_l1; by apply crossing_value_none with p1_arr p2_arr.
  - intros odeint rhs G base p1 p2 v_sol p1_arr p2_arr w2_arr
      Hsol H0 H2 H3 Hfar Hlen.
    unfold angle_point. simpl. rewrite Hsol. simpl.
    unfold crossing_observable.
    rewrite (crossing_value_none _ _ _ _ _ _ H0 H2 H3 Hfar). simpl.
    destruct w2_arr as [|x [|y w2_arr]]; simpl in *; [lia..|done].
  - destruct (length_plot_run odeint_hold dp_rhs notebook_env true 2 4000
                notebook_store) as (σ' & -> & _).
    change (Nb.p notebook_env) with 0%nat.
    rewrite notebook_store_p, linspace_two.
    pose proof sin_PI4_bounds as Hsin.
    assert (Hnear : deviation (1/4) 1 (PI/4) (PI/4) < 999).
    { unfold deviation. rewrite Rabs_pos_eq; lra. }
    assert (Hfar : ¬ deviation 4000 1 (PI/4) (PI/4) < 999).
    { unfold deviation. rewrite Rabs_pos_eq; lra. }
    assert (Hpt : ∀ l,
      length_point odeint_hold dp_rhs notebook_env true [1; 1; 1; 1; 98/10] l
      = crossing_value l 1
          ((λ _, [PI/4; 0; PI/4; 0]) <$> linspace 0 (PI/2) 100))
      by reflexivity.
    unfold traverse. rewrite !Hpt, !crossing_value_hold.
    destruct (Rlt_dec (deviation (1/4) 1 (PI/4) (PI/4)) 999); [|done].
    destruct (Rlt_dec (deviation 4000 1 (PI/4) (PI/4)) 999); [done|].
    reflexivity.
Qed.

(** ** Rows that the initial extrema do not fit *)

Section NegativeRow.

Variable obs : R → R → outcome R.
Variables (w_val : R) (show_level_curve : bool) (w_err : R).

(** A first row of negative observables: the running maximum stays at its
    initial 0, which is no element of the list searched for it. *)
Lemma p_w_sweep_negative_first_row (p1 : R) (rest iter_p2 : list R) :
  (∀ p2, p2 ∈ iter_p2 → ∃ w, obs p1 p2 = Ok w ∧ w < 0) →
  p_w_sweep obs w_val show_level_curve w_err (p1 :: rest) iter_p2
  = Raise ValueError.
Proof.
  intros Hneg. unfold p_w_sweep. simpl.
  assert (Hrow : pw_outer obs w_val show_level_curve w_err iter_p2 p1 pw_empty
                 = Raise ValueError); [|by rewrite Hrow].
  unfold pw_outer. rewrite pw_inner_loop.
  destruct (traverse_exists (obs p1) (λ w, w < 0) iter_p2 Hneg)
    as (ws & -> & Hws & Hlen).
  simpl.
  destruct (pw_append_points_lists (level_of w_val show_level_curve w_err)
    p1 iter_p2 ws pw_empty ltac:(done)) as (_ & _ & -> & _).
  simpl.
  assert (Hmax : running_max 0 ws = 0).
  { destruct (running_max_cases 0 ws) as [Heq|Hin]; [done|].
    rewrite Forall_forall in Hws. specialize (Hws _ Hin).
    pose proof (running_max_ge 0 ws). lra. }
  rewrite Hmax, (list_index_not_elem 0 ws); [done|].
  intros Hin. rewrite Forall_forall in Hws. specialize (Hws _ Hin). lra.
Qed.

End NegativeRow.

(** C3. The claim: for every row of the angle sweep [p_w_plot] records the
    row's maximum and minimum observable and the [phi2] at which each
    occurred, also for rows of negative observables.  With the notebook's
    parameters, an initial velocity [w2 = 1] and a time grid of one sample
    every observable is -1: the running maximum of the first row stays at
    its initial 0, [w2_list.index(0)] finds nothing, and the sweep ends in
    [ValueError] instead of recording -1. *)
Theorem p_w_plot_negative_row_raises
    (odeint : rhs_fun → list R → list R → list R → R → R
              → outcome (list (list R))) :
  returns_initial_row odeint →
  (p_w_plot odeint dp_rhs 3 false 2 (5/100) (PI/15) (PI/2)
     (single_sample_env 1) notebook_store).1 = Raise ValueError.
Proof.
  intros Hrow. rewrite p_w_plot_run. simpl fst.
  unfold linspace. simpl fmap.
  apply p_w_sweep_negative_first_row.
  intros p2 _. exists (- 1). split; [|lra].
  by apply angle_point_single_sample.
Qed.

Lemma p_w_plot_negative_row_raises_witness :
  (p_w_plot odeint_hold dp_rhs 3 false 2 (5/100) (PI/15) (PI/2)
     (single_sample_env 1) notebook_store).1 = Raise ValueError.
Proof.
  apply p_w_plot_negative_row_raises. exact odeint_hold_initial_row.
Defined.

(** ** What the sweeps depend on *)

(** C6, as the code has it. Each sweep driver is a function of its explicit
    arguments and of the module-level state it reads: the contents of [p],
    [t_interval], [abserr], [relerr], [l1], [l2], and besides [IC] for
    [length_plot] and [mass_plot], [w1] and [w2] for [p_w_plot]. Two runs
    that agree on these return the same result, whatever else differs in
    the module-level names and in the store. *)
Theorem sweeps_depend_only_on_what_they_read
    (odeint : rhs_fun → list R → list R → list R → R → R
              → outcome (list (list R)))
    (rhs : rhs_fun) (G1 G2 : Nb.t) (σ1 σ2 : store) :
  σ1 !! Nb.p G1 = σ2 !! Nb.p G2 →
  Nb.t_interval G1 = Nb.t_interval G2 →
  Nb.abserr G1 = Nb.abserr G2 → Nb.relerr G1 = Nb.relerr G2 →
  Nb.l1 G1 = Nb.l1 G2 → Nb.l2 G1 = Nb.l2 G2 →
  (Nb.IC G1 = Nb.IC G2 →
   ∀ flag n x_max,
     (length_plot odeint rhs flag n x_max G1 σ1).1
       = (length_plot odeint rhs flag n x_max G2 σ2).1 ∧
     (mass_plot odeint rhs flag n x_max G1 σ1).1
       = (mass_plot odeint rhs flag n x_max G2 σ2).1) ∧
  (Nb.w1 G1 = Nb.w1 G2 → Nb.w2 G1 = Nb.w2 G2 →
   ∀ w_val show_level_curve iter_n w_err angle_start angle_end,
     (p_w_plot odeint rhs w_val show_level_curve iter_n w_err
        angle_start angle_end G1 σ1).1
     = (p_w_plot odeint rhs w_val show_level_curve iter_n w_err
          angle_start angle_end G2 σ2).1).
Proof.
  intros Hp Ht Ha Hr Hl1 Hl2. split.
  - intros HIC flag n x_max.
    destruct (length_plot_run odeint rhs G1 flag n x_max σ1) as (? & -> & _).
    destruct (length_plot_run odeint rhs G2 flag n x_max σ2) as (? & -> & _).
    destruct (mass_plot_run odeint rhs G1 flag n x_max σ1) as (? & -> & _).
    destruct (mass_plot_run odeint rhs G2 flag n x_max σ2) as (? & -> & _).
    simpl. rewrite Hp. unfold length_point, mass_point.
    by rewrite Ht, Ha, Hr, Hl1, Hl2, HIC.
  - intros Hw1 Hw2 w_val show_level_curve iter_n w_err angle_start angle_end.
    rewrite !p_w_plot_run. simpl. rewrite Hp. unfold angle_point.
    by rewrite Ht, Ha, Hr, Hl1, Hl2, Hw1, Hw2.
Qed.

Lemma sweeps_depend_only_on_what_they_read_witness :
  (length_plot odeint_hold dp_rhs true 3 10 notebook_env notebook_store).1
  = (length_plot odeint_hold dp_rhs true 3 10 notebook_env
       (<[7%nat := [5]]> notebook_store)).1 ∧
  (p_w_plot odeint_hold dp_rhs 3 false 2 (5/100) (PI/15) (PI/2)
     notebook_env notebook_store).1
  = (p_w_plot odeint_hold dp_rhs 3 false 2 (5/100) (PI/15) (PI/2)
       notebook_env (<[7%nat := [5]]> notebook_store)).1.
Proof.
  destruct (sweeps_depend_only_on_what_they_read odeint_hold dp_rhs
              notebook_env notebook_env notebook_store
              (<[7%nat := [5]]> notebook_store))
    as [Hsweeps Hangles]; try reflexivity.
  split.
  - exact (proj1 (Hsweeps eq_refl true 3%nat 10)).
  - exact (Hangles eq_refl eq_refl 3 false 2%nat (5/100) (PI/15) (PI/2)).
Defined.

(** C6, as claimed, fails: the same explicit arguments with two values of
    the module-level [IC] give [length_plot] two results, and with two
    values of the module-level [w2] they give [p_w_plot] two results.  The
    integrator is [odeint_hold] here; on this time grid every integrator
    that returns the initial row gives the same
    ([length_plot_single_sample], [angle_point_single_sample]). *)
Lemma sweep_results_vary_with_module_state :
  (length_plot odeint_hold dp_rhs true 1 10
     (single_sample_env 0) notebook_store).1
  ≠ (length_plot odeint_hold dp_rhs true 1 10
       (single_sample_env 1) notebook_store).1
  ∧
  (p_w_plot odeint_hold dp_rhs 3 false 1 (5/100) (PI/15) (PI/2)
     (single_sample_env (-1)) notebook_store).1
  ≠ (p_w_plot odeint_hold dp_rhs 3 false 1 (5/100) (PI/15) (PI/2)
       (single_sample_env 1) notebook_store).1.
Proof.
  split.
  - rewrite !length_plot_single_sample by exact odeint_hold_initial_row.
    intros [= H]. lra.
  - rewrite !p_w_plot_run. simpl fst. rewrite linspace_one.
    assert (Hneg :
      p_w_sweep (angle_point odeint_hold dp_rhs (single_sample_env 1)
                   (notebook_store !! Nb.p (single_sample_env 1)))
        3 false (5/100) [PI/15] [PI/15] = Raise ValueError).
    { apply p_w_sweep_negative_first_row.
      intros p2 _. exists (- 1). split; [|lra].
      by apply angle_point_single_sample, odeint_hold_initial_row. }
    destruct (p_w_sweep_completes
      (angle_point odeint_hold dp_rhs (single_sample_env (-1))
         (notebook_store !! Nb.p (single_sample_env (-1))))
      3 false (5/100) [PI/15] [PI/15] pw_empty) as (L & Hpos);
      [done|by right| |].
    { intros p1 p2 _ _. exists (- - 1). split; [|lra].
      by apply angle_point_single_sample, odeint_hold_initial_row. }
    unfold p_w_sweep in *. simpl Nb.p in *. rewrite Hneg, Hpos. done.
Qed.

(** ** The small-angle equations as the linearization of [dp_rhs] *)

(** The two symbolic formulas are the ones [dp_rhs] evaluates. *)
Lemma dp_rhs_terms (p1 w1 p2 w2 m1 m2 l1 l2 g t : R) :
  dp_rhs [p1; w1; p2; w2] t [m1; m2; l1; l2; g] =
  let w1_dot :=
    Sym.denote (Sym.env_of p1 w1 p2 w2 m1 m2 l1 l2 g 0) Sym.w1_dot_term in
  let w2_dot :=
    Sym.denote (Sym.env_of p1 w1 p2 w2 m1 m2 l1 l2 g w1_dot)
      Sym.w2_dot_term in
  Ok [w1; w1_dot; w2; w2_dot].
Proof. reflexivity. Qed.

(** Derivatives of functions written pointwise. *)
Section Derivatives.

Implicit Types (f g : R → R) (x a b : R).

Lemma D_const a x : derivable_pt_lim (λ _, a) x 0.
Proof. exact (derivable_pt_lim_const a x). Qed.

Lemma D_id x : derivable_pt_lim (λ s, s) x 1.
Proof. exact (derivable_pt_lim_id x). Qed.

Lemma D_plus f g x a b :
  derivable_pt_lim f x a → derivable_pt_lim g x b →
  derivable_pt_lim (λ s, f s + g s) x (a + b).
Proof. exact (derivable_pt_lim_plus f g x a b). Qed.

Lemma D_minus f g x a b :
  derivable_pt_lim f x a → derivable_pt_lim g x b →
  derivable_pt_lim (λ s, f s - g s) x (a - b).
Proof. exact (derivable_pt_lim_minus f g x a b). Qed.

Lemma D_opp f x a :
  derivable_pt_lim f x a → derivable_pt_lim (λ s, - f s) x (- a).
Proof. exact (derivable_pt_lim_opp f x a). Qed.

Lemma D_mult f g x a b :
  derivable_pt_lim f x a → derivable_pt_lim g x b →
  derivable_pt_lim (λ s, f s * g s) x (a * g x + f x * b).
Proof. exact (derivable_pt_lim_mult f g x a b). Qed.

Lemma D_div f g x a b :
  derivable_pt_lim f x a → derivable_pt_lim g x b → g x ≠ 0 →
  derivable_pt_lim (λ s, f s / g s) x ((a * g x - b * f x) / Rsqr (g x)).
Proof. exact (derivable_pt_lim_div f g x a b). Qed.

Lemma D_sin f x a :
  derivable_pt_lim f x a →
  derivable_pt_lim (λ s, sin (f s)) x (cos (f x) * a).
Proof.
  intros Hf. exact (derivable_pt_lim_comp f sin x a (cos (f x)) Hf
                      (derivable_pt_lim_sin (f x))).
Qed.

Lemma D_cos f x a :
  derivable_pt_lim f x a →
  derivable_pt_lim (λ s, cos (f s)) x (- sin (f x) * a).
Proof.
  intros Hf. exact (derivable_pt_lim_comp f cos x a (- sin (f x)) Hf
                      (derivable_pt_lim_cos (f x))).
Qed.

Lemma D_value f x a b :
  derivable_pt_lim f x a → a = b → derivable_pt_lim f x b.
Proof. by intros Hf <-. Qed.

End Derivatives.

Ltac derive_step :=
  lazymatch goal with
  | |- derivable_pt_lim (fun _ => ?c) _ _ => apply D_const
  | |- derivable_pt_lim (fun s => s) _ _ => apply D_id
  | |- derivable_pt_lim (fun s => @?f s + @?g s) _ _ => eapply (D_plus f g)
  | |- derivable_pt_lim (fun s => @?f s - @?g s) _ _ => eapply (D_minus f g)
  | |- derivable_pt_lim (fun s => @?f s * @?g s) _ _ => eapply (D_mult f g)
  | |- derivable_pt_lim (fun s => @?f s / @?g s) _ _ => eapply (D_div f g)
  | |- derivable_pt_lim (fun s => - @?f s) _ _ => eapply (D_opp f)
  | |- derivable_pt_lim (fun s => sin (@?f s)) _ _ => eapply (D_sin f)
  | |- derivable_pt_lim (fun s => cos (@?f s)) _ _ => eapply (D_cos f)
  end.

Section Linearization.

Variables (p1 w1 p2 w2 m1 m2 l1 l2 g t : R).
Hypotheses (Hm1 : 0 < m1) (Hm2 : 0 < m2) (Hl1 : 0 < l1) (Hl2 : 0 < l2)
  (Hg : 0 < g).

Let v : list R := [p1; w1; p2; w2].
Let p : list R := [m1; m2; l1; l2; g].

Lemma sa_dp_rhs_closed_form :
  let a1 := g * (m2*p2 - (m1+m2)*p1) / (m1*l1) in
  sa_dp_rhs v t p = Ok [w1; a1; w2; -(g*p2 + l1*a1)/l2].
Proof.
  unfold v, p. rewrite sa_dp_rhs_nonzero by lra. simpl.
  assert (Ha1 : g * l1 * (m2 * p2 - (m1 + m2) * p1) / (m1 * l1 * l1)
                = g * (m2 * p2 - (m1 + m2) * p1) / (m1 * l1))
    by (field; lra).
  by rewrite Ha1.
Qed.

Lemma dp_rhs_small_angle_is_sa_dp_rhs :
  dp_rhs_small_angle v t p = sa_dp_rhs v t p.
Proof.
  unfold v, p. rewrite sa_dp_rhs_nonzero by lra. unfold dp_rhs_small_angle.
  unfold Sym.linearize, Sym.w1_dot_term, Sym.w2_dot_term.
  cbn [Sym.small_angle Sym.drop_quadratic Sym.velocity_degree Sym.denote
       Sym.env_of Nat.max Nat.add decide decide_rel].
  simpl.
  do 2 f_equal. f_equal; [field; repeat split; nra|].
  do 2 f_equal. field. repeat split; nra.
Qed.

Lemma dp_rhs_at_origin : dp_rhs [0; 0; 0; 0] t p = Ok [0; 0; 0; 0].
Proof.
  unfold dp_rhs, p. rewrite !Rminus_0_r, sin_0, cos_0.
  do 2 f_equal. f_equal; [field; repeat split; nra|].
  do 2 f_equal. field. repeat split; nra.
Qed.

Lemma dp_rhs_derivative_at_origin (i : nat) :
  derivable_pt_lim (λ s, component i (dp_rhs (scale s v) t p)) 0
    (component i (sa_dp_rhs v t p)).
Proof.
  assert (HD : (m1 + m2) * l1
               - m2 * l1 * (cos (0 * p1 - 0 * p2) * cos (0 * p1 - 0 * p2))
               ≠ 0).
  { rewrite !Rmult_0_l, Rminus_0_r, cos_0. nra. }
  assert (Hl2' : l2 ≠ 0) by lra.
  unfold v, p. rewrite sa_dp_rhs_nonzero by lra.
  unfold component, scale, dp_rhs.
  destruct i as [|[|[|[|i]]]]; simpl.
  - eapply D_value; [repeat derive_step|]. ring.
  - eapply D_value; [repeat derive_step; exact HD|].
    cbv beta. rewrite !Rmult_0_l, !Rminus_0_r, !sin_0, !cos_0.
    unfold Rsqr. field. repeat split; nra.
  - eapply D_value; [repeat derive_step|]. ring.
  - eapply D_value; [repeat derive_step; first [exact HD|exact Hl2']|].
    cbv beta. rewrite !Rmult_0_l, !Rminus_0_r, !sin_0, !cos_0.
    unfold Rsqr. field. repeat split; nra.
  - destruct i; apply D_const.
Qed.

End Linearization.

(** C5. For positive parameters the small-angle right-hand side is the
    first-order linearization of [dp_rhs] at the origin: its accelerations
    are [omega1_dot = g*(m2*phi2 - (m1+m2)*phi1)/(m1*l1)] and
    [omega2_dot = -(g*phi2 + l1*omega1_dot)/l2]; replacing [sin(x)] by [x]
    and [cos(x)] by 1 in the formulas of [dp_rhs] and dropping the terms
    quadratic in the velocities yields exactly these derivatives, the reuse
    of [omega1_dot] inside [omega2_dot] included; and [dp_rhs] vanishes at
    the origin and has, along every direction [v], the derivative
    [sa_dp_rhs v] there. *)
Theorem sa_dp_rhs_linearizes_dp_rhs (p1 w1 p2 w2 m1 m2 l1 l2 g t : R) :
  0 < m1 → 0 < m2 → 0 < l1 → 0 < l2 → 0 < g →
  let v := [p1; w1; p2; w2] in
  let p := [m1; m2; l1; l2; g] in
  let omega1_dot := g * (m2*p2 - (m1+m2)*p1) / (m1*l1) in
  sa_dp_rhs v t p = Ok [w1; omega1_dot; w2; -(g*p2 + l1*omega1_dot)/l2] ∧
  dp_rhs_small_angle v t p = sa_dp_rhs v t p ∧
  dp_rhs [0; 0; 0; 0] t p = Ok [0; 0; 0; 0] ∧
  ∀ i, derivable_pt_lim (λ s, component i (dp_rhs (scale s v) t p)) 0
         (component i (sa_dp_rhs v t p)).
Proof.
  intros Hm1 Hm2 Hl1 Hl2 Hg v p omega1_dot.
  split; [by apply sa_dp_rhs_closed_form|].
  split; [by apply dp_rhs_small_angle_is_sa_dp_rhs|].
  split; [by apply dp_rhs_at_origin|].
  intros i. by apply dp_rhs_derivative_at_origin.
Qed.

Lemma sa_dp_rhs_linearizes_dp_rhs_witness :
  let v := [1/10; 0; 2/10; 0] in
  let p := [1; 1; 1; 1; 98/10] in
  let omega1_dot := 98/10 * (1*(2/10) - (1+1)*(1/10)) / (1*1) in
  sa_dp_rhs v 0 p
    = Ok [0; omega1_dot; 0; -(98/10*(2/10) + 1*omega1_dot)/1] ∧
  dp_rhs_small_angle v 0 p = sa_dp_rhs v 0 p ∧
  dp_rhs [0; 0; 0; 0] 0 p = Ok [0; 0; 0; 0] ∧
  ∀ i, derivable_pt_lim (λ s, component i (dp_rhs (scale s v) 0 p)) 0
         (component i (sa_dp_rhs v 0 p)).
Proof. apply sa_dp_rhs_linearizes_dp_rhs; lra. Defined.

(** ** A companion angle taken from an earlier row *)

(** Comparisons of concrete reals, settled by [lra]. *)
Ltac decide_reals :=
  repeat match goal with
  | |- context [Req_dec_T ?a ?b] =>
      first [ assert (a = b) by lra; destruct (Req_dec_T a b); [|done]
            | assert (a ≠ b) by lra; destruct (Req_dec_T a b); [done|] ]
  | |- context [Rlt_dec ?a ?b] =>
      first [ assert (a < b) by lra; destruct (Rlt_dec a b); [|done]
            | assert (¬ a < b) by lra; destruct (Rlt_dec a b); [done|] ]
  | |- context [Rgt_dec ?a ?b] =>
      first [ assert (a > b) by lra; destruct (Rgt_dec a b); [|done]
            | assert (¬ a > b) by lra; destruct (Rgt_dec a b); [done|] ]
  end.

(** The second row, [p1 = 1], has its maximum 5 at [p2 = 1] and the value 2
    at [p2 = 0]; the look-up [p2_list[w2_list.index(5)]] goes through the
    flat lists, finds the 5 of the first row, and records [p2 = 0]. *)
Lemma p_w_sweep_companion_from_earlier_row :
  table_obs 1 0 = Ok 2 ∧ table_obs 1 1 = Ok 5 ∧
  ∃ L, p_w_sweep table_obs 3 false (5/100) [0; 1] [0; 1] = Ok L ∧
       max_w2_list L = [5; 5] ∧ max_p2_list L = [0; 0].
Proof.
  unfold table_obs.
  split; [decide_reals; done|]. split; [decide_reals; done|].
  eexists. split; [|split].
  - unfold p_w_sweep, pw_outer, pw_inner, pw_append_point, getitem. simpl.
    decide_reals. simpl. decide_reals. reflexivity.
  - reflexivity.
  - reflexivity.
Qed.

(** * Further properties of the notebook's functions *)

(** ** The right-hand sides: unpacking, symmetries, rest states *)

Lemma rhs_unpack_cases (v : list R) (t : R) (p : list R) :
  (∃ p1 w1 p2 w2 m1 m2 l1 l2 g,
     v = [p1; w1; p2; w2] ∧ p = [m1; m2; l1; l2; g]) ∨
  (¬ (length v = 4%nat ∧ length p = 5%nat) ∧
   dp_rhs v t p = Raise ValueError ∧ sa_dp_rhs v t p = Raise ValueError).
Proof.
  destruct v as [|? [|? [|? [|? [|? ?]]]]];
    destruct p as [|? [|? [|? [|? [|? [|? ?]]]]]];
    first [ left; by eauto 12
          | right; split; [intros [? ?]; simpl in *; lia|by split] ].
Qed.

(** On a state of four entries and a parameter vector of five,
    [sa_dp_rhs] returns a vector when [m1], [l1] and [l2] are non-zero and
    raises [ZeroDivisionError] otherwise. *)
Lemma sa_dp_rhs_cases (p1 w1 p2 w2 m1 m2 l1 l2 g t : R) :
  (m1 ≠ 0 ∧ l1 ≠ 0 ∧ l2 ≠ 0 ∧
   ∃ a1 a2,
     sa_dp_rhs [p1; w1; p2; w2] t [m1; m2; l1; l2; g] = Ok [w1; a1; w2; a2]) ∨
  ((m1 = 0 ∨ l1 = 0 ∨ l2 = 0) ∧
   sa_dp_rhs [p1; w1; p2; w2] t [m1; m2; l1; l2; g]
     = Raise ZeroDivisionError).
Proof.
  destruct (Req_dec_T m1 0) as [Hm1|Hm1]; [right|].
  { split; [by left|]. unfold sa_dp_rhs.
    rewrite truediv_zero; [done|]. subst m1. ring. }
  destruct (Req_dec_T l1 0) as [Hl1|Hl1]; [right|].
  { split; [right; by left|]. unfold sa_dp_rhs.
    rewrite truediv_zero; [done|]. subst l1. ring. }
  destruct (Req_dec_T l2 0) as [Hl2|Hl2]; [right|left].
  - split; [right; by right|]. unfold sa_dp_rhs.
    rewrite truediv_Ok
      by (repeat apply Rmult_integral_contrapositive_currified; done).
    simpl. by rewrite truediv_zero.
  - rewrite sa_dp_rhs_nonzero by done. by eauto 6.
Qed.

(** X1. The outcomes of the right-hand sides by the shape of their
    arguments.  [dp_rhs] and [sa_dp_rhs] raise the [ValueError] of the
    unpacking exactly when the state has not four entries or the parameter
    vector not five.  [sa_dp_rhs] raises [ZeroDivisionError] exactly when
    the shapes are right and [m1], [l1] or [l2] is zero.  They raise nothing
    else, and a returned vector has four entries. *)
Theorem rhs_needs_four_and_five (v : list R) (t : R) (p : list R) :
  (dp_rhs v t p = Raise ValueError ↔ ¬ (length v = 4%nat ∧ length p = 5%nat)) ∧
  (sa_dp_rhs v t p = Raise ValueError
     ↔ ¬ (length v = 4%nat ∧ length p = 5%nat)) ∧
  (sa_dp_rhs v t p = Raise ZeroDivisionError
     ↔ length v = 4%nat ∧ length p = 5%nat ∧
       (p !! 0%nat = Some 0 ∨ p !! 2%nat = Some 0 ∨ p !! 3%nat = Some 0)) ∧
  (∀ d, dp_rhs v t p = Ok d ∨ sa_dp_rhs v t p = Ok d → length d = 4%nat) ∧
  (∀ e, dp_rhs v t p = Raise e → e = ValueError) ∧
  (∀ e, sa_dp_rhs v t p = Raise e → e = ValueError ∨ e = ZeroDivisionError).
Proof.
  destruct (rhs_unpack_cases v t p)
    as [(p1 & w1 & p2 & w2 & m1 & m2 & l1 & l2 & g & -> & ->)
       |(Hshape & Hdp & Hsa)].
  - split; [split; [done|intros H; exfalso; by apply H]|].
    destruct (sa_dp_rhs_cases p1 w1 p2 w2 m1 m2 l1 l2 g t)
      as [(Hm1 & Hl1 & Hl2 & a1 & a2 & ->)|(Hzero & ->)].
    + split; [split; [done|intros H; exfalso; by apply H]|].
      split.
      { split; [done|]. simpl.
        intros (_ & _ & [[= ?]|[[= ?]|[= ?]]]); done. }
      split; [intros d [[= <-]|[= <-]]; done|].
      split; by intros e.
    + split; [split; [done|intros H; exfalso; by apply H]|].
      split.
      { split; [|done]. intros _. simpl. split; [done|]. split; [done|].
        destruct Hzero as [->|[->| ->]]; auto. }
      split; [intros d [[= <-]|?]; done|].
      split; [by intros e|]. intros e [= <-]. by right.
  - rewrite Hdp, Hsa. split; [done|]. split; [done|].
    split; [split; [done|intros (Hv & Hp & _); exfalso; by apply Hshape]|].
    split; [by intros d [?|?]|].
    split; [by intros e [= <-]|]. intros e [= <-]. by left.
Qed.

(** The denominator of [w1_dot] in [dp_rhs] is at least [m1*l1]. *)
Lemma dp_rhs_denominator_positive (m1 m2 l1 x : R) :
  0 < m1 → 0 < m2 → 0 < l1 →
  m1 * l1 <= (m1+m2)*l1 - m2*l1*(cos x * cos x).
Proof.
  intros Hm1 Hm2 Hl1.
  assert (Hc : cos x * cos x <= 1).
  { pose proof (sin2_cos2 x) as H. unfold Rsqr in H.
    pose proof (Rle_0_sqr (sin x)) as Hs. unfold Rsqr in Hs. lra. }
  assert (0 <= m2 * l1 * (1 - cos x * cos x)) by (apply Rmult_le_pos; nra).
  lra.
Qed.

(** X2. Mirror symmetry: mirroring the state (all four components negated)
    mirrors the derivative [dp_rhs] returns. *)
Theorem dp_rhs_mirror (p1 w1 p2 w2 m1 m2 l1 l2 g t : R) :
  ∃ d, dp_rhs [p1; w1; p2; w2] t [m1; m2; l1; l2; g] = Ok d ∧
       dp_rhs [- p1; - w1; - p2; - w2] t [m1; m2; l1; l2; g]
         = Ok (Ropp <$> d).
Proof.
  eexists. split; [reflexivity|]. unfold dp_rhs. simpl.
  replace (- p1 - - p2) with (- (p1 - p2)) by ring.
  rewrite !sin_neg, !cos_neg.
  do 2 f_equal. f_equal; [unfold Rdiv; ring|].
  do 2 f_equal. unfold Rdiv. ring.
Qed.

(** X3. Reversing both velocities leaves the accelerations that [dp_rhs] and
    [sa_dp_rhs] return unchanged and negates the two angle derivatives: the
    equations are those of a motion that can be run backwards.  Where
    [sa_dp_rhs] raises, it raises the same exception on the reversed
    state. *)
Theorem rhs_velocity_reversal (p1 w1 p2 w2 m1 m2 l1 l2 g t : R) :
  (∃ a1 a2,
     dp_rhs [p1; w1; p2; w2] t [m1; m2; l1; l2; g] = Ok [w1; a1; w2; a2] ∧
     dp_rhs [p1; - w1; p2; - w2] t [m1; m2; l1; l2; g]
       = Ok [- w1; a1; - w2; a2]) ∧
  match sa_dp_rhs [p1; w1; p2; w2] t [m1; m2; l1; l2; g] with
  | Ok d =>
      ∃ a1 a2,
        d = [w1; a1; w2; a2] ∧
        sa_dp_rhs [p1; - w1; p2; - w2] t [m1; m2; l1; l2; g]
          = Ok [- w1; a1; - w2; a2]
  | Raise e =>
      sa_dp_rhs [p1; - w1; p2; - w2] t [m1; m2; l1; l2; g] = Raise e
  end.
Proof.
  split.
  - eexists _, _. split; [reflexivity|].
    unfold dp_rhs. do 2 f_equal. f_equal; [unfold Rdiv; ring|].
    do 2 f_equal. unfold Rdiv. ring.
  - unfold sa_dp_rhs.
    destruct (truediv _ (m1 * l1 * l1)) as [a1|e]; simpl; [|done].
    destruct (truediv _ l2) as [a2|e]; simpl; [|done].
    by exists a1, a2.
Qed.

(** X4. For positive parameters the states at which [dp_rhs] returns the
    zero vector are exactly the rest states with both arms vertical (up or
    down): both velocities zero and [sin p1 = sin p2 = 0]. *)
Theorem dp_rhs_fixed_points (p1 w1 p2 w2 m1 m2 l1 l2 g t : R) :
  0 < m1 → 0 < m2 → 0 < l1 → 0 < l2 → 0 < g →
  dp_rhs [p1; w1; p2; w2] t [m1; m2; l1; l2; g] = Ok [0; 0; 0; 0] ↔
  w1 = 0 ∧ w2 = 0 ∧ sin p1 = 0 ∧ sin p2 = 0.
Proof.
  intros Hm1 Hm2 Hl1 Hl2 Hg.
  pose proof (dp_rhs_denominator_positive m1 m2 l1 (p1 - p2) Hm1 Hm2 Hl1)
    as HD.
  assert (HD' : (m1+m2)*l1 - m2*l1*(cos (p1-p2) * cos (p1-p2)) ≠ 0) by nra.
  unfold dp_rhs. split.
  - intros Heq. injection Heq as Hw1 Ha1 Hw2 Ha2. subst w1 w2.
    rewrite Ha1 in Ha2.
    assert (Hs2 : sin p2 = 0).
    { assert (H : g * sin p2 = 0).
      { apply (Rmult_eq_compat_r l2) in Ha2.
        field_simplify in Ha2; [|lra]. lra. }
      apply Rmult_integral in H as [?|?]; [lra|done]. }
    split; [done|]. split; [done|]. split; [|done].
    apply (Rmult_eq_compat_r
             ((m1+m2)*l1 - m2*l1*(cos (p1-p2) * cos (p1-p2)))) in Ha1.
    unfold Rdiv in Ha1. rewrite Rmult_assoc, Rinv_l in Ha1 by done.
    rewrite Hs2 in Ha1.
    assert (H : (m1 + m2) * g * sin p1 = 0) by lra.
    apply Rmult_integral in H as [H|?]; [|done].
    apply Rmult_integral in H as [?|?]; lra.
  - intros (-> & -> & Hs1 & Hs2). rewrite Hs1, Hs2.
    do 2 f_equal. f_equal; [unfold Rdiv; ring|].
    do 2 f_equal. unfold Rdiv. ring.
Qed.

Lemma dp_rhs_fixed_points_witness :
  dp_rhs [PI; 0; 0; 0] 0 [1; 1; 1; 1; 98/10] = Ok [0; 0; 0; 0] ↔
  0 = 0 ∧ 0 = 0 ∧ sin PI = 0 ∧ sin 0 = 0.
Proof. apply dp_rhs_fixed_points; lra. Defined.

(** For positive parameters the two divisions of [dp_rhs] are by non-zero
    numbers. *)
Lemma dp_rhs_accelerations (p1 w1 p2 w2 m1 m2 l1 l2 g t : R) :
  0 < m1 → 0 < m2 → 0 < l1 → 0 < l2 →
  ∃ a1 a2,
    dp_rhs [p1; w1; p2; w2] t [m1; m2; l1; l2; g] = Ok [w1; a1; w2; a2] ∧
    0 < m1 * l1 <= (m1+m2)*l1 - m2*l1*(cos (p1-p2) * cos (p1-p2)) ∧
    ((m1+m2)*l1 - m2*l1*(cos (p1-p2) * cos (p1-p2))) * a1
      = -(m1+m2)*g*sin p1 - m2*l2*w2*w2*sin (p1-p2)
        - m2*cos (p1-p2)*l1*w1*w1*sin (p1-p2) + m2*g*cos (p1-p2)*sin p2 ∧
    l2 * a2 = l1*w1*w1*2*sin (p1-p2) - g*sin p2 - l1*a1*cos (p1-p2).
Proof.
  intros Hm1 Hm2 Hl1 Hl2.
  pose proof (dp_rhs_denominator_positive m1 m2 l1 (p1 - p2) Hm1 Hm2 Hl1)
    as HD.
  eexists _, _. split; [reflexivity|]. split; [split; [nra|done]|].
  split; field; nra.
Qed.

(** X5. For positive parameters [dp_rhs] has no singular state: the
    denominator of [w1_dot] is at least [m1*l1] everywhere, so the returned
    accelerations solve the two equations the divisions come from. *)
Theorem dp_rhs_regular (p1 w1 p2 w2 m1 m2 l1 l2 g t : R) :
  0 < m1 → 0 < m2 → 0 < l1 → 0 < l2 →
  ∃ a1 a2,
    dp_rhs [p1; w1; p2; w2] t [m1; m2; l1; l2; g] = Ok [w1; a1; w2; a2] ∧
    0 < m1 * l1 <= (m1+m2)*l1 - m2*l1*(cos (p1-p2) * cos (p1-p2)) ∧
    ((m1+m2)*l1 - m2*l1*(cos (p1-p2) * cos (p1-p2))) * a1
      = -(m1+m2)*g*sin p1 - m2*l2*w2*w2*sin (p1-p2)
        - m2*cos (p1-p2)*l1*w1*w1*sin (p1-p2) + m2*g*cos (p1-p2)*sin p2 ∧
    l2 * a2 = l1*w1*w1*2*sin (p1-p2) - g*sin p2 - l1*a1*cos (p1-p2).
Proof.
  intros Hm1 Hm2 Hl1 Hl2.
  pose proof (dp_rhs_denominator_positive m1 m2 l1 (p1 - p2) Hm1 Hm2 Hl1)
    as HD.
  eexists _, _. split; [reflexivity|]. split; [split; [nra|done]|].
  split; field; nra.
Qed.

Lemma dp_rhs_regular_witness :
  ∃ a1 a2,
    dp_rhs [PI/2; 1; 0; 0] 0 [1; 1; 1; 1; 98/10] = Ok [1; a1; 0; a2] ∧
    0 < 1 * 1 <= (1+1)*1 - 1*1*(cos (PI/2-0) * cos (PI/2-0)) ∧
    ((1+1)*1 - 1*1*(cos (PI/2-0) * cos (PI/2-0))) * a1
      = -(1+1)*(98/10)*sin (PI/2) - 1*1*0*0*sin (PI/2-0)
        - 1*cos (PI/2-0)*1*1*1*sin (PI/2-0)
        + 1*(98/10)*cos (PI/2-0)*sin 0 ∧
    1 * a2 = 1*1*1*2*sin (PI/2-0) - 98/10*sin 0 - 1*a1*cos (PI/2-0).
Proof. apply dp_rhs_regular; lra. Defined.

(** X6. For non-zero [m1], [l1], [l2], [sa_dp_rhs] is linear in the state:
    the derivative of a linear combination of two states is the same
    combination of their derivatives. *)
Theorem sa_dp_rhs_linear (a b : R) (x y : list R) (m1 m2 l1 l2 g t : R) :
  m1 ≠ 0 → l1 ≠ 0 → l2 ≠ 0 →
  length x = 4%nat → length y = 4%nat →
  ∃ dx dy,
    sa_dp_rhs x t [m1; m2; l1; l2; g] = Ok dx ∧
    sa_dp_rhs y t [m1; m2; l1; l2; g] = Ok dy ∧
    sa_dp_rhs (zip_with (λ u v, a * u + b * v) x y) t [m1; m2; l1; l2; g]
      = Ok (zip_with (λ u v, a * u + b * v) dx dy).
Proof.
  intros Hm1 Hl1 Hl2 Hx Hy.
  destruct x as [|x1 [|x2 [|x3 [|x4 [|? ?]]]]]; try done.
  destruct y as [|y1 [|y2 [|y3 [|y4 [|? ?]]]]]; try done.
  eexists _, _.
  split; [by apply sa_dp_rhs_nonzero|]. split; [by apply sa_dp_rhs_nonzero|].
  cbn [zip_with]. rewrite sa_dp_rhs_nonzero by done. simpl.
  do 2 f_equal. f_equal; [field; by repeat split|].
  do 2 f_equal. field. by repeat split.
Qed.

Lemma sa_dp_rhs_linear_witness :
  ∃ dx dy,
    sa_dp_rhs [1; 0; 0; 0] 0 [1; 1; 1; 1; 98/10] = Ok dx ∧
    sa_dp_rhs [0; 0; 1; 0] 0 [1; 1; 1; 1; 98/10] = Ok dy ∧
    sa_dp_rhs (zip_with (λ u v, 2 * u + 3 * v) [1; 0; 0; 0] [0; 0; 1; 0]) 0
      [1; 1; 1; 1; 98/10]
      = Ok (zip_with (λ u v, 2 * u + 3 * v) dx dy).
Proof. apply sa_dp_rhs_linear; (lra || reflexivity). Defined.

Lemma lagrange_of_sa_dp_rhs (p1 w1 p2 w2 m1 m2 l1 l2 g t : R) :
  m1 ≠ 0 → l1 ≠ 0 → l2 ≠ 0 →
  ∃ a1 a2,
    sa_dp_rhs [p1; w1; p2; w2] t [m1; m2; l1; l2; g] = Ok [w1; a1; w2; a2] ∧
    (m1+m2)*l1*a1 + m2*l2*a2 + (m1+m2)*g*p1 = 0 ∧
    l2*a2 + l1*a1 + g*p2 = 0.
Proof.
  intros Hm1 Hl1 Hl2. eexists _, _.
  split; [by apply sa_dp_rhs_nonzero|].
  set (a1 := g * l1 * (m2 * p2 - (m1 + m2) * p1) / (m1 * l1 * l1)).
  set (a2 := - (g * p2 + l1 * a1) / l2).
  assert (E2 : l2*a2 + l1*a1 + g*p2 = 0) by (unfold a2; field; done).
  split; [|done].
  assert (H : m1*l1*a1 = g * (m2 * p2 - (m1 + m2) * p1))
    by (unfold a1; field; done).
  pose proof (f_equal (Rmult m2) E2) as E3. lra.
Qed.

(** X7. For non-zero [m1], [l1], [l2] the accelerations [sa_dp_rhs] returns
    solve the two linearized Lagrange equations of the double pendulum. *)
Theorem sa_dp_rhs_solves_linearized_lagrange
    (p1 w1 p2 w2 m1 m2 l1 l2 g t : R) :
  m1 ≠ 0 → l1 ≠ 0 → l2 ≠ 0 →
  ∃ a1 a2,
    sa_dp_rhs [p1; w1; p2; w2] t [m1; m2; l1; l2; g] = Ok [w1; a1; w2; a2] ∧
    (m1+m2)*l1*a1 + m2*l2*a2 + (m1+m2)*g*p1 = 0 ∧
    l2*a2 + l1*a1 + g*p2 = 0.
Proof.
  intros Hm1 Hl1 Hl2. eexists _, _.
  split; [by apply sa_dp_rhs_nonzero|].
  set (a1 := g * l1 * (m2 * p2 - (m1 + m2) * p1) / (m1 * l1 * l1)).
  set (a2 := - (g * p2 + l1 * a1) / l2).
  assert (E2 : l2*a2 + l1*a1 + g*p2 = 0) by (unfold a2; field; done).
  split; [|done].
  assert (H : m1*l1*a1 = g * (m2 * p2 - (m1 + m2) * p1))
    by (unfold a1; field; done).
  pose proof (f_equal (Rmult m2) E2) as E3. lra.
Qed.

Lemma sa_dp_rhs_solves_linearized_lagrange_witness :
  ∃ a1 a2,
    sa_dp_rhs [1/10; 0; 2/10; 1] 0 [1; 1; 1; 1; 98/10]
      = Ok [0; a1; 1; a2] ∧
    (1+1)*1*a1 + 1*1*a2 + (1+1)*(98/10)*(1/10) = 0 ∧
    1*a2 + 1*a1 + 98/10*(2/10) = 0.
Proof. apply sa_dp_rhs_solves_linearized_lagrange; lra. Defined.

(** X8. The small-angle energy does not change along the derivative
    [sa_dp_rhs] returns: for non-zero [m1], [l1], [l2] its derivative in
    that direction is zero at every state. *)
Theorem sa_dp_rhs_conserves_energy (p1 w1 p2 w2 m1 m2 l1 l2 g t : R) :
  m1 ≠ 0 → l1 ≠ 0 → l2 ≠ 0 →
  ∃ a1 a2,
    sa_dp_rhs [p1; w1; p2; w2] t [m1; m2; l1; l2; g] = Ok [w1; a1; w2; a2] ∧
    derivable_pt_lim
      (λ s, sa_energy m1 m2 l1 l2 g
              (p1 + s * w1) (w1 + s * a1) (p2 + s * w2) (w2 + s * a2))
      0 0.
Proof.
  intros Hm1 Hl1 Hl2.
  destruct (lagrange_of_sa_dp_rhs p1 w1 p2 w2 m1 m2 l1 l2 g t Hm1 Hl1 Hl2)
    as (a1 & a2 & Hrun & E1 & E2).
  exists a1, a2. split; [done|].
  unfold sa_energy. eapply D_value; [repeat derive_step; cbv beta; lra|].
  cbv beta. rewrite !Rmult_0_l, !Rplus_0_r.
  transitivity (w1 * l1 * ((m1+m2)*l1*a1 + m2*l2*a2 + (m1+m2)*g*p1)
                + m2 * l2 * w2 * (l2*a2 + l1*a1 + g*p2)); [|rewrite E1, E2; ring].
  unfold Rdiv, Rsqr. field.
Qed.

Lemma sa_dp_rhs_conserves_energy_witness :
  ∃ a1 a2,
    sa_dp_rhs [1/10; 0; 2/10; 1] 0 [1; 1; 1; 1; 98/10]
      = Ok [0; a1; 1; a2] ∧
    derivable_pt_lim
      (λ s, sa_energy 1 1 1 1 (98/10)
              (1/10 + s * 0) (0 + s * a1) (2/10 + s * 1) (1 + s * a2))
      0 0.
Proof. apply sa_dp_rhs_conserves_energy; lra. Defined.

(** X9. Along the derivative [dp_rhs] returns, the energy of the double
    pendulum changes at the rate
    [m2*l1*w1^2*sin(p1-p2)*(l1*w1*cos(p1-p2) + l2*w2)]: the right-hand side
    is not conservative.  (With the factor-free [omega1^2] term of the
    standard second equation the rate is zero.) *)
Theorem dp_rhs_energy_rate (p1 w1 p2 w2 m1 m2 l1 l2 g t : R) :
  0 < m1 → 0 < m2 → 0 < l1 → 0 < l2 →
  ∃ a1 a2,
    dp_rhs [p1; w1; p2; w2] t [m1; m2; l1; l2; g] = Ok [w1; a1; w2; a2] ∧
    derivable_pt_lim
      (λ s, dp_energy m1 m2 l1 l2 g
              (p1 + s * w1) (w1 + s * a1) (p2 + s * w2) (w2 + s * a2))
      0 (m2 * l1 * (w1 * w1) * sin (p1 - p2)
         * (l1 * w1 * cos (p1 - p2) + l2 * w2)) ∧
    ∃ b1 b2,
      dp_rhs_standard [p1; w1; p2; w2] t [m1; m2; l1; l2; g]
        = Ok [w1; b1; w2; b2] ∧
      derivable_pt_lim
        (λ s, dp_energy m1 m2 l1 l2 g
                (p1 + s * w1) (w1 + s * b1) (p2 + s * w2) (w2 + s * b2))
        0 0.
Proof.
  intros Hm1 Hm2 Hl1 Hl2.
  destruct (dp_rhs_accelerations p1 w1 p2 w2 m1 m2 l1 l2 g t Hm1 Hm2 Hl1 Hl2)
    as (a1 & a2 & Hrun & HD & E1 & E2).
  destruct (dp_rhs_vs_standard p1 w1 p2 w2 m1 m2 l1 l2 g t)
    as (b1 & b2 & Hstd & Hrun').
  rewrite Hrun in Hrun'. injection Hrun' as Ha1 Ha2.
  assert (F2 : l2 * b2 = l2 * a2 - l1 * (w1 * w1) * sin (p1 - p2)).
  { rewrite Ha2. field. lra. }
  subst b1.
  assert (Hrate : ∀ c2 k,
    l2 * c2 = l1*w1*w1*k*sin (p1-p2) - g*sin p2 - l1*a1*cos (p1-p2) →
    derivable_pt_lim
      (λ s, dp_energy m1 m2 l1 l2 g
              (p1 + s * w1) (w1 + s * a1) (p2 + s * w2) (w2 + s * c2))
      0 ((k - 1) * (m2 * l1 * (w1 * w1) * sin (p1 - p2)
                    * (l1 * w1 * cos (p1 - p2) + l2 * w2)))).
  { intros c2 k F.
    unfold dp_energy. eapply D_value; [repeat derive_step; cbv beta; lra|].
    cbv beta. rewrite !Rmult_0_l, !Rplus_0_r.
    replace (p1 - p2 + 0) with (p1 - p2) by ring.
    set (s := sin (p1 - p2)) in *. set (c := cos (p1 - p2)) in *.
    set (s1 := sin p1) in *. set (s2 := sin p2) in *.
    clearbody s c s1 s2.
    pose proof (f_equal (Rmult (l1 * w1)) E1) as G1.
    pose proof (f_equal (Rmult (m2 * l2 * w2 + m2 * l1 * w1 * c)) F) as G2.
    unfold Rdiv, Rsqr. lra. }
  exists a1, a2. split; [done|]. split.
  - eapply D_value; [apply (Hrate a2 2); lra|]. ring.
  - exists a1, b2. split; [done|].
    eapply D_value; [apply (Hrate b2 1); lra|]. ring.
Qed.

Lemma dp_rhs_energy_rate_witness :
  ∃ a1 a2,
    dp_rhs [PI/2; 1; 0; 1] 0 [1; 1; 1; 1; 98/10] = Ok [1; a1; 1; a2] ∧
    derivable_pt_lim
      (λ s, dp_energy 1 1 1 1 (98/10)
              (PI/2 + s * 1) (1 + s * a1) (0 + s * 1) (1 + s * a2))
      0 (1 * 1 * (1 * 1) * sin (PI/2 - 0)
         * (1 * 1 * cos (PI/2 - 0) + 1 * 1)) ∧
    ∃ b1 b2,
      dp_rhs_standard [PI/2; 1; 0; 1] 0 [1; 1; 1; 1; 98/10]
        = Ok [1; b1; 1; b2] ∧
      derivable_pt_lim
        (λ s, dp_energy 1 1 1 1 (98/10)
                (PI/2 + s * 1) (1 + s * b1) (0 + s * 1) (1 + s * b2))
        0 0.
Proof. apply dp_rhs_energy_rate; lra. Defined.

(** ** The crossing locator: what decides its answer *)

Lemma for_loop_ext_in {X S : Type} (xs : list X)
    (f g : X → S → outcome S) (s : S) :
  (∀ x s, x ∈ xs → f x s = g x s) → for_loop xs f s = for_loop xs g s.
Proof.
  revert s. induction xs as [|x xs IH]; intros s Hfg; simpl; [done|].
  rewrite Hfg by by left.
  destruct (g x s) as [s'|e]; simpl; [|done].
  apply IH. intros y s'' Hy. apply Hfg. by right.
Qed.

(** Two scans that meet the same deviation, or the same exception, at every
    index give the same answer. *)
Lemma find_vertical_congr (l1 l2 l1' l2' : R) (p1 p2 p1' p2' : list R) :
  length p1 = length p1' →
  (∀ i, (i < length p1)%nat →
     (a ← getitem p1 i; b ← getitem p2 i; Ok (Rabs (l1 * sin a + l2 * sin b)))
     = (a ← getitem p1' i; b ← getitem p2' i;
        Ok (Rabs (l1' * sin a + l2' * sin b)))) →
  find_vertical l1 l2 p1 p2 = find_vertical l1' l2' p1' p2'.
Proof.
  intros Hlen Hdev. unfold find_vertical. rewrite <- Hlen. f_equal.
  apply for_loop_ext_in. intros i [c idx] Hi.
  apply elem_of_seq in Hi. specialize (Hdev i ltac:(lia)).
  destruct (getitem p1 i) as [a|e1], (getitem p1' i) as [a'|e1'],
    (getitem p2 i) as [b|e2], (getitem p2' i) as [b'|e2']; simpl in *;
    try congruence.
  by injection Hdev as ->.
Qed.

Lemma getitem_fmap (f : R → R) (a : list R) (i : nat) :
  getitem (f <$> a) i = f <$> getitem a i.
Proof. unfold getitem. rewrite list_lookup_fmap. by destruct (a !! i). Qed.

(** X10. With at least as many [p2] samples as [p1] samples, [find_vertical]
    answers with the index [j] exactly when sample [j] is closer to the
    vertical than 999, no sample is closer than it, and every earlier
    sample is strictly farther: the first sample of least deviation. *)
Theorem find_vertical_first_least (l1 l2 : R) (p1 p2 : list R) (j : nat) :
  (length p1 <= length p2)%nat →
  find_vertical l1 l2 p1 p2 = Ok (Some j) ↔
  (j < length p1)%nat ∧ dev_at l1 l2 p1 p2 j < 999 ∧
  (∀ i, (i < length p1)%nat → dev_at l1 l2 p1 p2 j <= dev_at l1 l2 p1 p2 i) ∧
  (∀ i, (i < j)%nat → dev_at l1 l2 p1 p2 j < dev_at l1 l2 p1 p2 i).
Proof.
  intros Hlen.
  destruct (find_vertical_spec l1 l2 p1 p2 Hlen) as (r & -> & Hspec).
  split.
  - intros [= ->]. exact Hspec.
  - intros (Hj & Hj9 & Hmin & Hfirst). f_equal.
    destruct r as [j'|].
    + destruct Hspec as (Hj' & _ & Hmin' & Hfirst'). f_equal.
      destruct (Nat.lt_trichotomy j j') as [Hlt|[->|Hgt]]; [|done|].
      * specialize (Hfirst' j Hlt). specialize (Hmin j' Hj'). lra.
      * specialize (Hfirst j' Hgt). specialize (Hmin' j Hj). lra.
    + specialize (Hspec j Hj). lra.
Qed.

Lemma find_vertical_first_least_witness :
  find_vertical 1 1 [1; 0; 0] [1; 0; 0] = Ok (Some 1%nat) ↔
  (1 < length [1; 0; 0])%nat ∧ dev_at 1 1 [1; 0; 0] [1; 0; 0] 1 < 999 ∧
  (∀ i, (i < length [1; 0; 0])%nat →
        dev_at 1 1 [1; 0; 0] [1; 0; 0] 1 <= dev_at 1 1 [1; 0; 0] [1; 0; 0] i) ∧
  (∀ i, (i < 1)%nat →
        dev_at 1 1 [1; 0; 0] [1; 0; 0] 1 < dev_at 1 1 [1; 0; 0] [1; 0; 0] i).
Proof. apply find_vertical_first_least. simpl. lia. Defined.

(** X11. With at least as many [p2] samples as [p1] samples, [find_vertical]
    returns [None] exactly when no sample is closer to the vertical than
    999, the value [closest] starts from. *)
Theorem find_vertical_none_iff (l1 l2 : R) (p1 p2 : list R) :
  (length p1 <= length p2)%nat →
  find_vertical l1 l2 p1 p2 = Ok None ↔
  ∀ i, (i < length p1)%nat → 999 <= dev_at l1 l2 p1 p2 i.
Proof.
  intros Hlen.
  destruct (find_vertical_spec l1 l2 p1 p2 Hlen) as (r & -> & Hspec).
  split.
  - intros [= ->]. exact Hspec.
  - intros Hall. destruct r as [j|]; [|done].
    destruct Hspec as (Hj & Hj9 & _). specialize (Hall j Hj). lra.
Qed.

Lemma find_vertical_none_iff_witness :
  find_vertical 1 1 [0] [0; 0] = Ok None ↔
  ∀ i, (i < length [0])%nat → 999 <= dev_at 1 1 [0] [0; 0] i.
Proof. apply find_vertical_none_iff. simpl. lia. Defined.

(** X12. [find_vertical] raises exactly when [p2] has fewer samples than
    [p1], and then it raises [IndexError]. *)
Theorem find_vertical_raises_iff (l1 l2 : R) (p1 p2 : list R) (e : exn) :
  find_vertical l1 l2 p1 p2 = Raise e ↔
  e = IndexError ∧ (length p2 < length p1)%nat.
Proof.
  split.
  - intros Hrun. destruct (decide (length p2 < length p1)%nat) as [Hlt|Hge].
    + rewrite find_vertical_short_p2 in Hrun by done. by injection Hrun as <-.
    + destruct (find_vertical_spec l1 l2 p1 p2) as (r & Hr & _); [lia|].
      congruence.
  - intros (-> & Hlt). by apply find_vertical_short_p2.
Qed.

(** X13. [find_vertical] never looks at [p2] beyond the length of [p1]:
    cutting [p2] there does not change the answer. *)
Theorem find_vertical_ignores_tail (l1 l2 : R) (p1 p2 : list R) :
  find_vertical l1 l2 p1 (take (length p1) p2) = find_vertical l1 l2 p1 p2.
Proof.
  apply find_vertical_congr; [done|]. intros i Hi.
  by rewrite getitem_take.
Qed.

(** X14. The answer of [find_vertical] depends on the angles only through
    their sines up to a common sign: mirroring both series, negating both
    rod lengths, or adding whole turns to every angle of a series does not
    change it. *)
Theorem find_vertical_mirror_and_turns (l1 l2 : R) (p1 p2 : list R)
    (k1 k2 : nat) :
  find_vertical l1 l2 (Ropp <$> p1) (Ropp <$> p2) = find_vertical l1 l2 p1 p2 ∧
  find_vertical (- l1) (- l2) p1 p2 = find_vertical l1 l2 p1 p2 ∧
  find_vertical l1 l2 ((λ a, a + 2 * INR k1 * PI) <$> p1)
                      ((λ a, a + 2 * INR k2 * PI) <$> p2)
    = find_vertical l1 l2 p1 p2.
Proof.
  split; [|split].
  - apply find_vertical_congr; [by rewrite length_fmap|]. intros i _.
    rewrite !getitem_fmap.
    destruct (getitem p1 i) as [a|], (getitem p2 i) as [b|]; simpl; try done.
    rewrite !sin_neg. f_equal. rewrite <- (Rabs_Ropp (l1 * sin a + l2 * sin b)).
    f_equal. ring.
  - apply find_vertical_congr; [done|]. intros i _.
    destruct (getitem p1 i) as [a|], (getitem p2 i) as [b|]; simpl; try done.
    f_equal. rewrite <- (Rabs_Ropp (l1 * sin a + l2 * sin b)).
    f_equal. ring.
  - apply find_vertical_congr; [by rewrite length_fmap|]. intros i _.
    rewrite !getitem_fmap.
    destruct (getitem p1 i) as [a|], (getitem p2 i) as [b|]; simpl; try done.
    by rewrite !sin_period.
Qed.

(** X15. With rods shorter than 999 in total and at least as many [p2]
    samples as [p1] samples, [find_vertical] returns [None] exactly for the
    empty series. *)
Theorem find_vertical_short_rods_none_iff_empty (l1 l2 : R)
    (p1 p2 : list R) :
  Rabs l1 + Rabs l2 < 999 → (length p1 <= length p2)%nat →
  find_vertical l1 l2 p1 p2 = Ok None ↔ p1 = [].
Proof.
  intros Hrods Hlen. split.
  - intros Hnone. destruct p1 as [|a p1]; [done|].
    destruct (find_vertical_short_rods l1 l2 (a :: p1) p2 Hlen) as (j & Hj & _);
      [simpl; lia|done|congruence].
  - by intros ->.
Qed.

Lemma find_vertical_short_rods_none_iff_empty_witness :
  find_vertical 1 1 [0; 0] [0; 0] = Ok None ↔ [0; 0] = @nil R.
Proof.
  apply find_vertical_short_rods_none_iff_empty.
  - rewrite Rabs_R1. lra.
  - simpl. lia.
Defined.

(** ** The one-dimensional sweeps: shape, exceptions, edge cases *)

Lemma length_linspace (start stop : R) (num : nat) :
  length (linspace start stop num) = num.
Proof. unfold linspace. by rewrite length_fmap, length_seq. Qed.

Lemma linspace_lookup (start stop : R) (num i : nat) :
  (i < num)%nat →
  linspace start stop num !! i
  = Some (start + INR i * ((stop - start) / INR (num - 1))).
Proof.
  intros Hi. unfold linspace. rewrite list_lookup_fmap.
  by rewrite lookup_seq_lt.
Qed.

Lemma linspace_first (start stop : R) (num : nat) :
  (0 < num)%nat → linspace start stop num !! 0%nat = Some start.
Proof.
  intros Hn. rewrite linspace_lookup by done. f_equal. simpl. ring.
Qed.

Lemma linspace_last (start stop : R) (num : nat) :
  (2 <= num)%nat → linspace start stop num !! (num - 1)%nat = Some stop.
Proof.
  intros Hn. rewrite linspace_lookup by lia. f_equal. field.
  apply not_0_INR. lia.
Qed.

Lemma traverse_length {A B : Type} (f : A → outcome B) (xs : list A)
    (ys : list B) :
  traverse f xs = Ok ys → length ys = length xs.
Proof.
  intros H. apply traverse_Ok in H. symmetry. by eapply Forall2_length.
Qed.

Lemma traverse_app {A B : Type} (f : A → outcome B) (xs ys : list A) :
  traverse f (xs ++ ys)
  = a ← traverse f xs; b ← traverse f ys; Ok (a ++ b).
Proof.
  induction xs as [|x xs IH]; simpl.
  - by destruct (traverse f ys).
  - destruct (f x) as [y|e]; simpl; [|done]. rewrite IH.
    destruct (traverse f xs) as [a|e]; simpl; [|done].
    by destruct (traverse f ys).
Qed.

(** The first element that raises decides the outcome of [traverse]. *)
Lemma traverse_first_exception {A B : Type} (f : A → outcome B)
    (xs : list A) (k : nat) (x : A) (e : exn) :
  xs !! k = Some x →
  (∀ j y, (j < k)%nat → xs !! j = Some y → ∃ w, f y = Ok w) →
  f x = Raise e →
  traverse f xs = Raise e.
Proof.
  revert k. induction xs as [|y xs IH]; intros k Hk Hbefore Hx; [done|].
  destruct k as [|k]; simpl in *.
  - injection Hk as ->. by rewrite Hx.
  - destruct (Hbefore 0%nat y ltac:(lia) eq_refl) as (w & ->). simpl.
    rewrite (IH k); [done..| |done].
    intros j z Hj Hz. apply (Hbefore (S j)); [lia|done].
Qed.

Section OneDimensional.

Variable odeint :
  rhs_fun → list R → list R → list R → R → R → outcome (list (list R)).
Variables (rhs : rhs_fun) (G : Nb.t) (σ : store).

(** X16. A one-dimensional sweep that completes returns as many observables
    as abscissae, namely [n]; the abscissae start at 0.25, whatever the
    arguments, and for [n >= 2] they end at the maximum passed in. *)
Theorem one_dim_sweep_shape (flag : bool) (n : nat) (x_max : R)
    (xs : list R) (ws : list value) :
  (length_plot odeint rhs flag n x_max G σ).1 = Ok (xs, ws) ∨
  (mass_plot odeint rhs flag n x_max G σ).1 = Ok (xs, ws) →
  length xs = n ∧ length ws = n ∧
  ((0 < n)%nat → xs !! 0%nat = Some (1/4)) ∧
  ((2 <= n)%nat → xs !! (n - 1)%nat = Some x_max).
Proof.
  intros Hrun.
  assert (Hgrid : xs = linspace (1/4) x_max n ∧ length ws = length xs).
  { destruct Hrun as [Hrun|Hrun].
    - destruct (length_plot_run odeint rhs G flag n x_max σ)
        as (σ' & Heq & _). rewrite Heq in Hrun. simpl in Hrun.
      destruct (σ !! Nb.p G) as [base|]; [|done].
      destruct (traverse _ _) as [ws'|] eqn:Hws; [|done].
      injection Hrun as <- <-. split; [done|]. by eapply traverse_length.
    - destruct (mass_plot_run odeint rhs G flag n x_max σ)
        as (σ' & Heq & _). rewrite Heq in Hrun. simpl in Hrun.
      destruct (σ !! Nb.p G) as [base|]; [|done].
      destruct (traverse _ _) as [ws'|] eqn:Hws; [|done].
      injection Hrun as <- <-. split; [done|]. by eapply traverse_length. }
  destruct Hgrid as (-> & Hlen). rewrite Hlen, length_linspace.
  split; [done|]. split; [done|].
  split; [apply linspace_first|apply linspace_last].
Qed.

(** X17. A one-dimensional sweep stops at the first grid point whose
    computation raises (the item assignment, [odeint], the column slices,
    [find_vertical] or the indexing by a returned index), with that
    exception: nothing of the sweep is returned, whatever the earlier grid
    points gave. *)
Theorem one_dim_sweep_first_exception (flag : bool) (n : nat) (x_max : R)
    (base : list R) (k : nat) (x : R) (e : exn) :
  σ !! Nb.p G = Some base →
  linspace (1/4) x_max n !! k = Some x →
  ((∀ j y, (j < k)%nat → linspace (1/4) x_max n !! j = Some y →
           ∃ w, length_observed odeint rhs G flag base y w) →
   length_point odeint rhs G flag base x = Raise e →
   (length_plot odeint rhs flag n x_max G σ).1 = Raise e) ∧
  ((∀ j y, (j < k)%nat → linspace (1/4) x_max n !! j = Some y →
           ∃ w, mass_observed odeint rhs G flag base y w) →
   mass_point odeint rhs G flag base x = Raise e →
   (mass_plot odeint rhs flag n x_max G σ).1 = Raise e).
Proof.
  intros Hbase Hk. split; intros Hbefore Hx.
  - destruct (length_plot_run odeint rhs G flag n x_max σ) as (σ' & -> & _).
    simpl. rewrite Hbase.
    rewrite (traverse_first_exception _ _ k x e Hk); [done| |done].
    intros j y Hj Hy. destruct (Hbefore j y Hj Hy) as (w & Hw).
    exists w. by apply length_point_Ok.
  - destruct (mass_plot_run odeint rhs G flag n x_max σ) as (σ' & -> & _).
    simpl. rewrite Hbase.
    rewrite (traverse_first_exception _ _ k x e Hk); [done| |done].
    intros j y Hj Hy. destruct (Hbefore j y Hj Hy) as (w & Hw).
    exists w. by apply mass_point_Ok.
Qed.

(** X18. Edge cases of the one-dimensional sweeps.  With [n = 0] they return
    two empty lists.  With [n >= 1] and a parameter vector too short for the
    slot that is substituted (slot 2 or 3 for lengths, 0 or 1 for masses)
    they raise [IndexError], at the first grid point and before any
    integration. *)
Theorem one_dim_sweep_edges (flag : bool) (n : nat) (x_max : R)
    (base : list R) :
  σ !! Nb.p G = Some base →
  (length_plot odeint rhs flag 0 x_max G σ).1 = Ok ([], []) ∧
  (mass_plot odeint rhs flag 0 x_max G σ).1 = Ok ([], []) ∧
  ((0 < n)%nat → (length base <= if flag then 2 else 3)%nat →
   (length_plot odeint rhs flag n x_max G σ).1 = Raise IndexError) ∧
  ((0 < n)%nat → (length base <= if flag then 0 else 1)%nat →
   (mass_plot odeint rhs flag n x_max G σ).1 = Raise IndexError).
Proof.
  intros Hbase.
  split; [|split; [|split]].
  - destruct (length_plot_run odeint rhs G flag 0 x_max σ) as (σ' & -> & _).
    simpl. by rewrite Hbase.
  - destruct (mass_plot_run odeint rhs G flag 0 x_max σ) as (σ' & -> & _).
    simpl. by rewrite Hbase.
  - intros Hn Hshort.
    destruct (length_plot_run odeint rhs G flag n x_max σ) as (σ' & -> & _).
    simpl. rewrite Hbase.
    rewrite (traverse_first_exception _ _ 0%nat (1/4) IndexError);
      [done|by apply linspace_first|intros; lia|].
    unfold length_point, setitem_value. by rewrite decide_False by lia.
  - intros Hn Hshort.
    destruct (mass_plot_run odeint rhs G flag n x_max σ) as (σ' & -> & _).
    simpl. rewrite Hbase.
    rewrite (traverse_first_exception _ _ 0%nat (1/4) IndexError);
      [done|by apply linspace_first|intros; lia|].
    unfold mass_point, setitem_value. by rewrite decide_False by lia.
Qed.

End OneDimensional.

(** With one time sample and the integrator that rejects a first mass or a
    first length of 5 or more, the first of the two grid points 0.25 and 10
    gives a value and the second raises. *)
Lemma one_dim_points_below_5 :
  length_point odeint_below_5 dp_rhs (single_sample_env 0) true
    [1; 1; 1; 1; 98/10] (1/4) = Ok (Scalar (- 0)) ∧
  mass_point odeint_below_5 dp_rhs (single_sample_env 0) true
    [1; 1; 1; 1; 98/10] (1/4) = Ok (Scalar (- 0)) ∧
  length_point odeint_below_5 dp_rhs (single_sample_env 0) true
    [1; 1; 1; 1; 98/10] 10 = Raise ValueError ∧
  mass_point odeint_below_5 dp_rhs (single_sample_env 0) true
    [1; 1; 1; 1; 98/10] 10 = Raise ValueError.
Proof.
  unfold length_point, mass_point, setitem_value, odeint_below_5. simpl.
  repeat split; decide_reals; simpl; try done.
  - apply crossing_value_single_row. rewrite Rabs_R1, Rabs_pos_eq; lra.
  - apply crossing_value_single_row. rewrite Rabs_R1. lra.
Qed.

Lemma one_dim_sweep_first_exception_witness :
  (length_plot odeint_below_5 dp_rhs true 2 10 (single_sample_env 0)
     notebook_store).1 = Raise ValueError ∧
  (mass_plot odeint_below_5 dp_rhs true 2 10 (single_sample_env 0)
     notebook_store).1 = Raise ValueError.
Proof.
  destruct one_dim_points_below_5 as (Hl & Hm & Hl' & Hm').
  destruct (one_dim_sweep_first_exception odeint_below_5 dp_rhs
              (single_sample_env 0) notebook_store true 2 10
              [1; 1; 1; 1; 98/10] 1 10 ValueError notebook_store_p)
    as (Hlength & Hmass).
  - apply (linspace_last (1/4) 10 2). lia.
  - split.
    + apply Hlength; [|exact Hl']. intros j y Hj Hy.
      assert (j = 0%nat) as -> by lia.
      rewrite linspace_first in Hy by lia. injection Hy as <-.
      exists (Scalar (- 0)). by apply length_point_Ok.
    + apply Hmass; [|exact Hm']. intros j y Hj Hy.
      assert (j = 0%nat) as -> by lia.
      rewrite linspace_first in Hy by lia. injection Hy as <-.
      exists (Scalar (- 0)). by apply mass_point_Ok.
Defined.

Lemma one_dim_sweep_edges_witness :
  (length_plot odeint_hold dp_rhs true 0 10 notebook_env notebook_store).1
    = Ok ([], []) ∧
  (mass_plot odeint_hold dp_rhs true 0 10 notebook_env notebook_store).1
    = Ok ([], []) ∧
  ((0 < 3)%nat → (length [1; 1; 1; 1; 98/10] <= 2)%nat →
   (length_plot odeint_hold dp_rhs true 3 10 notebook_env notebook_store).1
     = Raise IndexError) ∧
  ((0 < 3)%nat → (length [1; 1; 1; 1; 98/10] <= 0)%nat →
   (mass_plot odeint_hold dp_rhs true 3 10 notebook_env notebook_store).1
     = Raise IndexError).
Proof.
  apply (one_dim_sweep_edges odeint_hold dp_rhs notebook_env notebook_store
           true 3 10 [1; 1; 1; 1; 98/10]).
  exact notebook_store_p.
Defined.

(** ** The two-dimensional sweep: rows, companions, level curve *)

Lemma list_index_app_l (x : R) (a b : list R) :
  x ∈ a → list_index x (a ++ b) = list_index x a.
Proof.
  induction a as [|y a IH]; simpl; [by intros ?%elem_of_nil|].
  intros Hin. destruct (Req_dec_T y x) as [->|Hne]; [done|].
  apply elem_of_cons in Hin as [Heq|Hin]; [by subst|]. by rewrite IH.
Qed.

Lemma lookup_by_value_Ok (p2s ws : list R) (x q : R) :
  lookup_by_value p2s ws x = Ok q ↔
  ∃ i, list_index x ws = Ok i ∧ p2s !! i = Some q.
Proof.
  unfold lookup_by_value, getitem.
  destruct (list_index x ws) as [i|e]; simpl.
  - destruct (p2s !! i) as [q'|] eqn:Hq; split.
    + intros [= <-]. by exists i.
    + intros (j & [= <-] & Hj). congruence.
    + done.
    + intros (j & [= <-] & Hj). congruence.
  - split; [done|]. by intros (j & ? & _).
Qed.

(** A look-up by value that succeeds on aligned lists gives the same answer
    after both lists have grown. *)
Lemma lookup_by_value_app (p2s p2s' ws ws' : list R) (x q : R) :
  length p2s = length ws →
  lookup_by_value p2s ws x = Ok q →
  lookup_by_value (p2s ++ p2s') (ws ++ ws') x = Ok q.
Proof.
  intros Hlen (i & Hi & Hq)%lookup_by_value_Ok.
  apply lookup_by_value_Ok. exists i.
  destruct (list_index_Ok _ _ _ Hi) as (Hx & _). split.
  - rewrite list_index_app_l; [done|]. by eapply list_elem_of_lookup_2.
  - by apply lookup_app_l_Some.
Qed.

Lemma length_grid_rows (iter_p1 iter_p2 : list R) :
  length (grid_rows iter_p1 iter_p2) = (length iter_p1 * length iter_p2)%nat.
Proof.
  unfold grid_rows. induction iter_p1 as [|p1 iter_p1 IH]; simpl; [done|].
  by rewrite length_app, length_fmap, IH.
Qed.

(** Row [r] of a list of rows of length [n], cut out of their
    concatenation. *)
Lemma concat_row (n : nat) (rows : list (list R)) (r : nat) (ws : list R) :
  Forall (λ ws, length ws = n) rows → rows !! r = Some ws →
  take n (drop (r * n) (concat rows)) = ws.
Proof.
  intros Hrows. revert r. induction Hrows as [|ws0 rows Hlen Hrows IH];
    intros r Hr; [done|].
  destruct r as [|r]; simpl in *.
  - injection Hr as ->. by apply take_app_length'.
  - rewrite drop_app_ge by lia.
    replace (n + r * n - length ws0)%nat with (r * n)%nat by lia.
    by apply IH.
Qed.

Lemma filter_none {A : Type} (xs : list A) :
  List.filter (λ _, false) xs = [].
Proof. by induction xs. Qed.

Section SweepRows.

Variable obs : R → R → outcome R.
Variables (w_val : R) (show_level_curve : bool) (w_err : R).

(** What one completed row does to the ten lists. *)
Lemma pw_outer_fields (iter_p2 : list R) (p1 : R) (L L' : pw_lists) :
  pw_outer obs w_val show_level_curve w_err iter_p2 p1 L = Ok L' →
  ∃ ws max_p2 min_p2,
    Forall2 (λ p2 w, obs p1 p2 = Ok w) iter_p2 ws ∧
    L' = pw_append_row max_p2 (running_max 0 ws) min_p2 (running_min 9999 ws)
           (pw_append_points (level_of w_val show_level_curve w_err)
              p1 iter_p2 ws L) ∧
    p1_list L' = p1_list L ++ ((λ _, p1) <$> iter_p2) ∧
    p2_list L' = p2_list L ++ iter_p2 ∧
    w2_list L' = w2_list L ++ ws ∧
    max_w2_list L' = max_w2_list L ++ [running_max 0 ws] ∧
    max_p2_list L' = max_p2_list L ++ [max_p2] ∧
    min_w2_list L' = min_w2_list L ++ [running_min 9999 ws] ∧
    min_p2_list L' = min_p2_list L ++ [min_p2] ∧
    lookup_by_value (p2_list L') (w2_list L') (running_max 0 ws)
      = Ok max_p2 ∧
    lookup_by_value (p2_list L') (w2_list L') (running_min 9999 ws)
      = Ok min_p2.
Proof.
  intros (ws & i_max & max_p2 & i_min & min_p2 & Hws & Himax & Hmaxp2
          & Himin & Hminp2 & ->)%pw_outer_Ok.
  destruct (pw_append_points_lists (level_of w_val show_level_curve w_err)
    p1 iter_p2 ws L (Forall2_length _ _ _ Hws))
    as (Hp1 & Hp2 & Hw2 & Hq1 & Hq2 & Hq3 & Hq4).
  exists ws, max_p2, min_p2. simpl.
  rewrite Hp1, Hp2, Hw2, Hq1, Hq2, Hq3, Hq4.
  repeat split; try done.
  - apply lookup_by_value_Ok. by exists i_max.
  - apply lookup_by_value_Ok. by exists i_min.
Qed.

Lemma p_w_sweep_rows (iter_p1 iter_p2 : list R) (L0 L : pw_lists) :
  for_loop iter_p1 (pw_outer obs w_val show_level_curve w_err iter_p2) L0
    = Ok L →
  ∃ rows : list (list R),
    Forall2 (λ p1 ws, Forall2 (λ p2 w, obs p1 p2 = Ok w) iter_p2 ws)
      iter_p1 rows ∧
    w2_list L = w2_list L0 ++ concat rows ∧
    max_w2_list L = max_w2_list L0 ++ (running_max 0 <$> rows) ∧
    min_w2_list L = min_w2_list L0 ++ (running_min 9999 <$> rows) ∧
    length (max_p2_list L)
      = (length (max_p2_list L0) + length iter_p1)%nat ∧
    length (min_p2_list L)
      = (length (min_p2_list L0) + length iter_p1)%nat.
Proof.
  revert L0. induction iter_p1 as [|p1 iter_p1 IH]; intros L0; simpl.
  - intros [= <-]. exists []. simpl. rewrite !app_nil_r.
    repeat split; [constructor|lia..].
  - destruct (pw_outer _ _ _ _ _ p1 L0) as [L1|e] eqn:Hrow; simpl; [|done].
    intros Hrest.
    apply pw_outer_fields in Hrow as (ws & max_p2 & min_p2 & Hws & _ & _ & _
      & Hw2 & Hmw & Hmp & Hnw & Hnp & _).
    destruct (IH _ Hrest) as (rows & Hrows & Ew2 & Emw & Enw & Emp & Enp).
    exists (ws :: rows). simpl.
    rewrite Ew2, Emw, Enw, Emp, Enp, Hw2, Hmw, Hmp, Hnw, Hnp.
    rewrite !length_app, <- !app_assoc. simpl.
    repeat split; [by constructor|lia..].
Qed.

(** The companion angles are look-ups by value through the whole flat
    lists. *)
Lemma p_w_sweep_companions (iter_p1 iter_p2 : list R) (L0 L : pw_lists) :
  length (p2_list L0) = length (w2_list L0) →
  Forall2 (λ x q, lookup_by_value (p2_list L0) (w2_list L0) x = Ok q)
    (max_w2_list L0) (max_p2_list L0) →
  Forall2 (λ x q, lookup_by_value (p2_list L0) (w2_list L0) x = Ok q)
    (min_w2_list L0) (min_p2_list L0) →
  for_loop iter_p1 (pw_outer obs w_val show_level_curve w_err iter_p2) L0
    = Ok L →
  Forall2 (λ x q, lookup_by_value (p2_list L) (w2_list L) x = Ok q)
    (max_w2_list L) (max_p2_list L) ∧
  Forall2 (λ x q, lookup_by_value (p2_list L) (w2_list L) x = Ok q)
    (min_w2_list L) (min_p2_list L).
Proof.
  revert L0. induction iter_p1 as [|p1 iter_p1 IH];
    intros L0 Hlen Hmax Hmin; simpl.
  - by intros [= <-].
  - destruct (pw_outer _ _ _ _ _ p1 L0) as [L1|e] eqn:Hrow; simpl; [|done].
    apply pw_outer_fields in Hrow as (ws & max_p2 & min_p2 & Hws & _ & _
      & Hp2 & Hw2 & Hmw & Hmp & Hnw & Hnp & Hlmax & Hlmin).
    apply IH.
    + rewrite Hp2, Hw2, !length_app, Hlen.
      by rewrite (Forall2_length _ _ _ Hws).
    + rewrite Hmw, Hmp. apply Forall2_app; [|by repeat constructor].
      eapply Forall2_impl; [exact Hmax|]. intros x q Hq. simpl in Hq.
      rewrite Hp2, Hw2. by apply lookup_by_value_app.
    + rewrite Hnw, Hnp. apply Forall2_app; [|by repeat constructor].
      eapply Forall2_impl; [exact Hmin|]. intros x q Hq. simpl in Hq.
      rewrite Hp2, Hw2. by apply lookup_by_value_app.
Qed.

(** The level-curve lists are the selection of the flat lists by the level
    test. *)
Lemma pw_append_point_level_selected (lv : R → bool) (p1 p2 w : R)
    (L : pw_lists) :
  level_selected lv L → level_selected lv (pw_append_point (lv w) p1 p2 w L).
Proof.
  intros (Hl1 & Hl2 & Ew & E1 & E2). unfold level_selected. simpl.
  rewrite !length_app, Hl1, Hl2. split; [done|]. split; [done|].
  rewrite !zip_with_app by done. rewrite !List.filter_app, !fmap_app. simpl.
  destruct (lv w); simpl; rewrite ?app_nil_r; by rewrite <- ?Ew, <- ?E1, <- ?E2.
Qed.

Lemma pw_append_points_level_selected (lv : R → bool) (p1 : R)
    (ps ws : list R) (L : pw_lists) :
  level_selected lv L → level_selected lv (pw_append_points lv p1 ps ws L).
Proof.
  revert ws L. induction ps as [|p2 ps IH]; intros [|w ws] L HL; simpl;
    try done.
  apply IH. by apply pw_append_point_level_selected.
Qed.

Lemma p_w_sweep_level_selected (iter_p1 iter_p2 : list R)
    (L0 L : pw_lists) :
  level_selected (level_of w_val show_level_curve w_err) L0 →
  for_loop iter_p1 (pw_outer obs w_val show_level_curve w_err iter_p2) L0
    = Ok L →
  level_selected (level_of w_val show_level_curve w_err) L.
Proof.
  revert L0. induction iter_p1 as [|p1 iter_p1 IH]; intros L0 HL0; simpl.
  - by intros [= <-].
  - destruct (pw_outer _ _ _ _ _ p1 L0) as [L1|e] eqn:Hrow; simpl; [|done].
    apply pw_outer_fields in Hrow as (ws & max_p2 & min_p2 & _ & -> & _).
    apply IH.
    pose proof (pw_append_points_level_selected
      (level_of w_val show_level_curve w_err) p1 iter_p2 ws L0 HL0) as HL1.
    exact HL1.
Qed.

End SweepRows.

(** The level-curve options do not reach the seven other lists, nor the
    outcome. *)
Lemma pw_outer_same_surface (obs : R → R → outcome R)
    (w_val w_val' : R) (show show' : bool) (w_err w_err' : R)
    (iter_p2 : list R) (p1 : R) (L L' : pw_lists) :
  same_surface L L' →
  match pw_outer obs w_val show w_err iter_p2 p1 L,
        pw_outer obs w_val' show' w_err' iter_p2 p1 L' with
  | Ok L1, Ok L1' => same_surface L1 L1'
  | Raise e, Raise e' => e = e'
  | _, _ => False
  end.
Proof.
  intros (E1 & E2 & E3 & E4 & E5 & E6 & E7).
  unfold pw_outer. rewrite !pw_inner_loop.
  destruct (traverse (obs p1) iter_p2) as [ws|e] eqn:Hws; simpl; [|done].
  apply traverse_length in Hws.
  destruct (pw_append_points_lists (level_of w_val show w_err)
    p1 iter_p2 ws L (eq_sym Hws)) as (Hp1 & Hp2 & Hw2 & Hq1 & Hq2 & Hq3 & Hq4).
  destruct (pw_append_points_lists (level_of w_val' show' w_err')
    p1 iter_p2 ws L' (eq_sym Hws))
    as (Hp1' & Hp2' & Hw2' & Hq1' & Hq2' & Hq3' & Hq4').
  rewrite Hp2, Hw2, Hp2', Hw2', <- E2, <- E3.
  destruct (list_index (running_max 0 ws) _) as [i_max|]; simpl; [|done].
  destruct (getitem _ i_max) as [max_p2|]; simpl; [|done].
  destruct (list_index (running_min 9999 ws) _) as [i_min|]; simpl; [|done].
  destruct (getitem _ i_min) as [min_p2|]; simpl; [|done].
  unfold same_surface. simpl.
  rewrite Hp1, Hp2, Hw2, Hq1, Hq2, Hq3, Hq4.
  rewrite Hp1', Hp2', Hw2', Hq1', Hq2', Hq3', Hq4'.
  by rewrite E1, E2, E3, E4, E5, E6, E7.
Qed.

Lemma p_w_sweep_same_surface (obs : R → R → outcome R)
    (w_val w_val' : R) (show show' : bool) (w_err w_err' : R)
    (iter_p1 iter_p2 : list R) (L L' : pw_lists) :
  same_surface L L' →
  match for_loop iter_p1 (pw_outer obs w_val show w_err iter_p2) L,
        for_loop iter_p1 (pw_outer obs w_val' show' w_err' iter_p2) L' with
  | Ok L1, Ok L1' => same_surface L1 L1'
  | Raise e, Raise e' => e = e'
  | _, _ => False
  end.
Proof.
  revert L L'. induction iter_p1 as [|p1 iter_p1 IH]; intros L L' HLL'; simpl.
  - done.
  - pose proof (pw_outer_same_surface obs w_val w_val' show show' w_err
                  w_err' iter_p2 p1 L L' HLL') as Hrow.
    destruct (pw_outer obs w_val show w_err iter_p2 p1 L) as [L1|e],
      (pw_outer obs w_val' show' w_err' iter_p2 p1 L') as [L1'|e'];
      simpl; try done.
    by apply IH.
Qed.

Lemma same_surface_refl (L : pw_lists) : same_surface L L.
Proof. by repeat split. Qed.

Lemma level_selected_empty (lv : R → bool) : level_selected lv pw_empty.
Proof. by repeat split. Qed.

(** On a time grid of one sample, with [w2 = -1], the two-dimensional sweep
    of the notebook's parameters completes, whatever the level-curve
    options. *)
Lemma p_w_plot_single_sample_completes (w_val : R) (show : bool)
    (iter_n : nat) (w_err : R) :
  (0 < iter_n)%nat →
  ∃ L, (p_w_plot odeint_hold dp_rhs w_val show iter_n w_err (PI/15) (PI/2)
          (single_sample_env (-1)) notebook_store).1 = Ok L.
Proof.
  intros Hn. rewrite p_w_plot_run. simpl. unfold p_w_sweep.
  apply p_w_sweep_completes; [done| |].
  - right. intros Hnil. apply (f_equal length) in Hnil.
    rewrite length_linspace in Hnil. simpl in Hnil. lia.
  - intros p1 p2 _ _. exists (- - 1). split; [|lra].
    apply (angle_point_single_sample odeint_hold odeint_hold_initial_row
             dp_rhs (-1) p1 p2).
Qed.

Section TwoDimensional.

Variable odeint :
  rhs_fun → list R → list R → list R → R → R → outcome (list (list R)).
Variables (rhs : rhs_fun) (G : Nb.t) (σ : store).
Variables (w_val : R) (show_level_curve : bool) (iter_n : nat).
Variables (w_err angle_start angle_end : R).

(** X19. A completed [p_w_plot] holds [iter_n * iter_n] points and one
    maximum and one minimum, each with an angle, per row, so that the row
    lists can be drawn against the [iter_n] values of [phi1].  Row [r] of the
    observables is the slice [w2_list[r*iter_n : (r+1)*iter_n]]; the maximum
    recorded for it is the largest of 0 and the slice, the minimum the
    smallest of 9999 and the slice. *)
Theorem p_w_plot_row_extrema (L : pw_lists) :
  (p_w_plot odeint rhs w_val show_level_curve iter_n w_err
     angle_start angle_end G σ).1 = Ok L →
  length (w2_list L) = (iter_n * iter_n)%nat ∧
  length (max_w2_list L) = iter_n ∧ length (max_p2_list L) = iter_n ∧
  length (min_w2_list L) = iter_n ∧ length (min_p2_list L) = iter_n ∧
  ∀ r, (r < iter_n)%nat →
    let row := take iter_n (drop (r * iter_n) (w2_list L)) in
    ∃ hi lo,
      max_w2_list L !! r = Some hi ∧ min_w2_list L !! r = Some lo ∧
      (hi = 0 ∨ hi ∈ row) ∧ 0 <= hi ∧ (∀ w, w ∈ row → w <= hi) ∧
      (lo = 9999 ∨ lo ∈ row) ∧ lo <= 9999 ∧ (∀ w, w ∈ row → lo <= w).
Proof.
  rewrite p_w_plot_run. simpl. unfold p_w_sweep. intros Hrun.
  destruct (p_w_sweep_lists _ _ _ _ _ _ _ _ Hrun) as (ws & Hws & _ & _ & Ews).
  destruct (p_w_sweep_rows _ _ _ _ _ _ _ _ Hrun)
    as (rows & Hrows & Ew2 & Emw & Enw & Emp & Enp).
  simpl in *. rewrite length_linspace in Emp, Enp.
  assert (Hnrows : length rows = iter_n).
  { rewrite <- (Forall2_length _ _ _ Hrows). apply length_linspace. }
  assert (Hrowlen : Forall (λ ws, length ws = iter_n) rows).
  { apply Forall_forall. intros row Hrow.
    apply list_elem_of_lookup in Hrow as (r & Hr).
    destruct (Forall2_lookup_r _ _ _ _ _ Hrows Hr) as (p1 & _ & Hp1).
    rewrite <- (Forall2_length _ _ _ Hp1). apply length_linspace. }
  split.
  { rewrite Ews, <- (Forall2_length _ _ _ Hws), length_grid_rows.
    by rewrite !length_linspace. }
  rewrite Emw, Enw, !length_fmap, Hnrows.
  split; [done|]. split; [done|]. split; [done|]. split; [done|].
  intros r Hr. cbv zeta.
  destruct (lookup_lt_is_Some_2 rows r) as (ws_r & Hws_r); [lia|].
  assert (Hrow : take iter_n (drop (r * iter_n) (w2_list L)) = ws_r).
  { rewrite Ew2. by apply concat_row. }
  rewrite Hrow.
  exists (running_max 0 ws_r), (running_min 9999 ws_r).
  rewrite !list_lookup_fmap, Hws_r. simpl.
  split; [done|]. split; [done|].
  split; [apply running_max_cases|]. split; [apply running_max_ge|].
  split; [intros w; apply running_max_upper|].
  split; [apply running_min_cases|]. split; [apply running_min_le|].
  intros w; apply running_min_lower.
Qed.

(** X20. In a completed [p_w_plot] the angle recorded with a row's maximum
    or minimum is the [phi2] of the first point of the whole sweep, in
    visiting order, whose observable equals that value: the search runs
    through all rows visited so far, not through the row. *)
Theorem p_w_plot_companion_first_occurrence (L : pw_lists) (r : nat)
    (x q : R) :
  (p_w_plot odeint rhs w_val show_level_curve iter_n w_err
     angle_start angle_end G σ).1 = Ok L →
  (max_w2_list L !! r = Some x ∧ max_p2_list L !! r = Some q) ∨
  (min_w2_list L !! r = Some x ∧ min_p2_list L !! r = Some q) →
  ∃ i, w2_list L !! i = Some x ∧
       (∀ j, (j < i)%nat → w2_list L !! j ≠ Some x) ∧
       p2_list L !! i = Some q.
Proof.
  rewrite p_w_plot_run. simpl. unfold p_w_sweep. intros Hrun Hrec.
  destruct (p_w_sweep_companions _ _ _ _ _ _ pw_empty L eq_refl
              (Forall2_nil_2 _ _ _) (Forall2_nil_2 _ _ _) Hrun) as (Hmax & Hmin).
  assert (Hq : lookup_by_value (p2_list L) (w2_list L) x = Ok q).
  { destruct Hrec as [(Hx & Hq)|(Hx & Hq)].
    - by apply (Forall2_lookup_lr _ _ _ _ _ _ Hmax Hx Hq).
    - by apply (Forall2_lookup_lr _ _ _ _ _ _ Hmin Hx Hq). }
  apply lookup_by_value_Ok in Hq as (i & Hi & Hqi).
  destruct (list_index_Ok _ _ _ Hi) as (Hxi & Hfirst).
  by exists i.
Qed.

(** X21. The level-curve lists of a completed [p_w_plot] are, in visiting
    order, the points whose observable is within [w_err] of [w_val]; they
    are empty when [show_level_curve] is off. *)
Theorem p_w_plot_level_lists (L : pw_lists) :
  (p_w_plot odeint rhs w_val show_level_curve iter_n w_err
     angle_start angle_end G σ).1 = Ok L →
  level_selected (level_of w_val show_level_curve w_err) L ∧
  (∀ w, w ∈ w2_err_list L ↔
        show_level_curve = true ∧ w ∈ w2_list L ∧ Rabs (w_val - w) < w_err) ∧
  (show_level_curve = false →
   p1_err_list L = [] ∧ p2_err_list L = [] ∧ w2_err_list L = []).
Proof.
  rewrite p_w_plot_run. simpl. unfold p_w_sweep. intros Hrun.
  pose proof (p_w_sweep_level_selected _ _ _ _ _ _ _ _
                (level_selected_empty _) Hrun) as Hsel.
  split; [done|].
  destruct Hsel as (_ & _ & Ew & E1 & E2). split.
  - intros w. rewrite Ew, list_elem_of_In, List.filter_In,
      <- list_elem_of_In. unfold level_of.
    destruct show_level_curve; [|by intuition].
    destruct (Rlt_dec (Rabs (w_val - w)) w_err); by intuition.
  - intros ->. rewrite Ew, E1, E2. unfold level_of.
    simpl. by rewrite !filter_none.
Qed.

(** X22. The level-curve options of [p_w_plot] reach the level-curve lists
    only: two runs that differ in [w_val], [show_level_curve] and [w_err]
    alone raise the same exception or complete with the same seven other
    lists. *)
Theorem p_w_plot_level_options_irrelevant (w_val' : R) (show' : bool)
    (w_err' : R) :
  match (p_w_plot odeint rhs w_val show_level_curve iter_n w_err
           angle_start angle_end G σ).1,
        (p_w_plot odeint rhs w_val' show' iter_n w_err'
           angle_start angle_end G σ).1 with
  | Ok L, Ok L' => same_surface L L'
  | Raise e, Raise e' => e = e'
  | _, _ => False
  end.
Proof.
  rewrite !p_w_plot_run. simpl. unfold p_w_sweep.
  apply p_w_sweep_same_surface, same_surface_refl.
Qed.

End TwoDimensional.

(** ** The further sweep properties on a time grid of one sample *)

Lemma one_dim_sweep_shape_witness :
  length [1/4] = 1%nat ∧ length [Scalar (- 0)] = 1%nat ∧
  ((0 < 1)%nat → [1/4] !! 0%nat = Some (1/4)) ∧
  ((2 <= 1)%nat → [1/4] !! (1 - 1)%nat = Some 10).
Proof.
  apply (one_dim_sweep_shape odeint_hold dp_rhs (single_sample_env 0)
           notebook_store true 1 10 [1/4] [Scalar (- 0)]).
  left. exact (length_plot_single_sample odeint_hold odeint_hold_initial_row
                 dp_rhs 0).
Defined.

Lemma p_w_plot_single_point :
  (p_w_plot odeint_hold dp_rhs 3 false 1 (5/100) (PI/15) (PI/2)
     (single_sample_env (-1)) notebook_store).1 = Ok single_point_lists.
Proof.
  rewrite p_w_plot_run. simpl. rewrite linspace_one.
  unfold p_w_sweep, pw_outer, pw_inner. simpl.
  rewrite (angle_point_single_sample odeint_hold odeint_hold_initial_row
             dp_rhs (-1)). simpl.
  unfold pw_append_point, getitem. simpl.
  decide_reals. simpl. decide_reals. reflexivity.
Qed.

Lemma p_w_plot_row_extrema_witness :
  length (w2_list single_point_lists) = (1 * 1)%nat ∧
  length (max_w2_list single_point_lists) = 1%nat ∧
  length (max_p2_list single_point_lists) = 1%nat ∧
  length (min_w2_list single_point_lists) = 1%nat ∧
  length (min_p2_list single_point_lists) = 1%nat ∧
  ∀ r, (r < 1)%nat →
    let row := take 1 (drop (r * 1) (w2_list single_point_lists)) in
    ∃ hi lo,
      max_w2_list single_point_lists !! r = Some hi ∧
      min_w2_list single_point_lists !! r = Some lo ∧
      (hi = 0 ∨ hi ∈ row) ∧ 0 <= hi ∧ (∀ w, w ∈ row → w <= hi) ∧
      (lo = 9999 ∨ lo ∈ row) ∧ lo <= 9999 ∧ (∀ w, w ∈ row → lo <= w).
Proof.
  exact (p_w_plot_row_extrema odeint_hold dp_rhs (single_sample_env (-1))
           notebook_store 3 false 1 (5/100) (PI/15) (PI/2)
           single_point_lists p_w_plot_single_point).
Defined.

Lemma p_w_plot_companion_first_occurrence_witness :
  ∃ i, w2_list single_point_lists !! i = Some (- - 1) ∧
       (∀ j, (j < i)%nat → w2_list single_point_lists !! j ≠ Some (- - 1)) ∧
       p2_list single_point_lists !! i = Some (PI/15).
Proof.
  apply (p_w_plot_companion_first_occurrence odeint_hold dp_rhs
           (single_sample_env (-1)) notebook_store 3 false 1 (5/100)
           (PI/15) (PI/2) single_point_lists 0 (- - 1) (PI/15)
           p_w_plot_single_point).
  left. split; reflexivity.
Defined.

Lemma p_w_plot_level_lists_witness :
  level_selected (level_of 3 false (5/100)) single_point_lists ∧
  (∀ w, w ∈ w2_err_list single_point_lists ↔
        false = true ∧ w ∈ w2_list single_point_lists ∧
        Rabs (3 - w) < 5/100) ∧
  (false = false →
   p1_err_list single_point_lists = [] ∧
   p2_err_list single_point_lists = [] ∧
   w2_err_list single_point_lists = []).
Proof.
  exact (p_w_plot_level_lists odeint_hold dp_rhs (single_sample_env (-1))
           notebook_store 3 false 1 (5/100) (PI/15) (PI/2)
           single_point_lists p_w_plot_single_point).
Defined.

(** ** The composite drivers *)

(** The copy a sweep allocates does not change what the name [p] holds. *)
Lemma lookup_after_alloc (σ σ' : store) (r : nat) :
  σ' = σ ∨ is_Some (σ !! r) ∧ (∃ cur, σ' = <[fresh (dom σ) := cur]> σ) →
  σ' !! r = σ !! r.
Proof.
  intros [->|(Hr & cur & ->)]; [done|].
  apply lookup_insert_ne. intros Heq.
  apply (is_fresh (dom σ)). rewrite Heq. by apply elem_of_dom.
Qed.

Section CompositeRuns.

Variable odeint :
  rhs_fun → list R → list R → list R → R → R → outcome (list (list R)).
Variables (rhs : rhs_fun) (G : Nb.t) (σ : store).

(** X23. In [plot_all_length] and [plot_all_mass] the second sweep computes
    what it computes on its own: the first sweep leaves nothing behind that
    the second reads, and an exception of the first ends the composite
    before the second starts. *)
Theorem plot_all_sweeps_independent (n : nat) (x_max : R) :
  (plot_all_length odeint rhs n x_max G σ).1
  = (over_l2 ← (length_plot odeint rhs false n x_max G σ).1;
     over_l1 ← (length_plot odeint rhs true n x_max G σ).1;
     Ok (over_l2, over_l1)) ∧
  (plot_all_mass odeint rhs n x_max G σ).1
  = (over_m2 ← (mass_plot odeint rhs false n x_max G σ).1;
     over_m1 ← (mass_plot odeint rhs true n x_max G σ).1;
     Ok (over_m2, over_m1)).
Proof.
  split.
  - unfold plot_all_length. rewrite py_bind_run.
    destruct (length_plot_run odeint rhs G false n x_max σ)
      as (σ1 & -> & Hσ1).
    apply lookup_after_alloc in Hσ1.
    destruct (length_plot_run odeint rhs G true n x_max σ) as (σ2 & -> & _).
    simpl.
    destruct (σ !! Nb.p G) as [base|] eqn:Hbase; [|done].
    destruct (traverse (length_point odeint rhs G false base) _) as [ws|e];
      simpl; [|done].
    rewrite py_bind_run.
    destruct (length_plot_run odeint rhs G true n x_max σ1) as (σ3 & -> & _).
    rewrite Hσ1.
    by destruct (traverse (length_point odeint rhs G true base) _).
  - unfold plot_all_mass. rewrite py_bind_run.
    destruct (mass_plot_run odeint rhs G false n x_max σ)
      as (σ1 & -> & Hσ1).
    apply lookup_after_alloc in Hσ1.
    destruct (mass_plot_run odeint rhs G true n x_max σ) as (σ2 & -> & _).
    simpl.
    destruct (σ !! Nb.p G) as [base|] eqn:Hbase; [|done].
    destruct (traverse (mass_point odeint rhs G false base) _) as [ws|e];
      simpl; [|done].
    rewrite py_bind_run.
    destruct (mass_plot_run odeint rhs G true n x_max σ1) as (σ3 & -> & _).
    rewrite Hσ1.
    by destruct (traverse (mass_point odeint rhs G true base) _).
Qed.

(** X24. [plot_all_p_w] runs the whole sweep twice.  When the first run
    raises, the composite raises the same exception.  When it completes, so
    does the second, with the same points, observables and row extrema; the
    first holds no level-curve points, the second those within 0.05 of
    [w_val].  The store is as before. *)
Theorem plot_all_p_w_repeats_sweep (w_val : R) (iter_n : nat)
    (angle_start angle_end : R) :
  match (p_w_plot odeint rhs w_val false iter_n (5/100)
           angle_start angle_end G σ).1 with
  | Ok surface =>
      ∃ level,
        (plot_all_p_w odeint rhs w_val iter_n angle_start angle_end G σ).1
          = Ok (surface, level) ∧
        (p_w_plot odeint rhs w_val true iter_n (5/100)
           angle_start angle_end G σ).1 = Ok level ∧
        same_surface surface level ∧
        p1_err_list surface = [] ∧ p2_err_list surface = [] ∧
        w2_err_list surface = [] ∧
        level_selected (level_of w_val true (5/100)) level
  | Raise e =>
      (plot_all_p_w odeint rhs w_val iter_n angle_start angle_end G σ).1
        = Raise e
  end ∧
  (plot_all_p_w odeint rhs w_val iter_n angle_start angle_end G σ).2 = σ.
Proof.
  unfold plot_all_p_w. rewrite py_bind_run, !p_w_plot_run. simpl.
  unfold p_w_sweep.
  set (obs := angle_point odeint rhs G (σ !! Nb.p G)).
  set (grid := linspace angle_start angle_end iter_n).
  pose proof (p_w_sweep_same_surface obs w_val w_val false true (5/100)
                (5/100) grid grid pw_empty pw_empty (same_surface_refl _))
    as Hsame.
  destruct (for_loop grid (pw_outer obs w_val false (5/100) grid) pw_empty)
    as [surface|e] eqn:Hfirst; simpl; [|done].
  rewrite py_bind_run, p_w_plot_run. simpl. unfold p_w_sweep.
  fold obs grid.
  destruct (for_loop grid (pw_outer obs w_val true (5/100) grid) pw_empty)
    as [level|e'] eqn:Hsecond; simpl; [|done].
  split; [|done]. exists level.
  split; [done|]. split; [done|]. split; [done|].
  pose proof (p_w_sweep_level_selected obs w_val false (5/100) grid grid
                pw_empty surface (level_selected_empty _) Hfirst)
    as (_ & _ & Ew & E1 & E2).
  pose proof (p_w_sweep_level_selected obs w_val true (5/100) grid grid
                pw_empty level (level_selected_empty _) Hsecond) as Hlevel.
  split; [|split; [|split; [|done] ] ].
  - rewrite E1. unfold level_of. simpl. by rewrite filter_none.
  - rewrite E2. unfold level_of. simpl. by rewrite filter_none.
  - rewrite Ew. apply filter_none.
Qed.

End CompositeRuns.
